(** * Fibonacci heap (src/FibonacciHeap.py): shallow embedding and properties

    Python objects live in an arena: an [Element] is a record stored in a
    list, and a reference to it is its index.  A [FibonacciHeap] object
    holds only [_size] and [_min]; its methods run in a state-and-exception
    monad over the arena and the receiver.  Loops of the source that are not
    structurally bounded take a fuel argument. *)

From Stdlib Require Import ZArith String Lia Sorted.
From stdpp Require Import base decidable option list sets.

Local Open Scope Z_scope.

(** ** Priorities

    Priorities are numbers; [delete] also uses [-np.inf]. *)

Inductive prio := NegInf | Fin (z : Z).

Definition prio_ltb (a b : prio) : bool :=
  match a, b with
  | _, NegInf => false
  | NegInf, Fin _ => true
  | Fin x, Fin y => x <? y
  end.

Definition prio_leb (a b : prio) : bool := negb (prio_ltb b a).

Definition prio_lt (a b : prio) : Prop := prio_ltb a b = true.
Definition prio_le (a b : prio) : Prop := prio_ltb b a = false.

Definition prio_min (a b : prio) : prio := if prio_ltb b a then b else a.

#[global] Instance prio_eq_dec : EqDecision prio.
Proof. solve_decision. Defined.

(** ** Elements and heaps *)

Abbreviation ref := nat (only parsing).

Record Element := mkElement {
  obj : string;
  priority : prio;
  left : ref;
  right : ref;
  child : option ref;
  parent : option ref;
  degree : Z;
  mark : bool
}.

Record FibonacciHeap := mkHeap {
  _size : Z;
  _min : option ref
}.

Definition set_priority (v : prio) (e : Element) : Element :=
  mkElement (obj e) v (left e) (right e) (child e) (parent e) (degree e) (mark e).
Definition set_left (v : ref) (e : Element) : Element :=
  mkElement (obj e) (priority e) v (right e) (child e) (parent e) (degree e) (mark e).
Definition set_right (v : ref) (e : Element) : Element :=
  mkElement (obj e) (priority e) (left e) v (child e) (parent e) (degree e) (mark e).
Definition set_child (v : option ref) (e : Element) : Element :=
  mkElement (obj e) (priority e) (left e) (right e) v (parent e) (degree e) (mark e).
Definition set_parent (v : option ref) (e : Element) : Element :=
  mkElement (obj e) (priority e) (left e) (right e) (child e) v (degree e) (mark e).
Definition set_degree (v : Z) (e : Element) : Element :=
  mkElement (obj e) (priority e) (left e) (right e) (child e) (parent e) v (mark e).
Definition set_mark (v : bool) (e : Element) : Element :=
  mkElement (obj e) (priority e) (left e) (right e) (child e) (parent e) (degree e) v.

(** ** The monad *)

Record world := World {
  mem : list Element;
  self : FibonacciHeap
}.

Inductive exn := ValueError | AttributeError | AssertionError | IndexError | OverflowError.

(** [Stuck] is not a Python outcome: the fuel ran out, or a reference
    points outside the arena (Python references never dangle). *)
Inductive result (A : Type) :=
  | Ok (a : A) (w : world)
  | Raise (e : exn) (w : world)
  | Stuck.
Arguments Ok {A} a w.
Arguments Raise {A} e w.
Arguments Stuck {A}.

Definition M (A : Type) : Type := world → result A.

#[global] Instance M_ret : MRet M := λ A a w, Ok a w.
#[global] Instance M_bind : MBind M := λ A B f c w,
  match c w with
  | Ok a w' => f a w'
  | Raise e w' => Raise e w'
  | Stuck => Stuck
  end.

Definition raise {A} (e : exn) : M A := λ w, Raise e w.
Definition stuck {A} : M A := λ _, Stuck.

Definition load (r : ref) : M Element := λ w,
  match mem w !! r with
  | Some e => Ok e w
  | None => Stuck
  end.

Definition modify (r : ref) (f : Element → Element) : M unit := λ w,
  match mem w !! r with
  | Some e => Ok tt (World (<[r := f e]> (mem w)) (self w))
  | None => Stuck
  end.

(** [x.f] for a reference [x] *)
Definition rd {A} (f : Element → A) (r : ref) : M A := e ← load r; mret (f e).

(** [x.attribute] where [x] may be [None] *)
Definition attr (o : option ref) : M ref :=
  match o with
  | Some r => mret r
  | None => raise AttributeError
  end.

Definition get_min : M (option ref) := λ w, Ok (_min (self w)) w.
Definition set_min (v : option ref) : M unit := λ w,
  Ok tt (World (mem w) (mkHeap (_size (self w)) v)).
Definition get_size : M Z := λ w, Ok (_size (self w)) w.
Definition set_size (v : Z) : M unit := λ w,
  Ok tt (World (mem w) (mkHeap v (_min (self w)))).

(** [Element(obj, priority)]: a fresh self-looped node *)
Definition new_Element (x : string) (p : prio) : M ref := λ w,
  let r := length (mem w) in
  Ok r (World (mem w ++ [mkElement x p r r None None 0 false]) (self w)).

(** ** Python list indexing, with negative indices counted from the end *)

Definition py_pos {A} (l : list A) (i : Z) : option nat :=
  let n := Z.of_nat (length l) in
  if decide (0 ≤ i < n) then Some (Z.to_nat i)
  else if decide (- n ≤ i < 0) then Some (Z.to_nat (n + i))
  else None.

Definition getitem {A} (l : list A) (i : Z) : M A :=
  match py_pos l i with
  | Some k => match l !! k with Some a => mret a | None => raise IndexError end
  | None => raise IndexError
  end.

Definition setitem {A} (l : list A) (i : Z) (v : A) : M (list A) :=
  match py_pos l i with
  | Some k => mret (<[k := v]> l)
  | None => raise IndexError
  end.

(** ** [int(np.ceil(np.log(n)/np.log(golden))+1)]

    The logarithm is taken over the reals; floating-point rounding is not
    modelled.  [phi^k = (a + b*sqrt 5)/2] with [a], [b] the Lucas and
    Fibonacci numbers, so [phi^k >= n] is decided on integers. *)

Definition phi_pow_ge (a b n : Z) : bool :=
  let t := 2 * n - a in
  (t <=? 0) || (t * t <=? 5 * b * b).

Fixpoint ceil_log_from (fuel : nat) (a b n : Z) : nat :=
  match fuel with
  | O => O
  | S f => if phi_pow_ge a b n then O
           else S (ceil_log_from f ((a + 5 * b) / 2) ((a + b) / 2) n)
  end.

Definition ceil_log_phi (n : Z) : nat := ceil_log_from (Z.to_nat n) 2 0 n.

Definition array_len (n : Z) : M nat :=
  if decide (n < 0) then raise ValueError
  else if decide (n = 0) then raise OverflowError
  else mret (S (ceil_log_phi n)).

(** ** The methods of [FibonacciHeap] *)

Module Fib.

Definition _doublylinkedlist_insert (head : option ref) (y : ref) : M unit :=
  match head with
  | Some head =>
      tail ← rd right head;
      modify tail (set_left y);;
      modify head (set_right y);;
      modify y (set_left head);;
      modify y (set_right tail)
  | None => mret tt
  end.

Definition _insert_to_root_list (elem : ref) : M unit :=
  p ← rd parent elem;
  (if decide (p ≠ None) then modify elem (set_parent None) else mret tt);;
  m ← get_min;
  match m with
  | Some _ => _doublylinkedlist_insert m elem
  | None => set_min (Some elem)
  end.

Definition insert (x : string) (p : prio) : M ref :=
  elem ← new_Element x p;
  _insert_to_root_list elem;;
  m ← get_min;
  match m with
  | None => set_min (Some elem)
  | Some m =>
      pm ← rd priority m;
      pe ← rd priority elem;
      if prio_ltb pe pm then set_min (Some elem) else mret tt
  end;;
  n ← get_size;
  set_size (n + 1);;
  mret elem.

Definition min : M (option ref) := get_min.

Definition size : M Z := get_size.

Definition _remove_from_root_list (z : ref) : M unit :=
  p ← rd parent z;
  if decide (p ≠ None) then raise AssertionError else
  zr ← rd right z;
  if decide (zr = z) then set_min None
  else
    m ← get_min;
    (if decide (m = Some z) then zr ← rd right z; set_min (Some zr) else mret tt);;
    zr ← rd right z; zl ← rd left z; modify zl (set_right zr);;
    zl ← rd left z; zr ← rd right z; modify zr (set_left zl);;
    modify z (set_left z);;
    modify z (set_right z).

Definition _heap_link (y x : ref) : M unit :=
  c ← rd child x;
  match c with
  | Some _ => _doublylinkedlist_insert c y
  | None => modify x (set_child (Some y))
  end;;
  modify y (set_parent (Some x));;
  d ← rd degree x;
  modify x (set_degree (d + 1));;
  modify y (set_mark false).

(** the [while self._min] loop of [_consolidate] *)
Fixpoint collect_roots (fuel : nat) (q : list ref) : M (list ref) :=
  match fuel with
  | O => stuck
  | S f =>
      m ← get_min;
      match m with
      | Some r => _remove_from_root_list r;; collect_roots f (q ++ [r])
      | None => mret q
      end
  end.

(** the [while array[d] is not None] loop *)
Fixpoint link_loop (fuel : nat) (array : list (option ref)) (x : ref) (d : Z)
  : M (list (option ref) * ref * Z) :=
  match fuel with
  | O => stuck
  | S f =>
      slot ← getitem array d;
      match slot with
      | None => mret (array, x, d)
      | Some y =>
          px ← rd priority x;
          py ← rd priority y;
          let '(x, y) := if prio_ltb py px then (y, x) else (x, y) in
          _heap_link y x;;
          array ← setitem array d None;
          link_loop f array x (d + 1)
      end
  end.

(** the [while len(q)] loop *)
Fixpoint drain_queue (fuel : nat) (q : list ref) (array : list (option ref))
  : M (list (option ref)) :=
  match q with
  | [] => mret array
  | x :: q =>
      d ← rd degree x;
      '(array, x, d) ← link_loop fuel array x d;
      array ← setitem array d (Some x);
      drain_queue fuel q array
  end.

(** the [for elem in array] loop *)
Fixpoint rebuild_roots (array : list (option ref)) : M unit :=
  match array with
  | [] => mret tt
  | None :: array => rebuild_roots array
  | Some elem :: array =>
      m ← get_min;
      match m with
      | None => set_min (Some elem)
      | Some _ =>
          _insert_to_root_list elem;;
          pe ← rd priority elem;
          m ← get_min;
          m ← attr m;
          pm ← rd priority m;
          if prio_ltb pe pm then set_min (Some elem) else mret tt
      end;;
      rebuild_roots array
  end.

Definition _consolidate (fuel : nat) : M unit :=
  n ← get_size;
  len ← array_len n;
  q ← collect_roots fuel [];
  array ← drain_queue fuel q (replicate len None);
  rebuild_roots array.

(** the [while True] loop of [extract_min] that promotes the children *)
Fixpoint promote_children (fuel : nat) (z x : ref) : M unit :=
  match fuel with
  | O => stuck
  | S f =>
      next_child ← rd right x;
      modify x (set_parent None);;
      _insert_to_root_list x;;
      c ← rd child z;
      if decide (Some next_child = c) then modify z (set_child None)
      else promote_children f z next_child
  end.

Definition extract_min (fuel : nat) : M (option ref) :=
  z ← get_min;
  match z with
  | None => mret None
  | Some z =>
      x ← rd child z;
      match x with
      | Some x => promote_children fuel z x
      | None => mret tt
      end;;
      zr ← rd right z;
      (if decide (z = zr) then
         set_min None;;
         _remove_from_root_list z
       else
         set_min (Some zr);;
         _remove_from_root_list z;;
         _consolidate fuel);;
      n ← get_size;
      set_size (n - 1);;
      mret (Some z)
  end.

Definition _cut (x y : ref) : M unit :=
  p ← rd parent x;
  if decide (p ≠ Some y) then raise AssertionError else
  xr ← rd right x;
  (if decide (xr = x) then modify y (set_child None)
   else
     xr ← rd right x; modify y (set_child (Some xr));;
     xr ← rd right x; modify xr (set_parent (Some y));;
     xl ← rd left x; xr ← rd right x; modify xr (set_left xl);;
     xr ← rd right x; xl ← rd left x; modify xl (set_right xr));;
  _insert_to_root_list x;;
  d ← rd degree y;
  modify y (set_degree (d - 1));;
  modify x (set_mark false).

Fixpoint _cascading_cut (fuel : nat) (y : ref) : M unit :=
  match fuel with
  | O => stuck
  | S f =>
      z ← rd parent y;
      match z with
      | None => mret tt
      | Some z =>
          mk ← rd mark y;
          if negb mk then modify y (set_mark true)
          else _cut y z;; _cascading_cut f z
      end
  end.

(** ["%d" % p] in the message of the guard: a number is formatted;
    [-np.inf] is a float without an integer value, and its conversion
    raises [OverflowError].  The text of the message is not modelled. *)
Definition format_d (p : prio) : M unit :=
  match p with
  | Fin _ => mret tt
  | NegInf => raise OverflowError
  end.

(** The argument of [raise ValueError(... % (new_priority, x.priority))]
    is evaluated before the exception is made. *)
Definition decrease_key (fuel : nat) (x : ref) (new_priority : prio) : M unit :=
  px ← rd priority x;
  if negb (prio_ltb new_priority px) then
    px ← rd priority x;
    format_d new_priority;;
    format_d px;;
    raise ValueError
  else
  modify x (set_priority new_priority);;
  y ← rd parent x;
  match y with
  | Some y =>
      px ← rd priority x;
      py ← rd priority y;
      if prio_ltb px py then _cut x y;; _cascading_cut fuel y else mret tt
  | None => mret tt
  end;;
  px ← rd priority x;
  m ← get_min;
  m ← attr m;
  pm ← rd priority m;
  if prio_ltb px pm then set_min (Some x) else mret tt.

Definition delete (fuel : nat) (x : ref) : M unit :=
  decrease_key fuel x NegInf;;
  extract_min fuel;;
  mret tt.

Definition _clear (heap : FibonacciHeap) : FibonacciHeap := mkHeap 0 None.

(** [self.merge(heap)]: [heap] is another heap object over the same arena;
    its state after the call is the value returned. *)
Definition merge (heap : FibonacciHeap) : M FibonacciHeap :=
  min_one ← get_min;
  let min_two := _min heap in
  match min_one with
  | Some m1 =>
      min_one_right ← rd right m1;
      m2 ← attr min_two;
      m2r ← rd right m2;
      if decide (m2 ≠ m2r) then
        modify m1 (set_right m2r);;
        t ← rd right m2; modify t (set_left m1);;
        modify m2 (set_right min_one_right);;
        modify min_one_right (set_left m2)
      else _insert_to_root_list m2
  | None => set_min min_two
  end;;
  n ← get_size;
  set_size (n + _size heap);;
  mret (_clear heap).

(** [FibonacciHeap()] and [len(heap)] *)
Definition __init__ : FibonacciHeap := mkHeap 0 None.

Definition __len__ : M Z := size.

End Fib.

Definition empty_world : world := World [] (mkHeap 0 None).

(** ** The methods of [Element] *)

Module Elem.

Definition get_value (node : ref) : M string := rd obj node.

Definition get_priority (node : ref) : M prio := rd priority node.

(** the [while True] loop of [children] *)
Fixpoint children_loop (fuel : nat) (node x : ref) (children : list ref)
  : M (list ref) :=
  match fuel with
  | O => stuck
  | S f =>
      let children := children ++ [x] in
      x ← rd right x;
      c ← rd child node;
      if decide (Some x = c) then mret children
      else children_loop f node x children
  end.

Definition children (fuel : nat) (node : ref) : M (list ref) :=
  x ← rd child node;
  match x with
  | Some x => children_loop fuel node x []
  | None => mret []
  end.

(** the [while True] loop of [siblings] *)
Fixpoint siblings_loop (fuel : nat) (node x : ref) (siblings : list ref)
  : M (list ref) :=
  match fuel with
  | O => stuck
  | S f =>
      let siblings := siblings ++ [x] in
      x ← rd right x;
      if decide (x = node) then mret siblings
      else siblings_loop f node x siblings
  end.

Definition siblings (fuel : nat) (node : ref) : M (list ref) :=
  siblings_loop fuel node node [].

End Elem.

(** ** [union]

    [heap1] and [heap2] are two distinct heap objects over the arena [m].
    An outcome holds the new heap object, the two arguments as the call
    leaves them, and the arena; the new object is what [union] returns. *)

Inductive outcome :=
  | Returned (heap heap1 heap2 : FibonacciHeap) (m : list Element)
  | Raised (e : exn) (heap heap1 heap2 : FibonacciHeap) (m : list Element)
  | NoOutcome.

Definition union (heap1 heap2 : FibonacciHeap) (m : list Element) : outcome :=
  match Fib.merge heap1 (World m Fib.__init__) with
  | Ok heap1' w1 =>
      match Fib.merge heap2 w1 with
      | Ok heap2' w2 => Returned (self w2) heap1' heap2' (mem w2)
      | Raise e w2 => Raised e (self w2) heap1' heap2 (mem w2)
      | Stuck => NoOutcome
      end
  | Raise e w1 => Raised e (self w1) heap1 heap2 (mem w1)
  | Stuck => NoOutcome
  end.

(** ** [FibonacciTreeView.level_traversal] (src/FibonacciDraw.py)

    The receiver's [heap] attribute is the heap of the state. *)

Module Draw.

(** the [while len(q)] loop; the [for child in node.children()] loop
    appends the children to the queue in their order *)
Fixpoint traverse (fuel : nat) (q : list (ref * Z)) (nodes : list (list ref))
  : M (list (list ref)) :=
  match fuel with
  | O => stuck
  | S f =>
      match q with
      | [] => mret nodes
      | (node, level) :: q =>
          let nodes :=
            if decide (level = Z.of_nat (length nodes)) then nodes ++ [[]]
            else nodes in
          row ← getitem nodes level;
          nodes ← setitem nodes level (row ++ [node]);
          kids ← Elem.children fuel node;
          traverse f (q ++ map (λ child, (child, level + 1)) kids) nodes
      end
  end.

Definition level_traversal (fuel : nat) : M (list (list ref)) :=
  mn ← Fib.min;
  mn ← attr mn;
  sibs ← Elem.siblings fuel mn;
  traverse fuel (map (λ node, (node, 0)) sibs) [[]].

End Draw.

(** * Reasoning principles *)

(** ** Weakest preconditions

    [wp c w Q E S]: from [w], the run of [c] ends in [Ok a w'] with
    [Q a w'], or raises [e] in [w'] with [E e w'], or is stuck and [S]
    holds.  [S := False] is total correctness of the model, [S := True]
    says nothing on stuck runs. *)

Definition wp {A} (c : M A) (w : world)
    (Q : A → world → Prop) (E : exn → world → Prop) (S : Prop) : Prop :=
  match c w with
  | Ok a w' => Q a w'
  | Raise e w' => E e w'
  | Stuck => S
  end.

Definition noexn : exn → world → Prop := λ _ _, False.
Definition anyexn : exn → world → Prop := λ _ _, True.

#[global] Instance Element_inhabited : Inhabited Element :=
  populate (mkElement EmptyString NegInf 0%nat 0%nat None None 0 false).

(** [upd m r f] is the arena after an assignment to a field of [r] *)
Definition upd (m : list Element) (r : ref) (f : Element → Element) : list Element :=
  <[r := f (m !!! r)]> m.


(** ** Circular doubly-linked lists

    [path a l b]: the nodes of [a :: l ++ [b]] are linked in this order,
    each one the right neighbour of the one before and the left neighbour
    of the one after.  A ring is a path from its first node back to it. *)

Section rings.
Context (Rt Lt : ref → ref).

Fixpoint path (a : ref) (l : list ref) (b : ref) : Prop :=
    match l with
    | [] => Rt a = b ∧ Lt b = a
    | c :: l' => Rt a = c ∧ Lt c = a ∧ path c l' b
    end.

Definition ring (l : list ref) : Prop :=
    match l with
    | [] => True
    | a :: l' => path a l' a
    end.
End rings.

Definition is_ring (m : list Element) (l : list ref) : Prop :=
  NoDup l ∧ ring (λ r, right (m !!! r)) (λ r, left (m !!! r)) l.

(** ** The structure of a heap

    [live] lists the nodes of the heap.  The nodes with the same parent
    form one ring; the ring of the nodes without parent is the root list. *)

Definition members (m : list Element) (live : list ref) (o : option ref)
    (l : list ref) : Prop :=
  ∀ c, c ∈ l ↔ c ∈ live ∧ parent (m !!! c) = o.

Definition siblings (m : list Element) (live : list ref) (o : option ref)
    (l : list ref) : Prop :=
  is_ring m l ∧ members m live o l.

Definition rootsOk (m : list Element) (live : list ref) (mn : option ref) : Prop :=
  ∃ l, siblings m live None l ∧
       match mn with None => l = [] | Some r => r ∈ l end.

Definition nodeOk (m : list Element) (live : list ref) (p : ref) : Prop :=
  ∃ l, siblings m live (Some p) l ∧
       degree (m !!! p) = Z.of_nat (length l) ∧
       match child (m !!! p) with None => l = [] | Some c => c ∈ l end.

(** the parent links do not loop *)
Definition ranked (m : list Element) (live : list ref) : Prop :=
  ∃ rk : ref → nat, ∀ c p, c ∈ live → parent (m !!! c) = Some p → (rk c < rk p)%nat.

(** the shape of the forest *)
Record Forest (m : list Element) (live : list ref) : Prop := {
  forest_nodup : NoDup live;
  forest_alloc : ∀ r, r ∈ live → (r < length m)%nat;
  forest_nodes : ∀ p, p ∈ live → nodeOk m live p;
  forest_parent : ∀ c p, c ∈ live → parent (m !!! c) = Some p → p ∈ live;
  forest_rank : ranked m live
}.

(** heap order: no parent is larger than its child *)
Definition ordered (m : list Element) (live : list ref) : Prop :=
  ∀ c p, c ∈ live → parent (m !!! c) = Some p →
    prio_le (priority (m !!! p)) (priority (m !!! c)).

Record Inv (w : world) (live : list ref) : Prop := {
  inv_forest : Forest (mem w) live;
  inv_order : ordered (mem w) live;
  inv_roots : rootsOk (mem w) live (_min (self w));
  inv_size : _size (self w) = Z.of_nat (length live)
}.

(** the minimum pointer designates a node of least priority in the heap *)
Definition min_is_least (w : world) (live : list ref) : Prop :=
  match _min (self w) with
  | None => live = []
  | Some r => r ∈ live ∧
      ∀ x, x ∈ live → prio_le (priority (mem w !!! r)) (priority (mem w !!! x))
  end.

(** ** Arenas as Python has them

    References never dangle: every link of an allocated node points into
    the arena. *)
Definition closed (m : list Element) : Prop :=
  ∀ r, (r < length m)%nat →
    (left (m !!! r) < length m)%nat ∧ (right (m !!! r) < length m)%nat ∧
    (∀ c, child (m !!! r) = Some c → (c < length m)%nat) ∧
    (∀ p, parent (m !!! r) = Some p → (p < length m)%nat).

(** the exception of the guard of [decrease_key]: [ValueError], unless
    the formatting of its message fails on [-inf] *)
Definition guard_error (new_priority px : prio) : exn :=
  match new_priority, px with
  | Fin _, Fin _ => ValueError
  | _, _ => OverflowError
  end.

(** no node without parent is marked *)
Definition unmarked_roots (m : list Element) : Prop :=
  ∀ r, (r < length m)%nat → parent (m !!! r) = None → mark (m !!! r) = false.

Fixpoint count_marked (m : list Element) : nat :=
  match m with
  | [] => 0
  | e :: m => ((if mark e then 1 else 0) + count_marked m)%nat
  end.

(** what [_cut x y] does to a node [r] before [_insert_to_root_list x] *)
Definition unlink_at (m : list Element) (x y r : ref) : Element :=
  let xr := right (m !!! x) in
  let xl := left (m !!! x) in
  if decide (xr = x) then
    if decide (r = y) then set_child None (m !!! r) else m !!! r
  else
    set_child (if decide (r = y) then Some xr else child (m !!! r))
      (set_parent (if decide (r = xr) then Some y else parent (m !!! r))
         (set_left (if decide (r = xr) then xl else left (m !!! r))
            (set_right (if decide (r = xl) then xr else right (m !!! r))
               (m !!! r)))).

(** and after it *)
Definition cut_finish_at (m : list Element) (x y r : ref) : Element :=
  set_mark (if decide (r = x) then false else mark (m !!! r))
    (set_degree (if decide (r = y) then degree (m !!! y) - 1 else degree (m !!! r))
       (m !!! r)).

(** ** The effect of the pointer operations on a node *)

(** what [_doublylinkedlist_insert head y] does to a node [r] *)
Definition ddl_insert_at (m : list Element) (head y r : ref) : Element :=
  let tail := right (m !!! head) in
  set_right (if decide (r = y) then tail
             else if decide (r = head) then y else right (m !!! r))
    (set_left (if decide (r = y) then head
               else if decide (r = tail) then y else left (m !!! r))
       (m !!! r)).

(** what [_insert_to_root_list y] does to a node [r] when [head] is the
    minimum *)
Definition root_insert_at (m : list Element) (head y r : ref) : Element :=
  set_parent (if decide (r = y) then None else parent (m !!! r))
    (ddl_insert_at m head y r).

Definition clear_parent_at (m : list Element) (y r : ref) : Element :=
  if decide (r = y) then set_parent None (m !!! r) else m !!! r.

(** what the four assignments of the splice do to a node [r] *)
Definition splice_at (m : list Element) (m1 m2 r : ref) : Element :=
  set_right (if decide (r = m2) then right (m !!! m1)
             else if decide (r = m1) then right (m !!! m2) else right (m !!! r))
    (set_left (if decide (r = right (m !!! m1)) then m2
               else if decide (r = right (m !!! m2)) then m1 else left (m !!! r))
       (m !!! r)).

Definition merged_min (a b : option ref) : option ref :=
  match a with Some m1 => Some m1 | None => b end.

Definition insert_min (w : world) (e : ref) (p : prio) : option ref :=
  match _min (self w) with
  | None => Some e
  | Some m0 => if prio_ltb p (priority (mem w !!! m0)) then Some e else Some m0
  end.

(** the fields the structure of a forest depends on, links apart *)
Definition same_fields (e e' : Element) : Prop :=
  parent e' = parent e ∧ child e' = child e ∧ degree e' = degree e.

Definition same_links (e e' : Element) : Prop :=
  right e' = right e ∧ left e' = left e.

Definition same_data (m m' : list Element) : Prop :=
  length m' = length m ∧
  ∀ r, priority (m' !!! r) = priority (m !!! r) ∧ obj (m' !!! r) = obj (m !!! r).

(** what [_remove_from_root_list z] does to a node [r] of a ring of at
    least two nodes *)
Definition remove_at (m : list Element) (z r : ref) : Element :=
  set_right (if decide (r = z) then z
             else if decide (r = left (m !!! z)) then right (m !!! z)
             else right (m !!! r))
    (set_left (if decide (r = z) then z
               else if decide (r = right (m !!! z)) then left (m !!! z)
               else left (m !!! r))
       (m !!! r)).

(** what [_heap_link y x] does to a node [r] *)
Definition link_at (m : list Element) (y x r : ref) : Element :=
  let e :=
    match child (m !!! x) with
    | Some c =>
        set_right (right (ddl_insert_at m c y r))
          (set_left (left (ddl_insert_at m c y r)) (m !!! r))
    | None => if decide (r = x) then set_child (Some y) (m !!! r) else m !!! r
    end in
  set_mark (if decide (r = y) then false else mark e)
    (set_degree (if decide (r = x) then degree (m !!! x) + 1 else degree e)
       (set_parent (if decide (r = y) then Some x else parent e) e)).

(** the arena [m'] after [extract_min] has promoted the children in
    [done] of the minimum [z] of [m]; [zc] is the child field of [z] *)
Definition promoted (m m' : list Element) (z : ref) (zc : option ref)
    (done : list ref) : Prop :=
  length m' = length m ∧
  ∀ r, parent (m' !!! r) = (if decide (r ∈ done) then None else parent (m !!! r)) ∧
       (r ∉ done → parent (m !!! r) ≠ None → same_links (m !!! r) (m' !!! r)) ∧
       child (m' !!! r) = (if decide (r = z) then zc else child (m !!! r)) ∧
       degree (m' !!! r) = degree (m !!! r) ∧
       priority (m' !!! r) = priority (m !!! r) ∧
       obj (m' !!! r) = obj (m !!! r) ∧
       mark (m' !!! r) = mark (m !!! r).

(** ** The degree bound

    [fib k] is the k-th Fibonacci number. *)
Fixpoint fib_pair (k : nat) : Z * Z :=
  match k with
  | O => (0, 1)
  | S k => let '(a, b) := fib_pair k in (b, a + b)
  end.

Definition fib (k : nat) : Z := fst (fib_pair k).

(** the degree of a node, plus one if it has lost a child since it was
    linked *)
Definition edeg (e : Element) : Z := degree e + (if mark e then 1 else 0).

(** The children of [p] can be listed (in the order of their linking) so
    that the child at position [i] has at least [i] children, a marked one
    at least [i - 1].  [bad], if any, is a node that has just lost a child
    and whose mark is not yet updated. *)
Definition lazy_node (m : list Element) (live : list ref) (bad : option ref)
    (p : ref) : Prop :=
  ∃ ys, NoDup ys ∧ members m live (Some p) ys ∧
        ∀ (i : nat) y, ys !! i = Some y →
          Z.of_nat i ≤ edeg (m !!! y) + (if decide (bad = Some y) then 1 else 0).

Definition Fibo (m : list Element) (live : list ref) (bad : option ref) : Prop :=
  ∀ p, p ∈ live → lazy_node m live bad p.

(** [v] is [p] or a descendant of [p] *)
Inductive under (m : list Element) (p : ref) : ref → Prop :=
  | under_here : under m p p
  | under_up v q : parent (m !!! v) = Some q → under m p q → under m p v.

(** ** Consolidation

    While the root list is taken apart and rebuilt, the roots in [ring]
    are linked in a ring and those in [loose] are alone. *)
Record Split (m : list Element) (live ring loose : list ref) : Prop := {
  split_forest : Forest m live;
  split_order : ordered m live;
  split_fibo : Fibo m live None;
  split_nodup : NoDup (ring ++ loose);
  split_roots : members m live None (ring ++ loose);
  split_ring : is_ring m ring;
  split_loose : ∀ r, r ∈ loose → right (m !!! r) = r ∧ left (m !!! r) = r
}.

(** the trees in the array of [_consolidate] *)
Definition entries (array : list (option ref)) : list ref := omap id array.

(** slot [i] holds a root of degree [i] *)
Definition slots (m : list Element) (array : list (option ref)) : Prop :=
  ∀ (i : nat) r, array !! i = Some (Some r) → degree (m !!! r) = Z.of_nat i.

(** [m'] differs from [m] in the links of nodes without parent only *)
Definition relinked (m m' : list Element) : Prop :=
  length m' = length m ∧
  ∀ r, parent (m' !!! r) = parent (m !!! r) ∧
       child (m' !!! r) = child (m !!! r) ∧
       degree (m' !!! r) = degree (m !!! r) ∧
       mark (m' !!! r) = mark (m !!! r) ∧
       priority (m' !!! r) = priority (m !!! r) ∧
       obj (m' !!! r) = obj (m !!! r) ∧
       (parent (m !!! r) ≠ None → same_links (m !!! r) (m' !!! r)).

(** the roots in [l] have pairwise distinct degrees *)
Definition distinct_degrees (m : list Element) (l : list ref) : Prop :=
  ∀ r1 r2, r1 ∈ l → r2 ∈ l → degree (m !!! r1) = degree (m !!! r2) → r1 = r2.

(** [r] has the least priority of the nodes in [l] *)
Definition least_in (m : list Element) (l : list ref) (r : ref) : Prop :=
  r ∈ l ∧ ∀ x, x ∈ l → prio_le (priority (m !!! r)) (priority (m !!! x)).

(** the heap [w'] after [extract_min] has removed [z] from [w]: [roots]
    is the new root list *)
Definition extracted (w w' : world) (live : list ref) (z : ref)
    (live' roots : list ref) : Prop :=
  _min (self w) = Some z ∧ live ≡ₚ z :: live' ∧
  Inv w' live' ∧ Fibo (mem w') live' None ∧ same_data (mem w) (mem w') ∧
  siblings (mem w') live' None roots ∧ distinct_degrees (mem w') roots ∧
  match _min (self w') with
  | None => roots = []
  | Some r => least_in (mem w') roots r
  end.

(** a heap as [insert], [extract_min], [decrease_key] and [delete] keep
    it *)
Record Heap (w : world) (live : list ref) : Prop := {
  heap_inv : Inv w live;
  heap_least : min_is_least w live;
  heap_fibo : Fibo (mem w) live None
}.

(** ** The levels of [FibonacciTreeView.level_traversal] *)

(** [x] lies [k] parent links below a root *)
Inductive depth (m : list Element) : ref → nat → Prop :=
  | depth_root r : parent (m !!! r) = None → depth m r 0
  | depth_child c p k :
      parent (m !!! c) = Some p → depth m p k → depth m c (S k).

(** The state of the traversal: [nodes] holds the nodes taken from the
    queue, by level, [q] the nodes waiting.  A node has been seen (is in
    one of the two) exactly when it is a root or its parent has been
    taken from the queue. *)
Record Bfs (m : list Element) (live : list ref) (q : list (ref * Z))
    (nodes : list (list ref)) : Prop := {
  bfs_nodup : NoDup (concat nodes ++ q.*1);
  bfs_queue : ∀ x lv, (x, lv) ∈ q →
    x ∈ live ∧ 0 ≤ lv ≤ Z.of_nat (length nodes) ∧ depth m x (Z.to_nat lv);
  bfs_nodes : ∀ k row x, nodes !! k = Some row → x ∈ row →
    x ∈ live ∧ depth m x k;
  bfs_rows : ∀ k row, nodes !! k = Some row → (0 < k)%nat → row ≠ [];
  bfs_roots : ∀ x, x ∈ live → parent (m !!! x) = None →
    x ∈ concat nodes ++ q.*1;
  bfs_down : ∀ c p, c ∈ live → parent (m !!! c) = Some p →
    p ∈ concat nodes → c ∈ concat nodes ++ q.*1;
  bfs_up : ∀ c p, c ∈ concat nodes ++ q.*1 → parent (m !!! c) = Some p →
    p ∈ concat nodes
}.

(** ** Runs used as examples *)

(** [heap1] holds (X,10), [heap2] holds (Y,2) and (Z,7), over one arena;
    the result is [heap1] as the receiver and [heap2] as a value. *)
Definition two_heaps : option (world * FibonacciHeap) :=
  match Fib.insert "X"%string (Fin 10) empty_world with
  | Ok _ w1 =>
      match (Fib.insert "Y"%string (Fin 2);; Fib.insert "Z"%string (Fin 7))
              (World (mem w1) (mkHeap 0 None)) with
      | Ok _ w2 => Some (World (mem w2) (self w1), self w2)
      | _ => None
      end
  | _ => None
  end.

(** the priority of the minimum of a heap object *)
Definition min_priority (m : list Element) (h : FibonacciHeap) : option prio :=
  (λ r, priority (m !!! r)) <$> _min h.

Fixpoint inserts (l : list (string * prio)) : M (list ref) :=
  match l with
  | [] => mret []
  | (x, p) :: l => r ← Fib.insert x p; rs ← inserts l; mret (r :: rs)
  end.

(** five inserts, one [extract_min], and a [decrease_key] that cuts node 4
    from node 3 and marks node 3, a child of the minimum *)
Definition marked_child : M unit :=
  inserts [("a"%string, Fin 0); ("b"%string, Fin 10); ("c"%string, Fin 30); ("d"%string, Fin 20); ("e"%string, Fin 40)];;
  Fib.extract_min 10;;
  Fib.decrease_key 10 4%nat (Fin 15).

(** the state [marked_child] ends in: b (node 1) is the minimum, with
    the children c and d (nodes 2 and 3), d marked; e (node 4) is the other
    root; a (node 0) has left the heap *)
Definition marked_child_world : world :=
  Eval vm_compute in
    match marked_child empty_world with
    | Ok _ w => w
    | _ => empty_world
    end.

(** A marked child as the minimum of a heap, and the merge of that heap
    into another one.  [heap1 = {(X,100)}]; [heap2] is built from (a,0),
    (r,20), (c,30), (d,40), (e,50), one [extract_min], and the cuts of c
    and of e, which leave r with the only child d, marked;
    [heap1.merge(heap2)] keeps X as the minimum, and
    [heap1.decrease_key(d, 25)] makes d the minimum without a cut.  The
    result is a third heap [{(Y,1)}] and [heap1], to be merged into it. *)
Definition marked_minimum : option (world * FibonacciHeap) :=
  match Fib.insert "X" (Fin 100) empty_world with
  | Ok _ w1 =>
      match (inserts [("a"%string, Fin 0); ("r"%string, Fin 20); ("c"%string, Fin 30);
                      ("d"%string, Fin 40); ("e"%string, Fin 50)];;
             Fib.extract_min 10;;
             Fib.decrease_key 10 3%nat (Fin 15);;
             Fib.decrease_key 10 5%nat (Fin 10)) (World (mem w1) (mkHeap 0 None)) with
      | Ok _ w2 =>
          match (Fib.merge (self w2);;
                 Fib.decrease_key 10 4%nat (Fin 25)) (World (mem w2) (self w1)) with
          | Ok _ w3 =>
              match Fib.insert "Y" (Fin 1) (World (mem w3) (mkHeap 0 None)) with
              | Ok _ w4 => Some (w4, self w3)
              | _ => None
              end
          | _ => None
          end
      | _ => None
      end
  | _ => None
  end.

(** the failures of section 7 of the specification *)
Inductive failure := InvalidOperation | InvalidHandle | OtherFailure.

(** On a heap whose size is not negative, [ValueError] is raised by the
    guard of [decrease_key] only; the assertions are the only checks on
    the nodes passed in.  [OverflowError] comes from the conversion of an
    infinite float to an integer. *)
Definition failure_of (e : exn) : failure :=
  match e with
  | ValueError => InvalidOperation
  | AssertionError => InvalidHandle
  | _ => OtherFailure
  end.

(** [heap1] holds (X,10) and [heap2] holds (Y,2), over one arena *)
Definition heapA_ex : world :=
  World [mkElement "X" (Fin 10) 0%nat 0%nat None None 0 false;
         mkElement "Y" (Fin 2) 1%nat 1%nat None None 0 false]
        (mkHeap 1 (Some 0%nat)).
Definition heapB_ex : FibonacciHeap := mkHeap 1 (Some 1%nat).

(** [heap1 = {(X,100)}]; [heap2] is built from (a,0), (r,20), (c,30) and
    one [extract_min], which leaves the root r with the child c (node 3);
    then [heap1.merge(heap2)], [decrease_key(c, 25)], [insert(N, 1)] and
    [decrease_key(c, 15)], all on [heap1]. *)
Definition heap_order_example : result unit :=
  match Fib.insert "X" (Fin 100) empty_world with
  | Ok _ w1 =>
      match (inserts [("a"%string, Fin 0); ("r"%string, Fin 20); ("c"%string, Fin 30)];;
             Fib.extract_min 10) (World (mem w1) (mkHeap 0 None)) with
      | Ok _ w2 =>
          (Fib.merge (self w2);;
           Fib.decrease_key 10 3%nat (Fin 25);;
           Fib.insert "N" (Fin 1);;
           Fib.decrease_key 10 3%nat (Fin 15)) (World (mem w2) (self w1))
      | Raise e w => Raise e w
      | Stuck => Stuck
      end
  | Raise e w => Raise e w
  | Stuck => Stuck
  end.

(** [extract_min] until it returns [None]; [k] bounds the number of calls *)
Fixpoint extract_all (fuel k : nat) : M (list ref) :=
  match k with
  | O => stuck
  | S k =>
      z ← Fib.extract_min fuel;
      match z with
      | None => mret []
      | Some r => rs ← extract_all fuel k; mret (r :: rs)
      end
  end.

(** heap sort: the handles in the order of their extraction *)
Definition heap_sort (fuel : nat) (l : list (string * prio)) : M (list ref) :=
  inserts l;; extract_all fuel (S (length l)).

(** five inserts into a new heap *)
Definition five_inserts : list (string * prio) :=
  [("a"%string, Fin 4); ("b"%string, Fin 1); ("c"%string, Fin 3);
   ("d"%string, Fin 5); ("e"%string, Fin 2)].

Definition five_inserted : world :=
  Eval vm_compute in
    match inserts five_inserts empty_world with
    | Ok _ w => w
    | _ => empty_world
    end.

(** an element of priority [-inf] in the heap, and the deletion of
    another one *)
Definition delete_beside_neginf : M (option ref * Z) :=
  Fib.insert "A" NegInf;; Fib.insert "B" (Fin 3);; Fib.insert "C" (Fin 5);;
  Fib.delete 10 1%nat;;
  m ← Fib.min; n ← Fib.size; mret (m, n).

(** the heap of the five inserts after one [extract_min]: node 1 is out,
    the other four form one tree *)
Definition five_extracted : world :=
  Eval vm_compute in
    match Fib.extract_min 5 five_inserted with
    | Ok _ w => w
    | _ => empty_world
    end.



(** a heap of three elements whose minimum has priority [-inf] *)
Definition beside_neginf_inserts : list (string * prio) :=
  [("A"%string, NegInf); ("B"%string, Fin 3); ("C"%string, Fin 5)].

Definition beside_neginf : world :=
  Eval vm_compute in
    match inserts beside_neginf_inserts empty_world with
    | Ok _ w => w
    | _ => empty_world
    end.
(** * Lemmas *)

(** ** Rules of the weakest precondition *)

Section wp_rules.
Context {A B : Type}.
Implicit Types (Q : A → world → Prop) (E : exn → world → Prop) (S : Prop).

Lemma wp_ret (a : A) w Q E S : Q a w → wp (mret a) w Q E S.
  Proof. done. Qed.

Lemma wp_bind (c : M A) (f : A → M B) w (Q : B → world → Prop) E S :
    wp c w (λ a w', wp (f a) w' Q E S) E S → wp (c ≫= f) w Q E S.
  Proof. cbv [wp mbind M_bind]. by destruct (c w). Qed.

Lemma wp_mono (c : M A) w Q Q' E E' S S' :
    wp c w Q E S →
    (∀ a w', Q a w' → Q' a w') → (∀ e w', E e w' → E' e w') → (S → S') →
    wp c w Q' E' S'.
  Proof. unfold wp. destruct (c w); auto. Qed.

Lemma wp_raise e w Q E S : E e w → wp (raise e) w Q E S.
  Proof. done. Qed.

Lemma wp_stuck w Q E S : S → wp stuck w Q E S.
  Proof. done. Qed.

Lemma wp_rd (f : Element → A) r w Q E S :
    ((r < length (mem w))%nat → Q (f (mem w !!! r)) w) →
    ((length (mem w) ≤ r)%nat → S) →
    wp (rd f r) w Q E S.
  Proof.
    intros HQ HS. cbv [wp rd load mbind M_bind mret M_ret].
    destruct (decide (r < length (mem w))%nat) as [Hr|Hr].
    - rewrite (list_lookup_lookup_total_lt _ _ Hr). auto.
    - rewrite lookup_ge_None_2 by lia. apply HS. lia.
  Qed.

Lemma wp_elim (c : M A) w Q E S a w' :
    wp c w Q E S → c w = Ok a w' → Q a w'.
  Proof. unfold wp. intros H Heq. by rewrite Heq in H. Qed.

Lemma wp_intro (c : M A) w :
    wp c w (λ a w', c w = Ok a w') (λ e w', c w = Raise e w') (c w = Stuck).
  Proof. unfold wp. by destruct (c w). Qed.
End wp_rules.

Lemma wp_modify r f w (Q : unit → world → Prop) E S :
  ((r < length (mem w))%nat → Q tt (World (upd (mem w) r f) (self w))) →
  ((length (mem w) ≤ r)%nat → S) →
  wp (modify r f) w Q E S.
Proof.
  intros HQ HS. unfold wp, modify.
  destruct (decide (r < length (mem w))%nat) as [Hr|Hr].
  - rewrite (list_lookup_lookup_total_lt _ _ Hr). auto.
  - rewrite lookup_ge_None_2 by lia. apply HS. lia.
Qed.

Lemma wp_get_min w (Q : option ref → world → Prop) E S :
  Q (_min (self w)) w → wp get_min w Q E S.
Proof. done. Qed.

Lemma wp_set_min v w (Q : unit → world → Prop) E S :
  Q tt (World (mem w) (mkHeap (_size (self w)) v)) → wp (set_min v) w Q E S.
Proof. done. Qed.

Lemma wp_get_size w (Q : Z → world → Prop) E S :
  Q (_size (self w)) w → wp get_size w Q E S.
Proof. done. Qed.

Lemma wp_set_size v w (Q : unit → world → Prop) E S :
  Q tt (World (mem w) (mkHeap v (_min (self w)))) → wp (set_size v) w Q E S.
Proof. done. Qed.

Lemma wp_new_Element x p w (Q : ref → world → Prop) E S :
  Q (length (mem w))
    (World (mem w ++ [mkElement x p (length (mem w)) (length (mem w)) None None 0 false])
           (self w)) →
  wp (new_Element x p) w Q E S.
Proof. done. Qed.

Lemma wp_attr o w (Q : ref → world → Prop) E S :
  match o with Some r => Q r w | None => E AttributeError w end →
  wp (attr o) w Q E S.
Proof. by destruct o. Qed.

Lemma wp_guard x p w (Q : unit → world → Prop) E S :
  (x < length (mem w))%nat →
  E (guard_error p (priority (mem w !!! x))) w →
  wp (px ← rd priority x; Fib.format_d p;; Fib.format_d px;; raise ValueError) w Q E S.
Proof.
  intros Hx HE. cbv [wp mbind M_bind rd load mret M_ret].
  rewrite (list_lookup_lookup_total_lt _ _ Hx).
  by destruct p, (priority (mem w !!! x)).
Qed.

Lemma upd_length m r f : length (upd m r f) = length m.
Proof. apply length_insert. Qed.

Lemma upd_lookup m r f j :
  (r < length m)%nat →
  upd m r f !!! j = if decide (j = r) then f (m !!! r) else m !!! j.
Proof.
  intros Hr. unfold upd. case_decide as Hj.
  - subst. by rewrite list_lookup_total_insert_eq.
  - by rewrite list_lookup_total_insert_ne.
Qed.

Lemma upd_field {A} (f : Element → A) g m r j :
  (∀ e, f (g e) = f e) → f (upd m r g !!! j) = f (m !!! j).
Proof.
  intros Hfg. unfold upd. rewrite list_lookup_total_insert.
  case_decide as H; [|done]. destruct H as [-> _]. apply Hfg.
Qed.

Lemma upd_lookup_ne m r g j : j ≠ r → upd m r g !!! j = m !!! j.
Proof. intros. unfold upd. by rewrite list_lookup_total_insert_ne. Qed.

Lemma upd_lookup_eq m r g : (r < length m)%nat → upd m r g !!! r = g (m !!! r).
Proof. intros. unfold upd. by rewrite list_lookup_total_insert_eq. Qed.

(** reads through assignments to other fields *)
Ltac fld_simpl :=
  repeat first
    [ rewrite (upd_field right) by done
    | rewrite (upd_field left) by done
    | rewrite (upd_field parent) by done
    | rewrite (upd_field child) by done
    | rewrite (upd_field degree) by done
    | rewrite (upd_field mark) by done
    | rewrite (upd_field priority) by done
    | rewrite (upd_field obj) by done ].

Ltac wp_side :=
  simpl; intros; rewrite ?upd_length in *; try fld_simpl;
  first [done | lia | tauto].

Ltac wp_step1 :=
  lazymatch goal with
  | |- wp (mbind _ _) _ _ _ _ => apply wp_bind
  | |- wp (mret _) _ _ _ _ => apply wp_ret
  | |- wp (rd _ _) _ _ _ _ =>
      apply wp_rd; [simpl; intros ?; try fld_simpl | wp_side]
  | |- wp (modify _ _) _ _ _ _ =>
      apply wp_modify; [simpl; intros ?; try fld_simpl | wp_side]
  | |- wp get_min _ _ _ _ => apply wp_get_min; simpl
  | |- wp (set_min _) _ _ _ _ => apply wp_set_min; simpl
  | |- wp get_size _ _ _ _ => apply wp_get_size; simpl
  | |- wp (set_size _) _ _ _ _ => apply wp_set_size; simpl
  | |- wp (attr _) _ _ _ _ => apply wp_attr; simpl
  | |- wp (raise _) _ _ _ _ => apply wp_raise
  | |- wp stuck _ _ _ _ => apply wp_stuck
  end.

Ltac wp_step :=
  first
    [ wp_step1
    | lazymatch goal with
      | |- wp (if ?b then _ else _) _ _ _ _ => destruct b eqn:?
      | |- wp (match ?o with Some _ => _ | None => _ end) _ _ _ _ => destruct o eqn:?
      end ].

Ltac wp_steps := repeat wp_step1.

(** ** The order on priorities *)

Lemma prio_le_refl a : prio_le a a.
Proof. destruct a; simpl; [done|]. unfold prio_le. simpl. apply Z.ltb_irrefl. Qed.

Lemma prio_le_trans a b c : prio_le a b → prio_le b c → prio_le a c.
Proof.
  unfold prio_le. destruct a, b, c; simpl; try done.
  rewrite !Z.ltb_ge. lia.
Qed.

Lemma prio_lt_le a b : prio_ltb a b = true → prio_le a b.
Proof.
  unfold prio_le. destruct a, b; simpl; try done.
  rewrite Z.ltb_lt, Z.ltb_ge. lia.
Qed.

Lemma prio_le_lt_trans a b c : prio_le a b → prio_ltb b c = true → prio_ltb a c = true.
Proof.
  unfold prio_le. destruct a, b, c; simpl; try done.
  rewrite Z.ltb_ge, !Z.ltb_lt. lia.
Qed.

Lemma prio_lt_le_trans a b c : prio_ltb a b = true → prio_le b c → prio_ltb a c = true.
Proof.
  unfold prio_le. destruct a, b, c; simpl; try done.
  rewrite Z.ltb_ge, !Z.ltb_lt. lia.
Qed.

Lemma prio_ltb_irrefl a : prio_ltb a a = false.
Proof. destruct a; simpl; [done|]. apply Z.ltb_irrefl. Qed.

Lemma prio_le_antisym a b : prio_le a b → prio_le b a → a = b.
Proof.
  unfold prio_le. destruct a, b; simpl; try done.
  rewrite !Z.ltb_ge. intros. f_equal. lia.
Qed.

Lemma prio_le_NegInf a : prio_le NegInf a.
Proof. by destruct a. Qed.

Lemma prio_min_l a b : prio_le (prio_min a b) a.
Proof.
  unfold prio_min. destruct (prio_ltb b a) eqn:H.
  - by apply prio_lt_le.
  - apply prio_le_refl.
Qed.

Lemma prio_min_r a b : prio_le (prio_min a b) b.
Proof.
  unfold prio_min. destruct (prio_ltb b a) eqn:H; [apply prio_le_refl|done].
Qed.

(** ** Fibonacci numbers and the length of the array of [_consolidate] *)

Lemma fib_SS k : fib (S (S k)) = fib (S k) + fib k.
Proof. unfold fib. simpl. destruct (fib_pair k) as [a b]. simpl. lia. Qed.

Lemma fib_0 : fib 0 = 0.
Proof. done. Qed.

Lemma fib_1 : fib 1 = 1.
Proof. done. Qed.

Lemma fib_nonneg k : 0 ≤ fib k ∧ 0 ≤ fib (S k).
Proof.
  induction k as [|k [IH1 IH2]]; [by rewrite fib_0, fib_1|].
  rewrite fib_SS. lia.
Qed.

Lemma fib_pos k : 0 < fib (S k).
Proof.
  induction k as [|k IH]; [by rewrite fib_1|].
  rewrite fib_SS. pose proof (fib_nonneg k). lia.
Qed.

Lemma fib_mono_S k : fib k ≤ fib (S k).
Proof.
  destruct k as [|k]; [by rewrite fib_0, fib_1|].
  rewrite fib_SS. pose proof (fib_nonneg k). lia.
Qed.

Lemma fib_mono j k : (j ≤ k)%nat → fib j ≤ fib k.
Proof.
  induction 1 as [|k _ IH]; [lia|]. pose proof (fib_mono_S k). lia.
Qed.

Lemma fib_ge k : Z.of_nat k < fib (k + 2).
Proof.
  induction k as [|k IH]; [done|].
  replace (S k + 2)%nat with (S (S (S k))) by lia.
  rewrite fib_SS. replace (S (S k)) with (k + 2)%nat by lia.
  pose proof (fib_pos k). lia.
Qed.

(** [phi^j < n] as soon as [fib (j + 2) < n] *)
Lemma phi_pow_lt j n :
  fib (j + 2) < n → phi_pow_ge (2 * fib (S j) - fib j) (fib j) n = false.
Proof.
  replace (j + 2)%nat with (S (S j)) by lia. rewrite fib_SS. intros Hn.
  pose proof (fib_nonneg j) as [Hj _].
  unfold phi_pow_ge. apply orb_false_intro; apply Z.leb_gt; [lia|nia].
Qed.

Lemma ceil_log_from_ge d : ∀ j fuel n,
  (d ≤ fuel)%nat → fib (j + d + 1) < n →
  (d ≤ ceil_log_from fuel (2 * fib (S j) - fib j) (fib j) n)%nat.
Proof.
  induction d as [|d IH]; intros j fuel n Hf Hn; [lia|].
  destruct fuel as [|f]; [lia|]. simpl.
  rewrite phi_pow_lt.
  - apply le_n_S.
    replace ((2 * fib (S j) - fib j + 5 * fib j) / 2)
      with (2 * fib (S (S j)) - fib (S j)).
    2:{ rewrite fib_SS. apply Z.div_unique_exact; lia. }
    replace ((2 * fib (S j) - fib j + fib j) / 2) with (fib (S j)).
    2:{ apply Z.div_unique_exact; lia. }
    apply IH; [lia|]. by replace (S j + d + 1)%nat with (j + S d + 1)%nat by lia.
  - pose proof (fib_mono (j + 2) (j + S d + 1)). lia.
Qed.

(** a tree of degree [d] fits into an array made for more than
    [fib (d + 2)] nodes *)
Lemma ceil_log_phi_gt (d : nat) n : fib (d + 2) < n → (d < ceil_log_phi n)%nat.
Proof.
  intros Hn. unfold ceil_log_phi.
  apply (ceil_log_from_ge (S d) 0 (Z.to_nat n) n).
  - pose proof (fib_ge d). lia.
  - by replace (0 + S d + 1)%nat with (d + 2)%nat by lia.
Qed.

(** ** Rings *)

Lemma default_last_in (a : ref) (l : list ref) : default a (last l) ∈ a :: l.
Proof.
  destruct (last l) as [x|] eqn:Hl; simpl; [|set_solver].
  apply last_Some in Hl as [l' ->]. set_solver.
Qed.

Section ring_lemmas.
Context (Rt Lt : ref → ref).
Implicit Types (a b c x y : ref) (l : list ref).

Lemma path_app a l1 c l2 b :
    path Rt Lt a (l1 ++ c :: l2) b ↔ path Rt Lt a l1 c ∧ path Rt Lt c l2 b.
  Proof.
    revert a. induction l1 as [|d l1 IH]; intros a; simpl; [tauto|].
    rewrite IH. tauto.
  Qed.

Lemma ring_rotate l1 l2 : ring Rt Lt (l1 ++ l2) → ring Rt Lt (l2 ++ l1).
  Proof.
    destruct l2 as [|b l2]; [by rewrite app_nil_r|].
    destruct l1 as [|a l1]; [by rewrite app_nil_r|].
    simpl. rewrite !path_app. tauto.
  Qed.

Lemma ring_singleton a : ring Rt Lt [a] ↔ Rt a = a ∧ Lt a = a.
  Proof. done. Qed.

Lemma path_right_in a l b x : path Rt Lt a l b → x ∈ a :: l → Rt x ∈ l ++ [b].
  Proof.
    revert a. induction l as [|c l IH]; intros a Hp Hx; simpl in *.
    - destruct Hp as [<- _]. set_solver.
    - destruct Hp as (Hac & _ & Hp).
      apply elem_of_cons in Hx as [->|Hx]; [set_solver|].
      specialize (IH c Hp Hx). set_solver.
  Qed.

Lemma path_left_in a l b x : path Rt Lt a l b → x ∈ l ++ [b] → Lt x ∈ a :: l.
  Proof.
    revert a. induction l as [|c l IH]; intros a Hp Hx; simpl in *.
    - destruct Hp as [_ <-]. set_solver.
    - destruct Hp as (_ & Hca & Hp).
      apply elem_of_cons in Hx as [->|Hx]; [set_solver|].
      specialize (IH c Hp Hx). set_solver.
  Qed.

Lemma ring_right_in l x : ring Rt Lt l → x ∈ l → Rt x ∈ l.
  Proof.
    destruct l as [|a l]; [by intros _ ?%elem_of_nil|]. intros Hp Hx.
    pose proof (path_right_in _ _ _ _ Hp Hx). set_solver.
  Qed.

Lemma ring_left_in l x : ring Rt Lt l → x ∈ l → Lt x ∈ l.
  Proof.
    destruct l as [|a l]; [by intros _ ?%elem_of_nil|]. intros Hp Hx.
    apply (path_left_in _ _ _ x) in Hp; set_solver.
  Qed.

  (** in a ring without repetition, only a lone node is its own right
      neighbour *)
Lemma ring_self_loop a l :
    NoDup (a :: l) → ring Rt Lt (a :: l) → Rt a = a → l = [].
  Proof.
    intros Hnd Hp Ha. destruct l as [|b l]; [done|].
    destruct Hp as (Hab & _). apply NoDup_cons in Hnd as [Hn _].
    exfalso. apply Hn. rewrite <-Hab, Ha. set_solver.
  Qed.

  (** the last link of a path *)
Lemma path_last a l b :
    path Rt Lt a l b → Rt (default a (last l)) = b ∧ Lt b = default a (last l).
  Proof.
    revert a. induction l as [|c l IH]; intros a Hp; simpl in *; [done|].
    destruct Hp as (_ & _ & Hp). apply IH in Hp.
    rewrite last_cons. by destruct (last l).
  Qed.

Lemma ring_rotate_to l x :
    x ∈ l → ring Rt Lt l → ∃ l', (x :: l') ≡ₚ l ∧ ring Rt Lt (x :: l').
  Proof.
    intros (l1 & l2 & ->)%list_elem_of_split Hr.
    exists (l2 ++ l1). split.
    - by rewrite (Permutation_app_comm l1), app_comm_cons.
    - apply (ring_rotate l1 (x :: l2)), Hr.
  Qed.
End ring_lemmas.

Section ring_updates.
Context (Rt Lt Rt' Lt' : ref → ref).
Implicit Types (a b c x y : ref) (l : list ref).

  (** a path depends on the right links of [a :: l] and on the left links
      of [l ++ [b]] *)
Lemma path_frame a l b :
    path Rt Lt a l b →
    (∀ x, x ∈ a :: l → Rt' x = Rt x) →
    (∀ x, x ∈ l ++ [b] → Lt' x = Lt x) →
    path Rt' Lt' a l b.
  Proof.
    revert a. induction l as [|c l IH]; intros a Hp HR HL; simpl in *.
    - rewrite HR, HL by set_solver. done.
    - destruct Hp as (Hac & Hca & Hp).
      rewrite HR, HL by set_solver. split_and!; [done..|].
      apply IH; [done|intros; apply HR|intros; apply HL]; set_solver.
  Qed.

Lemma ring_frame l :
    ring Rt Lt l →
    (∀ x, x ∈ l → Rt' x = Rt x ∧ Lt' x = Lt x) →
    ring Rt' Lt' l.
  Proof.
    destruct l as [|a l]; [done|]. simpl. intros Hp H.
    apply path_frame; [done|intros; apply H|intros; apply H]; set_solver.
  Qed.

  (** redirect the end of a path *)
Lemma path_retarget a l b b' :
    NoDup (a :: l) →
    path Rt Lt a l b →
    (∀ x, x ∈ a :: l → x ≠ default a (last l) → Rt' x = Rt x) →
    (∀ x, x ∈ l → Lt' x = Lt x) →
    Rt' (default a (last l)) = b' → Lt' b' = default a (last l) →
    path Rt' Lt' a l b'.
  Proof.
    revert a. induction l as [|c l IH]; intros a Hnd Hp HR HL Hr Hl; simpl in *.
    - done.
    - destruct Hp as (Hac & Hca & Hp). rewrite last_cons in *.
      apply NoDup_cons in Hnd as [Hna Hnd].
      assert (a ≠ default c (last l)) as Hne.
      { intros ->. apply Hna. apply default_last_in. }
      assert (default a (match last l with Some y => Some y | None => Some c end)
              = default c (last l)) as Heq by (by destruct (last l)).
      rewrite Heq in *.
      rewrite HR, HL by set_solver. split_and!; [done..|].
      apply IH; try done.
      + intros x Hx Hxe. apply HR; set_solver.
      + intros x Hx. apply HL; set_solver.
  Qed.

  (** [y] is spliced in right after [a] *)
Lemma ring_insert_after a y l :
    NoDup (a :: l) → y ∉ a :: l → ring Rt Lt (a :: l) →
    Rt' y = Rt a → Rt' a = y → (∀ r, r ≠ y → r ≠ a → Rt' r = Rt r) →
    Lt' y = a → Lt' (Rt a) = y → (∀ r, r ≠ y → r ≠ Rt a → Lt' r = Lt r) →
    ring Rt' Lt' (a :: y :: l).
  Proof.
    intros Hnd Hy Hr HRy HRa HR HLy HLt HL. simpl in *.
    apply NoDup_cons in Hnd as [Ha Hnd].
    destruct l as [|b l]; simpl in *.
    - destruct Hr as [Hr Hl]. rewrite Hr in *. done.
    - destruct Hr as (Hab & Hba & Hp). rewrite Hab in *.
      apply NoDup_cons in Hnd as [Hb Hnd].
      split_and!; [done..|].
      apply (path_frame b l a Hp).
      + intros x Hx. apply HR; set_solver.
      + intros x Hx. apply HL; set_solver.
  Qed.

  (** the head [a] of a ring of at least two nodes is unlinked *)
Lemma ring_remove_head a b l :
    NoDup (a :: b :: l) → ring Rt Lt (a :: b :: l) →
    Rt' (Lt a) = Rt a → (∀ r, r ≠ Lt a → r ≠ a → Rt' r = Rt r) →
    Lt' (Rt a) = Lt a → (∀ r, r ≠ Rt a → r ≠ a → Lt' r = Lt r) →
    ring Rt' Lt' (b :: l).
  Proof.
    intros Hnd Hr HRl HR HLr HL. simpl in *.
    destruct Hr as (Hab & Hba & Hp). rewrite Hab in *.
    apply NoDup_cons in Hnd as [Ha Hnd].
    pose proof (path_last _ _ _ _ _ Hp) as [Hlast1 Hlast2].
    rewrite Hlast2 in *.
    pose proof (NoDup_cons_1_1 _ _ Hnd) as Hb.
    apply (path_retarget b l a b Hnd Hp); try done.
    - intros x Hx Hxe. apply HR; set_solver.
    - intros x Hx. apply HL; set_solver.
  Qed.

  (** the ring [b :: c :: l2] is spliced into the ring [a :: l1] between
      [a] and its right neighbour *)
Lemma ring_splice a l1 b c l2 :
    NoDup ((a :: l1) ++ b :: c :: l2) →
    ring Rt Lt (a :: l1) → ring Rt Lt (b :: c :: l2) →
    Rt' a = c → Rt' b = Rt a → (∀ r, r ≠ a → r ≠ b → Rt' r = Rt r) →
    Lt' c = a → Lt' (Rt a) = b → (∀ r, r ≠ c → r ≠ Rt a → Lt' r = Lt r) →
    ring Rt' Lt' (a :: c :: l2 ++ b :: l1).
  Proof.
    intros Hnd Hr1 Hr2 HRa HRb HR HLc HLr HL. simpl in *.
    destruct Hr2 as (Hbc & Hcb & Hp2).
    apply NoDup_cons in Hnd as [Ha Hnd].
    apply NoDup_app in Hnd as (Hnd1 & Hdisj & Hnd2).
    apply NoDup_cons in Hnd2 as [Hb Hnd2].
    apply NoDup_cons in Hnd2 as [Hc Hnd2].
    split_and!; [done..|].
    apply path_app. split.
    - apply (path_frame c l2 b Hp2).
      + intros x Hx. apply HR; set_solver.
      + intros x Hx. apply HL.
        * set_solver.
        * destruct l1 as [|d l1]; simpl in *.
          -- destruct Hr1 as [-> _]. set_solver.
          -- destruct Hr1 as (-> & _). set_solver.
    - destruct l1 as [|d l1]; simpl in *.
      + destruct Hr1 as [Hr1 _]. rewrite Hr1 in *. done.
      + destruct Hr1 as (Had & Hda & Hp1). rewrite Had in *.
        apply NoDup_cons in Hnd1 as [Hd Hnd1].
        split_and!; [done..|].
        apply (path_frame d l1 a Hp1).
        * intros x Hx. apply HR; set_solver.
        * intros x Hx. apply HL; set_solver.
  Qed.
End ring_updates.

Lemma ring_next (Rt Lt : ref → ref) l1 x rem :
  ring Rt Lt (l1 ++ x :: rem) → Rt x = hd (hd x l1) rem.
Proof.
  intros Hr. apply (ring_rotate _ _ l1 (x :: rem)) in Hr. simpl in Hr.
  destruct rem as [|y rem]; simpl in *; [|tauto].
  destruct l1 as [|a l1]; simpl in *; tauto.
Qed.

(** ** Field updates *)

Lemma lookup_total_snoc (m : list Element) e r :
  (m ++ [e]) !!! r =
    if decide (r = length m) then e
    else if decide (r < length m)%nat then m !!! r else inhabitant.
Proof.
  repeat case_decide; subst.
  - rewrite lookup_total_app_r by lia. by rewrite Nat.sub_diag.
  - by rewrite lookup_total_app_l.
  - rewrite !list_lookup_total_alt, lookup_ge_None_2; [done|].
    rewrite length_app. simpl. lia.
Qed.

Ltac mem_simpl :=
  repeat first
    [ rewrite upd_length
    | progress fld_simpl
    | rewrite upd_lookup_ne by congruence
    | rewrite upd_lookup_eq by (rewrite ?upd_length; first [assumption | lia])
    | rewrite upd_lookup by (rewrite ?upd_length; first [assumption | lia]) ].

Ltac mem_cases :=
  mem_simpl; repeat (case_decide; subst; simpl in *; try done; try lia).


Lemma Element_eta e :
  mkElement (obj e) (priority e) (left e) (right e) (child e) (parent e)
    (degree e) (mark e) = e.
Proof. by destruct e. Qed.

Lemma wp_ddl_insert head y w (Q : unit → world → Prop) E S :
  (head < length (mem w))%nat → (y < length (mem w))%nat →
  (right (mem w !!! head) < length (mem w))%nat →
  (∀ m', length m' = length (mem w) →
         (∀ r, m' !!! r = ddl_insert_at (mem w) head y r) →
         Q tt (World m' (self w))) →
  wp (Fib._doublylinkedlist_insert (Some head) y) w Q E S.
Proof.
  intros Hh Hy Ht HQ. unfold Fib._doublylinkedlist_insert.
  repeat wp_step. apply HQ; [by mem_simpl|].
  intros r. unfold ddl_insert_at. mem_simpl.
  unfold set_left, set_right.
  repeat (case_decide; subst; simpl; try done);
    first [by rewrite Element_eta | congruence].
Qed.



Ltac elem_eq :=
  unfold set_left, set_right, set_parent, set_child, set_degree, set_mark,
    set_priority;
  repeat (case_decide; subst; simpl in *; try done);
  first [by rewrite Element_eta | congruence
        | f_equal; congruence
        | repeat match goal with
                 | |- context [?m !!! ?r] => destruct (m !!! r) eqn:?
                 end; simpl in *; congruence ].

Lemma wp_insert_to_root_list_Some elem head w (Q : unit → world → Prop) E S :
  _min (self w) = Some head →
  (elem < length (mem w))%nat → (head < length (mem w))%nat →
  (right (mem w !!! head) < length (mem w))%nat →
  (∀ m', length m' = length (mem w) →
         (∀ r, m' !!! r = root_insert_at (mem w) head elem r) →
         Q tt (World m' (self w))) →
  wp (Fib._insert_to_root_list elem) w Q E S.
Proof.
  intros Hmin He Hh Ht HQ. unfold Fib._insert_to_root_list.
  wp_steps.
  case_decide as Hp.
  - wp_steps. rewrite Hmin.
    apply wp_ddl_insert; simpl; mem_simpl; try done.
    intros m' Hlen Hm'. apply HQ; [by rewrite Hlen; mem_simpl|].
    intros r. rewrite Hm'. unfold root_insert_at, ddl_insert_at. mem_simpl.
    elem_eq.
  - wp_steps. rewrite Hmin.
    apply wp_ddl_insert; simpl; try done.
    intros m' Hlen Hm'. apply HQ; [done|].
    intros r. rewrite Hm'. unfold root_insert_at, ddl_insert_at.
    assert (parent (mem w !!! elem) = None) as Hpe.
    { by destruct (parent (mem w !!! elem)); [destruct Hp|]. }
    elem_eq.
Qed.

Lemma wp_insert_to_root_list_None elem w (Q : unit → world → Prop) E S :
  _min (self w) = None →
  (elem < length (mem w))%nat →
  (∀ m', length m' = length (mem w) →
         (∀ r, m' !!! r = clear_parent_at (mem w) elem r) →
         Q tt (World m' (mkHeap (_size (self w)) (Some elem)))) →
  wp (Fib._insert_to_root_list elem) w Q E S.
Proof.
  intros Hmin He HQ. unfold Fib._insert_to_root_list.
  wp_steps.
  case_decide as Hp.
  - wp_steps. rewrite Hmin. wp_steps.
    apply HQ; [by mem_simpl|].
    intros r. unfold clear_parent_at. mem_simpl. elem_eq.
  - wp_steps. rewrite Hmin. wp_steps.
    apply HQ; [done|].
    intros r. unfold clear_parent_at.
    assert (parent (mem w !!! elem) = None) as Hpe.
    { by destruct (parent (mem w !!! elem)); [destruct Hp|]. }
    elem_eq.
Qed.

(** ** [_cut] on the arena *)

Lemma wp_cut x y head w (Q : unit → world → Prop) E S :
  parent (mem w !!! x) = Some y → _min (self w) = Some head →
  (x < length (mem w))%nat → (y < length (mem w))%nat →
  (head < length (mem w))%nat →
  (right (mem w !!! x) < length (mem w))%nat →
  (left (mem w !!! x) < length (mem w))%nat →
  (right (mem w !!! head) < length (mem w))%nat →
  (∀ m1 m2 m',
     length m1 = length (mem w) → length m2 = length (mem w) →
     length m' = length (mem w) →
     (∀ r, m1 !!! r = unlink_at (mem w) x y r) →
     (∀ r, m2 !!! r = root_insert_at m1 head x r) →
     (∀ r, m' !!! r = cut_finish_at m2 x y r) →
     Q tt (World m' (self w))) →
  wp (Fib._cut x y) w Q E S.
Proof.
  intros Hp Hmin Hx Hy Hh Hxr Hxl Hhr HQ. unfold Fib._cut.
  wp_steps. rewrite Hp. rewrite decide_False by (by intros []).
  wp_steps.
  assert (∀ m1, length m1 = length (mem w) →
            (∀ r, m1 !!! r = unlink_at (mem w) x y r) →
            wp (Fib._insert_to_root_list x) (World m1 (self w))
               (λ _ w', wp (rd degree y ≫= λ d, modify y (set_degree (d - 1)) ≫= λ _,
                            modify x (set_mark false)) w' Q E S) E S) as Hrest.
  { intros m1 Hlen1 Hm1.
    apply (wp_insert_to_root_list_Some x head); simpl; rewrite ?Hlen1; try done.
    { rewrite Hm1. unfold unlink_at. repeat case_decide; simpl; done. }
    intros m2 Hlen2 Hm2. simpl in Hlen2. rewrite ?Hlen1 in Hlen2.
    wp_steps.
    apply (HQ m1 m2); try done; [by mem_simpl|].
    intros r. unfold cut_finish_at. mem_simpl. elem_eq. }
  case_decide as Hself.
  - wp_steps. apply Hrest; [by mem_simpl|].
    intros r. unfold unlink_at. rewrite decide_True by done. mem_simpl.
    by case_decide; subst.
  - wp_steps. mem_simpl. wp_steps.
    apply Hrest; [by mem_simpl|].
    intros r. unfold unlink_at. rewrite decide_False by done. mem_simpl.
    elem_eq.
Qed.

Lemma cut_data (m m1 m2 m' : list Element) x y head :
  (∀ r, m1 !!! r = unlink_at m x y r) →
  (∀ r, m2 !!! r = root_insert_at m1 head x r) →
  (∀ r, m' !!! r = cut_finish_at m2 x y r) →
  ∀ r,
    parent (m' !!! r) =
      (if decide (r = x) then None
       else if decide (r = right (m !!! x) ∧ right (m !!! x) ≠ x) then Some y
       else parent (m !!! r)) ∧
    mark (m' !!! r) = (if decide (r = x) then false else mark (m !!! r)) ∧
    priority (m' !!! r) = priority (m !!! r) ∧
    obj (m' !!! r) = obj (m !!! r) ∧
    degree (m' !!! r) =
      (if decide (r = y) then degree (m !!! y) - 1 else degree (m !!! r)) ∧
    child (m' !!! r) =
      (if decide (r = y) then
         if decide (right (m !!! x) = x) then None else Some (right (m !!! x))
       else child (m !!! r)).
Proof.
  intros H1 H2 H3 r. rewrite H3. unfold cut_finish_at. simpl.
  rewrite !H2. unfold root_insert_at, ddl_insert_at. simpl.
  rewrite !H1. unfold unlink_at.
  split_and!; repeat (case_decide; simpl; subst; try done); tauto.
Qed.

Lemma cut_closed (m m1 m2 m' : list Element) x y head :
  closed m → (x < length m)%nat → (y < length m)%nat → (head < length m)%nat →
  length m' = length m →
  (∀ r, m1 !!! r = unlink_at m x y r) →
  (∀ r, m2 !!! r = root_insert_at m1 head x r) →
  (∀ r, m' !!! r = cut_finish_at m2 x y r) →
  closed m'.
Proof.
  intros Hcl Hx Hy Hh Hlen H1 H2 H3 r Hr. rewrite Hlen in *.
  destruct (cut_data _ _ _ _ _ _ _ H1 H2 H3 r) as (Hpar & _ & _ & _ & _ & Hch).
  rewrite Hpar, Hch. clear Hpar Hch.
  pose proof (Hcl r Hr) as (Hl & Hrr & Hc & Hp).
  pose proof (Hcl x Hx) as (Hxl & Hxr & _ & _).
  pose proof (Hcl head Hh) as (_ & Hhr & _ & _).
  rewrite H3. unfold cut_finish_at. simpl.
  rewrite !H2. unfold root_insert_at, ddl_insert_at. simpl.
  rewrite !H1. unfold unlink_at.
  split_and!.
  - repeat (case_decide; simpl; subst; try done).
  - repeat (case_decide; simpl; subst; try done).
  - intros c. repeat case_decide; try done; [by intros [= <-]|apply Hc].
  - intros p. repeat case_decide; try done; [by intros [= <-]|apply Hp].
Qed.

(** ** Counting marks *)

Lemma count_marked_ext (m m' : list Element) :
  length m' = length m →
  (∀ r, (r < length m)%nat → mark (m' !!! r) = mark (m !!! r)) →
  count_marked m' = count_marked m.
Proof.
  revert m'. induction m as [|e m IH]; intros [|e' m'] Hlen H; simpl in *; try done.
  rewrite (IH m'); [|lia|].
  - specialize (H 0%nat ltac:(lia)). simpl in H. by rewrite H.
  - intros r Hr. apply (H (S r)). lia.
Qed.

Lemma count_marked_clear (m m' : list Element) x :
  length m' = length m → (x < length m)%nat → mark (m !!! x) = true →
  (∀ r, mark (m' !!! r) = if decide (r = x) then false else mark (m !!! r)) →
  S (count_marked m') = count_marked m.
Proof.
  revert m' x. induction m as [|e m IH]; intros [|e' m'] x Hlen Hx Hmx H;
    simpl in *; try lia.
  destruct x as [|x].
  - simpl in Hmx. rewrite Hmx. pose proof (H 0%nat) as H0. simpl in H0.
    rewrite H0. simpl. f_equal. apply count_marked_ext; [lia|].
    intros r Hr. apply (H (S r)).
  - pose proof (H 0%nat) as H0. simpl in H0. rewrite H0.
    rewrite <-(IH m' x); [lia|lia|lia|done|].
    intros r. specialize (H (S r)). simpl in H. rewrite H.
    by repeat case_decide; simplify_eq.
Qed.

Lemma count_marked_le m : (count_marked m ≤ length m)%nat.
Proof. induction m as [|e m IH]; simpl; [done|]. destruct (mark e); lia. Qed.

(** ** [_cascading_cut] and [decrease_key] on a closed arena *)


Lemma wp_cascading_cut_closed fuel y head w :
  closed (mem w) → _min (self w) = Some head →
  (head < length (mem w))%nat → (y < length (mem w))%nat →
  (count_marked (mem w) < fuel)%nat →
  wp (Fib._cascading_cut fuel y) w
    (λ _ w', closed (mem w') ∧ same_data (mem w) (mem w') ∧ self w' = self w ∧
             (unmarked_roots (mem w) → unmarked_roots (mem w')))
    noexn False.
Proof.
  revert y w. induction fuel as [|fuel IH]; intros y w Hcl Hmin Hh Hy Hfuel; [lia|].
  simpl. wp_steps.
  pose proof (Hcl y Hy) as (Hyl & Hyr & _ & Hyp).
  pose proof (Hcl head Hh) as (_ & Hhr & _ & _).
  destruct (parent (mem w !!! y)) as [z|] eqn:Hpar.
  2:{ wp_steps. by split_and!. }
  specialize (Hyp z eq_refl).
  wp_steps. destruct (mark (mem w !!! y)) eqn:Hmk; simpl.
  - wp_step1. apply (wp_cut y z head); try done.
    intros m1 m2 m' Hl1 Hl2 Hl' H1 H2 H3.
    pose proof (cut_data _ _ _ _ _ _ _ H1 H2 H3) as Hdata.
    pose proof (cut_closed _ _ _ _ _ _ _ Hcl Hy Hyp Hh Hl' H1 H2 H3) as Hcl'.
    eapply wp_mono; [apply IH; simpl; rewrite ?Hl'; try done|simpl|done..].
    + assert (S (count_marked m') = count_marked (mem w)); [|lia].
      apply (count_marked_clear _ _ y); try done.
      intros r. by destruct (Hdata r) as (_ & -> & _).
    + intros _ w' (Hcl'' & [Hlen Hsame] & Hself & Hum).
      split_and!; try done.
      * split; [by rewrite Hlen|]. intros r.
        destruct (Hsame r) as [-> ->]. by destruct (Hdata r) as (_ & _ & -> & -> & _).
      * intros Hum0. apply Hum. intros r Hr Hrp.
        destruct (Hdata r) as (Hp' & Hm' & _). rewrite Hm'. rewrite Hp' in Hrp.
        repeat case_decide; try done; (apply Hum0; [by rewrite <-Hl'|done]).
  - wp_steps. split_and!; try done.
    + intros r Hr. rewrite upd_length in Hr. mem_simpl.
      pose proof (Hcl r Hr) as (? & ? & ? & ?). done.
    + split; [by mem_simpl|]. intros r. by mem_simpl.
    + intros Hum r Hr. rewrite upd_length in Hr. mem_simpl.
      intros Hrp. case_decide; subst; simpl; [congruence|by apply Hum].
Qed.

Lemma wp_decrease_key_closed fuel x p head w :
  closed (mem w) → _min (self w) = Some head →
  (head < length (mem w))%nat → (x < length (mem w))%nat →
  (count_marked (mem w) < fuel)%nat →
  wp (Fib.decrease_key fuel x p) w
    (λ _ w', prio_ltb p (priority (mem w !!! x)) = true ∧
             closed (mem w') ∧ length (mem w') = length (mem w) ∧
             _size (self w') = _size (self w) ∧
             (_min (self w') = Some head ∨ _min (self w') = Some x) ∧
             (∀ r, priority (mem w' !!! r) =
                   if decide (r = x) then p else priority (mem w !!! r)) ∧
             (∀ r, obj (mem w' !!! r) = obj (mem w !!! r)) ∧
             (unmarked_roots (mem w) → unmarked_roots (mem w')))
    (λ e w', e = guard_error p (priority (mem w !!! x)) ∧ w' = w ∧
             prio_ltb p (priority (mem w !!! x)) = false)
    False.
Proof.
  intros Hcl Hmin Hh Hx Hfuel. unfold Fib.decrease_key. wp_steps.
  destruct (prio_ltb p (priority (mem w !!! x))) eqn:Hlt; simpl;
    [|by apply wp_guard].
  wp_steps.
  set (m1 := upd (mem w) x (set_priority p)).
  assert (length m1 = length (mem w)) as Hl1 by (unfold m1; by mem_simpl).
  assert (closed m1) as Hcl1.
  { intros r Hr. rewrite Hl1 in *. unfold m1. mem_simpl. by apply Hcl. }
  assert (count_marked m1 = count_marked (mem w)) as Hcm1.
  { apply count_marked_ext; [done|]. intros r _. unfold m1. by mem_simpl. }
  assert (unmarked_roots (mem w) → unmarked_roots m1) as Hum1.
  { intros Hum r Hr. rewrite Hl1 in Hr. unfold m1. mem_simpl. by apply Hum. }
  assert (∀ r, priority (m1 !!! r) = if decide (r = x) then p else priority (mem w !!! r))
    as Hpr1.
  { intros r. unfold m1. mem_simpl. by case_decide; subst. }
  assert (∀ r, obj (m1 !!! r) = obj (mem w !!! r)) as Hob1.
  { intros r. unfold m1. by mem_simpl. }
  assert (parent (m1 !!! x) = parent (mem w !!! x)) as Hpx by (unfold m1; by mem_simpl).
  clearbody m1.
  (* the last step: update of the minimum *)
  assert (∀ w1, closed (mem w1) → length (mem w1) = length (mem w) →
            self w1 = self w →
            (∀ r, priority (mem w1 !!! r) =
                  if decide (r = x) then p else priority (mem w !!! r)) →
            (∀ r, obj (mem w1 !!! r) = obj (mem w !!! r)) →
            (unmarked_roots (mem w) → unmarked_roots (mem w1)) →
            wp (rd priority x ≫= λ px, get_min ≫= λ m, attr m ≫= λ m,
                rd priority m ≫= λ pm,
                if prio_ltb px pm then set_min (Some x) else mret ()) w1
              (λ _ w', true = true ∧ closed (mem w') ∧
                 length (mem w') = length (mem w) ∧
                 _size (self w') = _size (self w) ∧
                 (_min (self w') = Some head ∨ _min (self w') = Some x) ∧
                 (∀ r, priority (mem w' !!! r) =
                       if decide (r = x) then p else priority (mem w !!! r)) ∧
                 (∀ r, obj (mem w' !!! r) = obj (mem w !!! r)) ∧
                 (unmarked_roots (mem w) → unmarked_roots (mem w')))
              (λ e w', e = guard_error p (priority (mem w !!! x)) ∧ w' = w ∧
                       true = false) False) as Hlast.
  { intros [mw sw] Hclw Hlw Hsw Hprw Hobw Humw. simpl in *. subst sw.
    wp_steps. rewrite Hmin. simpl. wp_steps.
    destruct (prio_ltb (priority (mw !!! x)) _); wp_steps; simpl;
      rewrite ?Hmin; split_and!; auto. }
  rewrite <-Hpx.
  destruct (parent (m1 !!! x)) as [y|] eqn:Hpar; [|apply wp_ret, Hlast; simpl; done].
  pose proof (Hcl1 x ltac:(lia)) as (Hxl & Hxr & _ & Hxp).
  specialize (Hxp y Hpar).
  pose proof (Hcl1 head ltac:(lia)) as (_ & Hhr & _ & _).
  wp_steps.
  destruct (prio_ltb (priority (m1 !!! x)) (priority (m1 !!! y))); [|apply wp_ret, Hlast; simpl; done].
  wp_step1. apply (wp_cut x y head); simpl; try done; try lia.
  intros m2 m3 m4 Hl2 Hl3 Hl4 He2 He3 He4. simpl in *.
  pose proof (cut_data _ _ _ _ _ _ _ He2 He3 He4) as Hdata.
  assert (closed m4) as Hcl4.
  { apply (cut_closed m1 m2 m3 m4 x y head); try done; lia. }
  eapply wp_mono;
    [apply (wp_cascading_cut_closed fuel y head); simpl; try done; try lia|simpl|done..].
  - assert (count_marked m4 ≤ count_marked m1)%nat; [|lia].
    destruct (mark (m1 !!! x)) eqn:Hmx.
    + assert (S (count_marked m4) = count_marked m1); [|lia].
      apply (count_marked_clear _ _ x); try done; try lia.
      intros r. by destruct (Hdata r) as (_ & -> & _).
    + rewrite (count_marked_ext m1 m4); [done|done|].
      intros r _. destruct (Hdata r) as (_ & -> & _).
      destruct (decide (r = x)) as [->|]; [by rewrite Hmx|done].
  - intros _ [m5 s5] (Hcl5 & [Hl5 Hsame5] & Hs5 & Hum5). simpl in *. subst s5.
    apply Hlast; simpl; try done; try lia.
    + intros r. destruct (Hsame5 r) as [-> _].
      destruct (Hdata r) as (_ & _ & -> & _). apply Hpr1.
    + intros r. destruct (Hsame5 r) as [_ ->].
      destruct (Hdata r) as (_ & _ & _ & -> & _). apply Hob1.
    + intros Hum. apply Hum5. intros r Hr Hrp.
      destruct (Hdata r) as (Hp' & Hm' & _). rewrite Hm'. rewrite Hp' in Hrp.
      repeat case_decide; try done; (apply Hum1; [done|lia|done]).
Qed.

(** ** [_remove_from_root_list] and [_heap_link] on the arena *)

Lemma wp_remove_last z w (Q : unit → world → Prop) E S :
  (z < length (mem w))%nat → parent (mem w !!! z) = None →
  right (mem w !!! z) = z →
  Q tt (World (mem w) (mkHeap (_size (self w)) None)) →
  wp (Fib._remove_from_root_list z) w Q E S.
Proof.
  intros Hz Hp Hr HQ. unfold Fib._remove_from_root_list.
  wp_steps. rewrite Hp. rewrite decide_False by (by intros []).
  wp_steps. rewrite Hr. rewrite decide_True by done. by wp_steps.
Qed.

Lemma wp_remove_from_root_list z w (Q : unit → world → Prop) E S :
  (z < length (mem w))%nat → parent (mem w !!! z) = None →
  right (mem w !!! z) ≠ z → left (mem w !!! z) ≠ z →
  (right (mem w !!! z) < length (mem w))%nat →
  (left (mem w !!! z) < length (mem w))%nat →
  (∀ m', length m' = length (mem w) →
         (∀ r, m' !!! r = remove_at (mem w) z r) →
         Q tt (World m' (mkHeap (_size (self w))
                           (if decide (_min (self w) = Some z)
                            then Some (right (mem w !!! z)) else _min (self w))))) →
  wp (Fib._remove_from_root_list z) w Q E S.
Proof.
  intros Hz Hp Hr Hl Hzr Hzl HQ. unfold Fib._remove_from_root_list.
  wp_steps. rewrite Hp. rewrite decide_False by (by intros []).
  wp_steps. rewrite decide_False by done. wp_steps.
  assert (∀ s, (∀ m', length m' = length (mem w) →
                 (∀ r, m' !!! r = remove_at (mem w) z r) → Q tt (World m' s)) →
     wp (rd right z ≫= λ zr, rd left z ≫= λ zl, modify zl (set_right zr) ≫= λ _,
         rd left z ≫= λ zl, rd right z ≫= λ zr, modify zr (set_left zl) ≫= λ _,
         modify z (set_left z) ≫= λ _, modify z (set_right z))
       (World (mem w) s) Q E S) as Hrest.
  { intros s HQ'. wp_steps. mem_simpl. wp_steps. mem_simpl. wp_steps.
    apply HQ'; [by mem_simpl|].
    intros r. unfold remove_at. mem_simpl. elem_eq. }
  destruct w as [m [sz mn]]. simpl in *.
  case_decide as Hmin.
  - do 3 wp_step1. apply Hrest. intros m' Hlen Hm'. by apply HQ.
  - wp_step1. apply Hrest. intros m' Hlen Hm'. by apply HQ.
Qed.

Lemma wp_heap_link y x w (Q : unit → world → Prop) E S :
  (y < length (mem w))%nat → (x < length (mem w))%nat → x ≠ y →
  (∀ c, child (mem w !!! x) = Some c →
        (c < length (mem w))%nat ∧ (right (mem w !!! c) < length (mem w))%nat) →
  (∀ m', length m' = length (mem w) →
         (∀ r, m' !!! r = link_at (mem w) y x r) →
         Q tt (World m' (self w))) →
  wp (Fib._heap_link y x) w Q E S.
Proof.
  intros Hy Hx Hxy Hc HQ. unfold Fib._heap_link. wp_steps.
  destruct (child (mem w !!! x)) as [c|] eqn:Hch.
  - destruct (Hc c eq_refl) as [Hcl Hcr].
    apply wp_ddl_insert; try done.
    intros m1 Hl1 Hm1. wp_steps.
    apply HQ; [by mem_simpl|].
    intros r. unfold link_at. rewrite Hch. mem_simpl. rewrite !Hm1.
    unfold ddl_insert_at. elem_eq.
  - wp_steps. apply HQ; [by mem_simpl|].
    intros r. unfold link_at. rewrite Hch. mem_simpl. elem_eq.
Qed.

(** ** Sibling rings in the arena *)

Section siblings.
Implicit Types (m : list Element) (live l : list ref) (o : option ref).

Lemma siblings_frame m m' live live' o l :
    siblings m live o l →
    (∀ c, c ∈ l → right (m' !!! c) = right (m !!! c) ∧
                   left (m' !!! c) = left (m !!! c)) →
    (∀ c, (c ∈ live' ∧ parent (m' !!! c) = o) ↔ (c ∈ live ∧ parent (m !!! c) = o)) →
    siblings m' live' o l.
  Proof.
    intros [[Hnd Hr] Hm] Hlinks Hmem. split; [split; [done|]|].
    - eapply ring_frame; [exact Hr|]. intros x Hx. apply (Hlinks x Hx).
    - intros c. rewrite Hmem. apply Hm.
  Qed.

Lemma siblings_rotate m live o l x :
    siblings m live o l → x ∈ l →
    ∃ l', x :: l' ≡ₚ l ∧ siblings m live o (x :: l').
  Proof.
    intros [[Hnd Hr] Hm] Hx.
    destruct (ring_rotate_to _ _ l x Hx Hr) as (l' & Hp & Hr').
    exists l'. split; [done|]. split; [split; [by rewrite Hp|done]|].
    intros c. rewrite Hp. apply Hm.
  Qed.

Lemma siblings_unique m live o l1 l2 :
    siblings m live o l1 → siblings m live o l2 → l1 ≡ₚ l2.
  Proof.
    intros [[Hnd1 _] Hm1] [[Hnd2 _] Hm2].
    apply NoDup_Permutation; [done..|]. intros c. by rewrite (Hm1 c), (Hm2 c).
  Qed.

Lemma siblings_nil m live o :
    (∀ c, c ∈ live → parent (m !!! c) ≠ o) → siblings m live o [].
  Proof.
    intros H. split; [split; [constructor|done]|].
    intros c. split; [by intros ?%elem_of_nil|]. intros [Hc Hp]. by destruct (H c Hc).
  Qed.

Lemma siblings_insert m m' live live' o a y l :
    siblings m live o (a :: l) →
    ¬ (y ∈ live ∧ parent (m !!! y) = o) →
    (∀ r, right (m' !!! r) = right (ddl_insert_at m a y r) ∧
          left (m' !!! r) = left (ddl_insert_at m a y r)) →
    (∀ c, (c ∈ live' ∧ parent (m' !!! c) = o) ↔
          c = y ∨ (c ∈ live ∧ parent (m !!! c) = o)) →
    siblings m' live' o (a :: y :: l).
  Proof.
    intros [[Hnd Hr] Hm] Hy Hlinks Hmem.
    assert (y ∉ a :: l) as Hyl by (by rewrite (Hm y)).
    assert (y ≠ a) as Hya by (intros ->; apply Hyl, list_elem_of_here).
    assert (right (m !!! a) ≠ y) as Hra.
    { intros <-. apply Hyl.
      apply (ring_right_in _ _ _ a Hr), list_elem_of_here. }
    split; [split|].
    - pose proof Hnd as [Hna Hnd']%NoDup_cons.
      apply not_elem_of_cons in Hyl as [_ Hyl].
      apply NoDup_cons. split.
      + apply not_elem_of_cons. split; [congruence|done].
      + by apply NoDup_cons.
    - apply (ring_insert_after _ _ _ _ a y l Hnd Hyl Hr);
        intros; cbv beta; rewrite ?(proj1 (Hlinks _)), ?(proj2 (Hlinks _));
        unfold ddl_insert_at; simpl; repeat case_decide; congruence.
    - intros c. rewrite Hmem, <-(Hm c), !elem_of_cons. tauto.
  Qed.

Lemma siblings_remove m m' live live' o a b l :
    siblings m live o (a :: b :: l) →
    right (m' !!! left (m !!! a)) = right (m !!! a) →
    (∀ r, r ≠ left (m !!! a) → r ≠ a → right (m' !!! r) = right (m !!! r)) →
    left (m' !!! right (m !!! a)) = left (m !!! a) →
    (∀ r, r ≠ right (m !!! a) → r ≠ a → left (m' !!! r) = left (m !!! r)) →
    (∀ c, (c ∈ live' ∧ parent (m' !!! c) = o) ↔
          c ≠ a ∧ (c ∈ live ∧ parent (m !!! c) = o)) →
    siblings m' live' o (b :: l).
  Proof.
    intros [[Hnd Hr] Hm] HRl HR HLr HL Hmem.
    split; [split|].
    - by apply NoDup_cons in Hnd as [_ ?].
    - by apply (ring_remove_head _ _ _ _ a b l Hnd Hr).
    - intros c. rewrite Hmem, <-(Hm c), !elem_of_cons.
      apply NoDup_cons in Hnd as [Ha _]. rewrite elem_of_cons in Ha.
      split; [|tauto]. intros H. split; [|tauto]. intros ->. tauto.
  Qed.
End siblings.

(** ** Forests *)



Section forest.
Implicit Types (m : list Element) (live l : list ref) (o : option ref).

Lemma nodeOk_frame m m' live live' p :
  nodeOk m live p →
  (∀ c, c ∈ live → parent (m !!! c) = Some p → same_links (m !!! c) (m' !!! c)) →
  (∀ c, (c ∈ live' ∧ parent (m' !!! c) = Some p) ↔
        (c ∈ live ∧ parent (m !!! c) = Some p)) →
  degree (m' !!! p) = degree (m !!! p) →
  child (m' !!! p) = child (m !!! p) →
  nodeOk m' live' p.
Proof.
  intros (l & Hs & Hd & Hc) Hlinks Hmem Hd' Hc'.
  exists l. rewrite Hd', Hc'. split_and!; [|done..].
  eapply siblings_frame; [done| |done].
  intros c Hcl. destruct Hs as [_ Hm]. apply Hm in Hcl as [? ?].
  by apply Hlinks.
Qed.

(** an update that leaves the nodes with a parent alone, and changes
    only the links of the roots, keeps the forest *)
Lemma forest_frame m m' live :
  Forest m live →
  (∀ c, c ∈ live → (c < length m')%nat) →
  (∀ c, c ∈ live → same_fields (m !!! c) (m' !!! c)) →
  (∀ c, c ∈ live → parent (m !!! c) ≠ None → same_links (m !!! c) (m' !!! c)) →
  Forest m' live.
Proof.
  intros [Hnd Hal Hno Hpa [rk Hrk]] Hal' Hf Hl. split; [done..| | |].
  - intros p Hp. apply (nodeOk_frame m m' live live p); [by apply Hno|..].
    + intros c Hc Hcp. apply Hl; [done|]. by rewrite Hcp.
    + intros c. split; intros [Hc Hcp]; (split; [done|]);
        destruct (Hf c Hc) as (Hpar & _); congruence.
    + by destruct (Hf p Hp) as (_ & _ & ?).
    + by destruct (Hf p Hp) as (_ & ? & _).
  - intros c p Hc Hcp. destruct (Hf c Hc) as (Hpar & _).
    rewrite Hpar in Hcp. by apply (Hpa c p).
  - exists rk. intros c p Hc Hcp. destruct (Hf c Hc) as (Hpar & _).
    rewrite Hpar in Hcp. by apply Hrk.
Qed.

Lemma ordered_frame m m' live :
  ordered m live →
  (∀ c, c ∈ live → parent (m' !!! c) = parent (m !!! c)) →
  (∀ c p, c ∈ live → parent (m !!! c) = Some p →
     priority (m' !!! c) = priority (m !!! c) ∧
     priority (m' !!! p) = priority (m !!! p)) →
  ordered m' live.
Proof.
  intros Hor Hpar Hpri c p Hc Hcp. rewrite Hpar in Hcp by done.
  destruct (Hpri c p Hc Hcp) as [-> ->]. by apply Hor.
Qed.

Lemma forest_perm m live live' : Forest m live → live ≡ₚ live' → Forest m live'.
Proof.
  intros [Hnd Hal Hno Hpa [rk Hrk]] Hp.
  assert (∀ x, x ∈ live' ↔ x ∈ live) as Hiff by (intros x; by rewrite Hp).
  split.
  - by rewrite <-Hp.
  - intros r Hr. by apply Hal, Hiff.
  - intros p Hpl. apply Hiff in Hpl.
    destruct (Hno p Hpl) as (l & [Hr Hm] & Hd & Hc).
    exists l. split_and!; [split; [done|]|done..].
    intros c. rewrite Hiff. apply Hm.
  - intros c p Hc Hcp. apply Hiff in Hc. rewrite Hiff. by apply (Hpa c).
  - exists rk. intros c p Hc. apply Hiff in Hc. by apply Hrk.
Qed.

Lemma ordered_perm m live live' : ordered m live → live ≡ₚ live' → ordered m live'.
Proof. intros Hor Hp c p Hc. rewrite <-Hp in Hc. by apply Hor. Qed.

(** a childless node without parent joins the forest *)
Lemma forest_add_root m live e :
  Forest m live → e ∉ live → (e < length m)%nat →
  parent (m !!! e) = None → child (m !!! e) = None → degree (m !!! e) = 0 →
  Forest m (e :: live).
Proof.
  intros [Hnd Hal Hno Hpa [rk Hrk]] He Hlt Hp Hch Hd.
  assert (∀ c, c ∈ e :: live → parent (m !!! c) ≠ Some e) as Hnoe.
  { intros c [->|Hc]%elem_of_cons Hcp; [congruence|].
    by pose proof (Hpa c e Hc Hcp). }
  split.
  - by apply NoDup_cons.
  - intros r [->|Hr]%elem_of_cons; auto.
  - intros p [->|Hpl]%elem_of_cons.
    + exists []. rewrite Hch, Hd. split_and!; [|done..].
      by apply siblings_nil.
    + apply (nodeOk_frame m m live); [by apply Hno|done| |done..].
      intros c. rewrite elem_of_cons. split; [|tauto].
      intros [[->|Hcl] Hcp]; [congruence|done].
  - intros c p [->|Hcl]%elem_of_cons Hcp; [congruence|].
    by apply list_elem_of_further, (Hpa c).
  - exists rk. intros c p [->|Hcl]%elem_of_cons Hcp; [congruence|]. by apply Hrk.
Qed.

Lemma ordered_add_root m live e :
  ordered m live → parent (m !!! e) = None → ordered m (e :: live).
Proof.
  intros Hor He c p [->|Hc]%elem_of_cons Hcp; [congruence|]. by apply Hor.
Qed.

(** a root without children leaves the forest *)
Lemma forest_remove_root m live z :
  Forest m (z :: live) → parent (m !!! z) = None →
  (∀ c, c ∈ live → parent (m !!! c) ≠ Some z) →
  Forest m live.
Proof.
  intros [Hnd Hal Hno Hpa [rk Hrk]] Hp Hnoz.
  apply NoDup_cons in Hnd as [Hz Hnd].
  split; [done|..].
  - intros r Hr. apply Hal. by apply list_elem_of_further.
  - intros p Hpl.
    apply (nodeOk_frame m m (z :: live));
      [by apply Hno, list_elem_of_further|done| |done..].
    intros c. rewrite elem_of_cons. split; [tauto|].
    intros [[->|Hcl] Hcp]; [congruence|done].
  - intros c p Hcl Hcp.
    pose proof (Hpa c p (list_elem_of_further _ _ _ Hcl) Hcp) as Hpl.
    apply elem_of_cons in Hpl as [->|]; [|done].
    by destruct (Hnoz c Hcl).
  - exists rk. intros c p Hcl. apply Hrk. by apply list_elem_of_further.
Qed.

Lemma ordered_remove m live z : ordered m (z :: live) → ordered m live.
Proof. intros Hor c p Hc. apply Hor. by apply list_elem_of_further. Qed.
End forest.

(** ** Forests have roots *)

Lemma list_max_by (rk : ref → nat) (l : list ref) :
  l ≠ [] → ∃ x, x ∈ l ∧ ∀ y, y ∈ l → (rk y ≤ rk x)%nat.
Proof.
  induction l as [|a l IH]; [done|]. intros _.
  destruct l as [|b l].
  - exists a. split; [apply list_elem_of_here|].
    intros y ->%list_elem_of_singleton. done.
  - destruct IH as (x & Hx & Hmax); [done|].
    destruct (decide (rk x ≤ rk a)%nat).
    + exists a. split; [apply list_elem_of_here|].
      intros y [->|Hy]%elem_of_cons; [done|]. specialize (Hmax y Hy). lia.
    + exists x. split; [by apply list_elem_of_further|].
      intros y [->|Hy]%elem_of_cons; [lia|]. by apply Hmax.
Qed.

Lemma forest_has_root m live :
  Forest m live → live ≠ [] → ∃ r, r ∈ live ∧ parent (m !!! r) = None.
Proof.
  intros [_ _ _ Hpa [rk Hrk]] Hne.
  destruct (list_max_by rk live Hne) as (x & Hx & Hmax).
  exists x. split; [done|].
  destruct (parent (m !!! x)) as [p|] eqn:Hp; [|done].
  pose proof (Hpa x p Hx Hp) as Hpl.
  specialize (Hrk x p Hx Hp). specialize (Hmax p Hpl). lia.
Qed.


(** ** The size of a tree is at least the Fibonacci number of its degree *)

Section counting.
Context (m : list Element) (live : list ref) (rk : ref → nat).
Hypothesis Hclosed : ∀ c q, c ∈ live → parent (m !!! c) = Some q → q ∈ live.
Hypothesis Hrk : ∀ c q, c ∈ live → parent (m !!! c) = Some q → (rk c < rk q)%nat.

Lemma under_rank p v : under m p v → v ∈ live → (rk v ≤ rk p)%nat ∧ p ∈ live.
Proof.
  induction 1 as [|v q Hq _ IH]; intros Hv; [done|].
  destruct (IH (Hclosed _ _ Hv Hq)) as [Hle Hp].
  specialize (Hrk _ _ Hv Hq). split; [lia|done].
Qed.

Lemma under_disjoint p c1 c2 v :
  parent (m !!! c1) = Some p → parent (m !!! c2) = Some p → c1 ≠ c2 →
  c1 ∈ live → c2 ∈ live → v ∈ live →
  under m c1 v → under m c2 v → False.
Proof.
  intros H1 H2 Hne Hc1 Hc2 Hv Hu1. revert Hv.
  induction Hu1 as [|v q Hq Hu1 IH]; intros Hv Hu2.
  - inversion Hu2 as [|? q Hq Hu]; subst; [done|].
    assert (q = p) as -> by congruence.
    destruct (under_rank _ _ Hu (Hclosed _ _ Hc1 H1)) as [Hle _].
    specialize (Hrk _ _ Hc2 H2). lia.
  - inversion Hu2 as [|? q' Hq' Hu]; subst.
    + assert (q = p) as -> by congruence.
      destruct (under_rank _ _ Hu1 (Hclosed _ _ Hc2 H2)) as [Hle _].
      specialize (Hrk _ _ Hc1 H1). lia.
    + assert (q' = q) as -> by congruence.
      apply IH; [by eapply Hclosed|done].
Qed.

Lemma children_count p ys :
  NoDup ys →
  (∀ y, y ∈ ys → y ∈ live ∧ parent (m !!! y) = Some p) →
  (∀ (i : nat) y, ys !! i = Some y → Z.of_nat i ≤ edeg (m !!! y)) →
  (∀ y, y ∈ ys → 0 ≤ degree (m !!! y) ∧
     ∃ D, NoDup D ∧ (∀ v, v ∈ D → v ∈ live ∧ under m y v) ∧
          fib (Z.to_nat (degree (m !!! y)) + 2) ≤ Z.of_nat (length D)) →
  ∃ D, NoDup D ∧ (∀ v, v ∈ D → v ∈ live ∧ ∃ y, y ∈ ys ∧ under m y v) ∧
       fib (length ys + 2) ≤ 1 + Z.of_nat (length D).
Proof.
  induction ys as [|y ys IH] using rev_ind; intros Hnd Hch Hdeg Hsub.
  { exists []. split_and!; [constructor| by intros ? ?%elem_of_nil | done]. }
  apply NoDup_app in Hnd as (Hnd & Hny & _).
  destruct IH as (D & HD & HDin & Hlen); [done|..].
  { intros c Hc. apply Hch, elem_of_app. by left. }
  { intros i c Hi. apply Hdeg. by apply lookup_app_l_Some. }
  { intros c Hc. apply Hsub, elem_of_app. by left. }
  assert (y ∈ ys ++ [y]) as Hy by (apply elem_of_app; right; apply list_elem_of_here).
  destruct (Hsub y Hy) as (Hdy & Dy & HDy & HDyin & Hleny).
  destruct (Hch y Hy) as [Hyl Hyp].
  exists (D ++ Dy). split_and!.
  - apply NoDup_app. split_and!; [done| |done].
    intros v Hv Hv'. destruct (HDin v Hv) as (Hvl & c & Hc & Hu).
    destruct (HDyin v Hv') as [_ Hu'].
    apply (under_disjoint p c y v); try done.
    + apply Hch, elem_of_app. by left.
    + intros Hcy. subst c. apply (Hny y Hc), list_elem_of_here.
    + apply Hch, elem_of_app. by left.
  - intros v [Hv|Hv]%elem_of_app.
    + destruct (HDin v Hv) as (Hvl & c & Hc & Hu). split; [done|].
      exists c. split; [|done]. apply elem_of_app. by left.
    + destruct (HDyin v Hv) as [Hvl Hu]. split; [done|]. by exists y.
  - rewrite !length_app. simpl.
    replace (length ys + 1 + 2)%nat with (S (S (S (length ys)))) by lia.
    rewrite fib_SS. replace (S (S (length ys))) with (length ys + 2)%nat by lia.
    assert (Z.of_nat (length ys) ≤ edeg (m !!! y)) as He.
    { apply Hdeg. rewrite lookup_app_r by lia. by rewrite Nat.sub_diag. }
    unfold edeg in He.
    assert (fib (S (length ys)) ≤ fib (Z.to_nat (degree (m !!! y)) + 2)).
    { apply fib_mono. destruct (mark (m !!! y)); lia. }
    lia.
Qed.

Lemma subtree_count :
  (∀ p, p ∈ live → 0 ≤ degree (m !!! p) ∧
     ∃ ys, NoDup ys ∧ members m live (Some p) ys ∧
           length ys = Z.to_nat (degree (m !!! p)) ∧
           ∀ (i : nat) y, ys !! i = Some y → Z.of_nat i ≤ edeg (m !!! y)) →
  ∀ n p, (rk p < n)%nat → p ∈ live →
    ∃ D, NoDup D ∧ (∀ v, v ∈ D → v ∈ live ∧ under m p v) ∧
         fib (Z.to_nat (degree (m !!! p)) + 2) ≤ Z.of_nat (length D).
Proof.
  intros Hnodes. induction n as [|n IH]; intros p Hn Hp; [lia|].
  destruct (Hnodes p Hp) as (Hdp & ys & Hnd & Hmem & Hlen & Hdeg).
  destruct (children_count p ys) as (D & HD & HDin & HDlen); try done.
  { intros y Hy. by apply Hmem. }
  { intros y Hy. apply Hmem in Hy as [Hyl Hyp].
    split; [by apply Hnodes|]. apply IH; [|done].
    specialize (Hrk _ _ Hyl Hyp). lia. }
  exists (p :: D). split_and!.
  - apply NoDup_cons. split; [|done]. intros Hin.
    destruct (HDin p Hin) as (_ & y & Hy & Hu).
    apply Hmem in Hy as [Hyl Hyp].
    destruct (under_rank _ _ Hu Hp) as [Hle _].
    specialize (Hrk _ _ Hyl Hyp). lia.
  - intros v [->|Hv]%elem_of_cons; [split; [done|constructor]|].
    destruct (HDin v Hv) as (Hvl & y & Hy & Hu). split; [done|].
    apply Hmem in Hy as [Hyl Hyp].
    clear -Hu Hyp. induction Hu as [|v q Hq Hu IHu].
    + by apply (under_up _ _ _ p); [|constructor].
    + by apply (under_up _ _ _ q).
  - rewrite <- Hlen. simpl. lia.
Qed.
End counting.

Lemma forest_children_length m live p ys :
  Forest m live → p ∈ live → NoDup ys → members m live (Some p) ys →
  degree (m !!! p) = Z.of_nat (length ys).
Proof.
  intros HF Hp Hnd Hmem.
  destruct (forest_nodes _ _ HF p Hp) as (l & [[Hndl _] Hl] & Hd & _).
  rewrite Hd. f_equal. apply Permutation_length, NoDup_Permutation; try done.
  intros c. by rewrite (Hl c), (Hmem c).
Qed.

(** CLRS, Lemma 19.4 *)
Lemma degree_bound m live p :
  Forest m live → Fibo m live None → p ∈ live →
  0 ≤ degree (m !!! p) ∧
  fib (Z.to_nat (degree (m !!! p)) + 2) ≤ Z.of_nat (length live).
Proof.
  intros HF HL Hp.
  assert (0 ≤ degree (m !!! p)) as H0.
  { destruct (forest_nodes _ _ HF p Hp) as (l & _ & -> & _). lia. }
  split; [done|].
  destruct (forest_rank _ _ HF) as [rk Hrk].
  destruct (subtree_count m live rk (forest_parent _ _ HF) Hrk) with (n := S (rk p)) (p := p)
    as (D & HD & HDin & Hlen); [|lia|done|].
  - intros q Hq. destruct (HL q Hq) as (ys & Hnd & Hmem & Hdeg).
    pose proof (forest_children_length m live q ys HF Hq Hnd Hmem) as Hd.
    split; [lia|]. exists ys. split_and!; try done; [lia|].
    intros i y Hi. specialize (Hdeg i y Hi). by rewrite decide_False in Hdeg by done; lia.
  - assert (D ⊆+ live) as Hsub.
    { apply NoDup_submseteq; [done|]. intros v Hv. by apply HDin. }
    apply submseteq_length in Hsub. lia.
Qed.

(** ** Moving the invariants to another arena *)

Lemma forest_transfer (m m' : list Element) live live' :
  Forest m live → NoDup live' → (∀ r, r ∈ live' → r ∈ live) →
  length m' = length m →
  (∀ c p, p ∈ live' → (c ∈ live' ∧ parent (m' !!! c) = Some p) ↔
                       (c ∈ live ∧ parent (m !!! c) = Some p)) →
  (∀ c p, c ∈ live' → parent (m' !!! c) = Some p → p ∈ live') →
  (∀ c p, c ∈ live → p ∈ live' → parent (m !!! c) = Some p →
          same_links (m !!! c) (m' !!! c)) →
  (∀ p, p ∈ live' → child (m' !!! p) = child (m !!! p) ∧
                    degree (m' !!! p) = degree (m !!! p)) →
  Forest m' live'.
Proof.
  intros [Hnd Hal Hno Hpa [rk Hrk]] Hnd' Hsub Hlen Hmem Hcl Hlinks Hf.
  split; [done| | |done|].
  - intros r Hr. rewrite Hlen. by apply Hal, Hsub.
  - intros p Hp. apply (nodeOk_frame m m' live live' p).
    + by apply Hno, Hsub.
    + intros c Hc Hcp. by apply (Hlinks c p).
    + intros c. by apply Hmem.
    + by destruct (Hf p Hp).
    + by destruct (Hf p Hp).
  - exists rk. intros c p Hc Hcp.
    destruct (proj1 (Hmem c p (Hcl c p Hc Hcp)) (conj Hc Hcp)) as [Hc' Hcp'].
    by apply Hrk.
Qed.

Lemma ordered_transfer (m m' : list Element) live live' :
  ordered m live →
  (∀ c p, c ∈ live' → parent (m' !!! c) = Some p →
          c ∈ live ∧ parent (m !!! c) = Some p) →
  (∀ r, priority (m' !!! r) = priority (m !!! r)) →
  ordered m' live'.
Proof.
  intros Hor Hpar Hpri c p Hc Hcp. rewrite !Hpri.
  destruct (Hpar c p Hc Hcp). by apply Hor.
Qed.

Lemma fibo_transfer (m m' : list Element) live live' bad :
  Fibo m live bad → (∀ r, r ∈ live' → r ∈ live) →
  (∀ c p, p ∈ live' → (c ∈ live' ∧ parent (m' !!! c) = Some p) ↔
                       (c ∈ live ∧ parent (m !!! c) = Some p)) →
  (∀ c, parent (m !!! c) ≠ None → edeg (m' !!! c) = edeg (m !!! c)) →
  Fibo m' live' bad.
Proof.
  intros HL Hsub Hmem Hed p Hp.
  destruct (HL p (Hsub p Hp)) as (ys & Hnd & Hys & Hdeg).
  exists ys. split_and!; [done| |].
  - intros c. rewrite (Hys c). symmetry. by apply Hmem.
  - intros i y Hi. rewrite Hed; [by apply Hdeg|].
    apply list_elem_of_lookup_2, Hys in Hi as [_ Hi]. by rewrite Hi.
Qed.

Lemma relinked_refl m : relinked m m.
Proof. split; [done|]. intros r. by split_and!. Qed.

Lemma relinked_trans m1 m2 m3 : relinked m1 m2 → relinked m2 m3 → relinked m1 m3.
Proof.
  intros [Hl1 H1] [Hl2 H2]. split; [congruence|]. intros r.
  destruct (H1 r) as (Hp & Hc & Hd & Hm & Hpr & Ho & Hl).
  destruct (H2 r) as (Hp' & Hc' & Hd' & Hm' & Hpr' & Ho' & Hl').
  split_and!; try congruence.
  intros Hne. destruct (Hl Hne) as [? ?].
  destruct Hl' as [? ?]; [congruence|]. split; congruence.
Qed.

Lemma forest_relinked m m' live : Forest m live → relinked m m' → Forest m' live.
Proof.
  intros HF [Hlen H]. apply (forest_frame m); [done|..].
  - intros c Hc. rewrite Hlen. by apply (forest_alloc _ _ HF).
  - intros c _. destruct (H c) as (? & ? & ? & _). by split_and!.
  - intros c _. by apply H.
Qed.

Lemma ordered_relinked m m' live : ordered m live → relinked m m' → ordered m' live.
Proof.
  intros Hor [_ H]. apply (ordered_transfer m m' live live Hor).
  - intros c p Hc Hcp. split; [done|]. destruct (H c) as (<- & _). done.
  - intros r. by destruct (H r) as (_ & _ & _ & _ & ? & _).
Qed.

Lemma fibo_relinked m m' live bad : Fibo m live bad → relinked m m' → Fibo m' live bad.
Proof.
  intros HL [_ H]. apply (fibo_transfer m m' live live bad HL); [done|..].
  - intros c p _. by destruct (H c) as (-> & _).
  - intros c _. unfold edeg. by destruct (H c) as (_ & _ & -> & -> & _).
Qed.

(** ** Roots in a ring and roots alone *)

Lemma split_relinked m m' live ring loose ring' loose' :
  Split m live ring loose → relinked m m' →
  ring' ++ loose' ≡ₚ ring ++ loose →
  is_ring m' ring' →
  (∀ r, r ∈ loose' → right (m' !!! r) = r ∧ left (m' !!! r) = r) →
  Split m' live ring' loose'.
Proof.
  intros [HF Ho HL Hnd Hmem Hring Hloose] Hre Hperm Hring' Hloose'.
  split; [by eapply forest_relinked|by eapply ordered_relinked
         |by eapply fibo_relinked|by rewrite Hperm| |done..].
  intros c. rewrite Hperm, (Hmem c). destruct Hre as [_ H].
  by destruct (H c) as (-> & _).
Qed.

Lemma split_alloc m live ring loose r :
  Split m live ring loose → r ∈ ring ++ loose → (r < length m)%nat.
Proof.
  intros HS Hr. apply (forest_alloc _ _ (split_forest _ _ _ _ HS)).
  by apply (split_roots _ _ _ _ HS).
Qed.

Lemma split_parent m live ring loose r :
  Split m live ring loose → r ∈ ring ++ loose → parent (m !!! r) = None.
Proof. intros HS Hr. by apply (split_roots _ _ _ _ HS). Qed.

Lemma last_cons_in (a b : ref) (l : list ref) : default a (last (b :: l)) ∈ b :: l.
Proof.
  revert b. induction l as [|c l IH]; intros b; [apply list_elem_of_here|].
  change (last (b :: c :: l)) with (last (c :: l)).
  apply list_elem_of_further, IH.
Qed.

(** in a ring of two nodes or more, no node is its own neighbour *)
Lemma is_ring_neighbours (m : list Element) a b l :
  is_ring m (a :: b :: l) →
  right (m !!! a) = b ∧ right (m !!! a) ≠ a ∧ left (m !!! a) ≠ a ∧
  left (m !!! a) ∈ b :: l.
Proof.
  intros [Hnd Hr]. pose proof Hnd as [Ha _]%NoDup_cons.
  pose proof Hr as Hr'. simpl in Hr'. destruct Hr' as (Hab & _ & _).
  apply path_last in Hr as [_ Hl]. cbv beta in Hl.
  pose proof (last_cons_in a b l) as Hin. rewrite <- Hl in Hin.
  split_and!; [done| | |done].
  - rewrite Hab. intros ->. apply Ha, list_elem_of_here.
  - intros Heq. by rewrite Heq in Hin.
Qed.

Lemma is_ring_remove (m m' : list Element) a b l :
  is_ring m (a :: b :: l) →
  (∀ r, right (m' !!! r) = right (remove_at m a r) ∧
        left (m' !!! r) = left (remove_at m a r)) →
  is_ring m' (b :: l) ∧ right (m' !!! a) = a ∧ left (m' !!! a) = a.
Proof.
  intros Hring Hm'.
  destruct (is_ring_neighbours _ _ _ _ Hring) as (Hab & Hra & Hla & _).
  destruct Hring as [Hnd Hr].
  split_and!.
  - split; [by apply NoDup_cons in Hnd as [_ ?]|].
    apply (ring_remove_head _ _ _ _ a b l Hnd Hr); intros; cbv beta;
      rewrite ?(proj1 (Hm' _)), ?(proj2 (Hm' _)); unfold remove_at; simpl;
      repeat case_decide; congruence.
  - rewrite (proj1 (Hm' _)). unfold remove_at. simpl. by rewrite decide_True.
  - rewrite (proj2 (Hm' _)). unfold remove_at. simpl. by rewrite decide_True.
Qed.

Lemma is_ring_singleton (m : list Element) a :
  is_ring m [a] ↔ right (m !!! a) = a ∧ left (m !!! a) = a.
Proof.
  unfold is_ring. rewrite ring_singleton. split; [tauto|].
  intros H. split; [|done]. apply NoDup_singleton.
Qed.

Lemma is_ring_rotate (m : list Element) l x :
  is_ring m l → x ∈ l → ∃ l', x :: l' ≡ₚ l ∧ is_ring m (x :: l').
Proof.
  intros [Hnd Hr] Hx. destruct (ring_rotate_to _ _ l x Hx Hr) as (l' & Hp & Hr').
  exists l'. split; [done|]. split; [by rewrite Hp|done].
Qed.

Lemma is_ring_frame (m m' : list Element) l :
  is_ring m l → (∀ r, r ∈ l → same_links (m !!! r) (m' !!! r)) → is_ring m' l.
Proof.
  intros [Hnd Hr] Hl. split; [done|].
  eapply ring_frame; [exact Hr|]. intros x Hx. by destruct (Hl x Hx).
Qed.

(** ** Consequences of the invariant *)

Section inv_facts.
Implicit Types (m : list Element) (live l : list ref) (o : option ref).

Lemma siblings_right_in m live o l x :
    siblings m live o l → x ∈ l → right (m !!! x) ∈ l.
  Proof. intros [[_ Hr] _] Hx. by apply (ring_right_in _ _ _ _ Hr). Qed.

Lemma siblings_left_in m live o l x :
    siblings m live o l → x ∈ l → left (m !!! x) ∈ l.
  Proof. intros [[_ Hr] _] Hx. by apply (ring_left_in _ _ _ _ Hr). Qed.

Lemma siblings_live m live o l x : siblings m live o l → x ∈ l → x ∈ live.
  Proof. intros [_ Hm] Hx. by apply Hm in Hx as [? _]. Qed.

Lemma siblings_parent m live o l x :
    siblings m live o l → x ∈ l → parent (m !!! x) = o.
  Proof. intros [_ Hm] Hx. by apply Hm in Hx as [_ ?]. Qed.

Lemma siblings_in m live o l x :
    siblings m live o l → x ∈ live → parent (m !!! x) = o → x ∈ l.
  Proof. intros [_ Hm] Hx Hp. by apply Hm. Qed.

Lemma rootsOk_min m live head :
    rootsOk m live (Some head) → ∃ l, siblings m live None (head :: l).
  Proof.
    intros (l & Hs & Hh). destruct (siblings_rotate _ _ _ _ _ Hs Hh) as (l' & _ & ?).
    by exists l'.
  Qed.

Lemma forest_snoc m live e : Forest m live → Forest (m ++ [e]) live.
Proof.
  intros HF.
  assert (∀ c, c ∈ live → (m ++ [e]) !!! c = m !!! c) as Heq.
  { intros c Hc. apply lookup_total_app_l, (forest_alloc _ _ HF c Hc). }
  apply (forest_frame m); [done|..].
  - intros c Hc. rewrite length_app. pose proof (forest_alloc _ _ HF c Hc). lia.
  - intros c Hc. by rewrite Heq.
  - intros c Hc _. by rewrite Heq.
Qed.

Lemma siblings_snoc m live o l e :
    (∀ r, r ∈ live → (r < length m)%nat) →
    siblings m live o l → siblings (m ++ [e]) live o l.
  Proof.
    intros Hal Hs.
    assert (∀ c, c ∈ live → (m ++ [e]) !!! c = m !!! c) as Heq.
    { intros c Hc. apply lookup_total_app_l, (Hal c Hc). }
    apply (siblings_frame m _ live); [done|..].
    - intros c Hc. rewrite Heq; [done|]. by eapply siblings_live.
    - intros c. split; intros [Hc Hp]; (split; [done|]); by rewrite Heq in *.
  Qed.
End inv_facts.

(** ** [insert] *)


Lemma wp_insert x p w live :
  Inv w live →
  wp (Fib.insert x p) w
    (λ e w', e = length (mem w) ∧ Inv w' (e :: live) ∧
             length (mem w') = S (length (mem w)) ∧
             obj (mem w' !!! e) = x ∧ priority (mem w' !!! e) = p ∧
             (∀ r, (r < length (mem w))%nat →
                   obj (mem w' !!! r) = obj (mem w !!! r) ∧
                   priority (mem w' !!! r) = priority (mem w !!! r) ∧
                   mark (mem w' !!! r) = mark (mem w !!! r) ∧
                   parent (mem w' !!! r) = parent (mem w !!! r)) ∧
             mark (mem w' !!! e) = false ∧
             _min (self w') = insert_min w e p ∧
             parent (mem w' !!! e) = None ∧
             (∀ r, (r < length (mem w))%nat →
                   degree (mem w' !!! r) = degree (mem w !!! r)))
    noexn False.
Proof.
  intros [HF HO HR Hsz]. destruct w as [m [sz mn]]. simpl in *.
  set (e := length m).
  set (new := mkElement x p e e None None 0 false).
  assert (e ∉ live) as He.
  { intros He. pose proof (forest_alloc _ _ HF e He). unfold e in *. lia. }
  assert (∀ c, c ∈ live → (m ++ [new]) !!! c = m !!! c) as Heq.
  { intros c Hc. apply lookup_total_app_l, (forest_alloc _ _ HF c Hc). }
  assert ((m ++ [new]) !!! e = new) as Hnew.
  { rewrite lookup_total_snoc. by rewrite decide_True. }
  assert (Forest (m ++ [new]) (e :: live)) as HF1.
  { apply forest_add_root; [by apply forest_snoc|done|..]; rewrite ?Hnew; try done.
    rewrite length_app. simpl. lia. }
  unfold Fib.insert. wp_step1. apply wp_new_Element. simpl. fold e. fold new.
  wp_step1.
  destruct mn as [head|].
  - destruct (rootsOk_min _ _ _ HR) as (l & Hs).
    assert (head ∈ live) as Hhl.
    { eapply siblings_live; [done|]. apply list_elem_of_here. }
    assert (right (m !!! head) ∈ live) as Htl.
    { eapply siblings_live; [done|]. eapply siblings_right_in; [done|].
      apply list_elem_of_here. }
    pose proof (forest_alloc _ _ HF _ Hhl) as Hh.
    pose proof (forest_alloc _ _ HF _ Htl) as Ht.
    apply (wp_insert_to_root_list_Some e head); simpl; rewrite ?length_app; simpl;
      rewrite ?Heq by done; try done; try (unfold e; lia).
    intros m' Hlen Hm'.
    assert (∀ c, parent (m' !!! c) = parent ((m ++ [new]) !!! c) ∧
                 child (m' !!! c) = child ((m ++ [new]) !!! c) ∧
                 degree (m' !!! c) = degree ((m ++ [new]) !!! c) ∧
                 priority (m' !!! c) = priority ((m ++ [new]) !!! c) ∧
                 obj (m' !!! c) = obj ((m ++ [new]) !!! c) ∧
                 mark (m' !!! c) = mark ((m ++ [new]) !!! c)) as Hsame.
    { intros c. rewrite Hm'. unfold root_insert_at, ddl_insert_at. simpl.
      split_and!; try done. case_decide; [subst; by rewrite Hnew|done]. }
    assert (Forest m' (e :: live)) as HF2.
    { apply (forest_frame (m ++ [new])); [done|..].
      - intros c Hc. pose proof (forest_alloc _ _ HF1 c Hc) as Hc'.
        rewrite length_app in Hc'. simpl in Hc'. lia.
      - intros c _. destruct (Hsame c) as (?&?&?&_). done.
      - intros c Hc Hcp. rewrite Hm'.
        unfold root_insert_at, ddl_insert_at, same_links. simpl.
        rewrite (Heq head) by done.
        assert (c ≠ e) by (intros ->; by rewrite Hnew in Hcp).
        assert (c ≠ head).
        { intros ->. rewrite Heq in Hcp by done.
          rewrite (siblings_parent _ _ _ _ head Hs) in Hcp; [done|apply list_elem_of_here]. }
        assert (c ≠ right (m !!! head)).
        { intros ->. rewrite Heq in Hcp by done.
          rewrite (siblings_parent _ _ _ _ _ Hs) in Hcp; [done|].
          eapply siblings_right_in; [done|apply list_elem_of_here]. }
        repeat case_decide; done. }
    assert (ordered m' (e :: live)) as HO2.
    { apply (ordered_frame (m ++ [new])).
      - apply ordered_add_root; [|by rewrite Hnew].
        apply (ordered_frame m); [done|intros c Hc; by rewrite Heq|].
        intros c q Hc Hcq. rewrite Heq by done.
        by rewrite (Heq q) by (by eapply forest_parent).
      - intros c _. by destruct (Hsame c) as (?&_).
      - intros c q _ _. destruct (Hsame c) as (_&_&_&->&_).
        by destruct (Hsame q) as (_&_&_&->&_). }
    assert (siblings m' (e :: live) None (head :: e :: l)) as Hs2.
    { apply (siblings_insert (m ++ [new]) m' live).
      - by apply (siblings_snoc _ _ _ _ _ (forest_alloc _ _ HF)).
      - tauto.
      - intros r. rewrite Hm'. done.
      - intros c. destruct (Hsame c) as (-> & _). rewrite elem_of_cons.
        split; [tauto|]. intros [->|[? ?]]; [|tauto].
        rewrite Hnew. tauto. }
    wp_steps.
    destruct (Hsame e) as (_&_&_&Hpe&Hoe&Hme). rewrite Hnew in Hpe, Hoe, Hme.
    unfold new in Hpe, Hoe, Hme. simpl in Hpe, Hoe, Hme.
    destruct (Hsame head) as (_&_&_&Hph&_). rewrite Heq in Hph by done.
    assert (∀ r, (r < length m)%nat →
                 obj (m' !!! r) = obj (m !!! r) ∧
                 priority (m' !!! r) = priority (m !!! r) ∧
                 mark (m' !!! r) = mark (m !!! r) ∧
                 parent (m' !!! r) = parent (m !!! r)) as Hold.
    { intros r Hr. destruct (Hsame r) as (->&_&_&->&->&->).
      by rewrite lookup_total_app_l. }
    assert (parent (m' !!! e) = None) as Hpar.
    { destruct (Hsame e) as (-> & _). by rewrite Hnew. }
    assert (∀ r, (r < length m)%nat → degree (m' !!! r) = degree (m !!! r)) as Hdeg.
    { intros r Hr. destruct (Hsame r) as (_ & _ & -> & _).
      by rewrite lookup_total_app_l. }
    unfold insert_min. simpl. rewrite Hpe, Hph.
    destruct (prio_ltb p (priority (m !!! head))); wp_steps.
    + split_and!; try done; [|simpl; unfold e; lia].
      split; simpl; [done|done| |rewrite Hsz; simpl; lia].
      exists (head :: e :: l). split; [done|].
      apply list_elem_of_further, list_elem_of_here.
    + split_and!; try done; [|simpl; unfold e; lia].
      split; simpl; [done|done| |rewrite Hsz; simpl; lia].
      exists (head :: e :: l). split; [done|]. apply list_elem_of_here.
  - destruct HR as (l & Hs & ->).
    apply (wp_insert_to_root_list_None e); simpl; rewrite ?length_app; simpl;
      try done; try (unfold e; lia).
    intros m' Hlen Hm'.
    assert (∀ c, m' !!! c = (m ++ [new]) !!! c) as Hsame.
    { intros c. rewrite Hm'. unfold clear_parent_at.
      case_decide; [subst; by rewrite Hnew|done]. }
    assert (m' = m ++ [new]) as ->.
    { apply list_eq_same_length with (length m'); [rewrite ?length_app in *; simpl in *; lia|done|].
      intros i a b Hi Ha Hb.
      apply list_lookup_total_correct in Ha, Hb. rewrite <-Ha, <-Hb. apply Hsame. }
    wp_steps. rewrite !Hnew. simpl.
    assert (prio_ltb p p = false) as ->.
    { destruct p as [|z]; simpl; [done|]. apply Z.ltb_irrefl. }
    wp_steps.
    split_and!; try done.
    + split; simpl; [done| | |rewrite Hsz; simpl; lia].
      { apply ordered_add_root; [|by rewrite Hnew].
        apply (ordered_frame m); [done|intros c Hc; by rewrite Heq|].
        intros c q Hc Hcq. rewrite Heq by done.
        by rewrite (Heq q) by (by eapply forest_parent). }
      exists [e]. split; [|apply list_elem_of_here].
      split; [split; [apply NoDup_singleton|]|].
      * apply ring_singleton. by rewrite Hnew.
      * intros c. rewrite list_elem_of_singleton, elem_of_cons. split.
        -- intros ->. by rewrite Hnew; auto.
        -- intros [[->|Hc] Hp]; [done|].
           destruct Hs as [_ Hm]. rewrite Heq in Hp by done.
           exfalso. by apply (elem_of_nil c), Hm.
    + simpl. unfold e. lia.
    + simpl. by rewrite Hnew.
    + simpl. by rewrite Hnew.
    + intros r Hr. simpl. by rewrite lookup_total_app_l.
    + simpl. by rewrite Hnew.
    + simpl. by rewrite Hnew.
    + intros r Hr. simpl. by rewrite lookup_total_app_l.
Qed.

(** ** Sequences of inserts *)

Lemma Inv_empty : Inv empty_world [].
Proof.
  split; simpl; [|by intros c p ?%elem_of_nil
                |exists []; split; [|done]; apply siblings_nil;
                   by intros c ?%elem_of_nil|done].
  split.
  - constructor.
  - by intros r ?%elem_of_nil.
  - by intros r ?%elem_of_nil.
  - by intros c p ?%elem_of_nil.
  - exists (λ _, 0%nat). by intros c p ?%elem_of_nil.
Qed.

Lemma insert_min_is_least x p w live :
  Inv w live → min_is_least w live →
  wp (Fib.insert x p) w
    (λ e w', e = length (mem w) ∧ Inv w' (e :: live) ∧ min_is_least w' (e :: live) ∧
             length (mem w') = S (length (mem w)) ∧
             obj (mem w' !!! e) = x ∧ priority (mem w' !!! e) = p ∧
             (∀ r, (r < length (mem w))%nat →
                   obj (mem w' !!! r) = obj (mem w !!! r) ∧
                   priority (mem w' !!! r) = priority (mem w !!! r)))
    noexn False.
Proof.
  intros HI Hleast.
  eapply wp_mono; [by apply wp_insert|simpl|done..].
  intros e w' (-> & HI' & Hlen & Ho & Hp & Hold & _ & Hmin & _).
  split_and!; try done; [|intros r Hr; by destruct (Hold r Hr) as (?&?&_)].
  assert (∀ r, r ∈ live → priority (mem w' !!! r) = priority (mem w !!! r)) as Hpr.
  { intros r Hr. apply Hold, (forest_alloc _ _ (inv_forest _ _ HI) r Hr). }
  unfold min_is_least in *. rewrite Hmin. unfold insert_min.
  destruct (_min (self w)) as [m0|].
  - destruct Hleast as [Hm0 Hle].
    destruct (prio_ltb p (priority (mem w !!! m0))) eqn:Hlt.
    + split; [apply list_elem_of_here|].
      intros y [->|Hy]%elem_of_cons; rewrite Hp; [apply prio_le_refl|].
      rewrite Hpr by done. apply prio_lt_le.
      eapply prio_lt_le_trans; [done|]. by apply Hle.
    + split; [by apply list_elem_of_further|].
      intros y [->|Hy]%elem_of_cons; rewrite (Hpr m0) by done.
      * by rewrite Hp.
      * rewrite Hpr by done. by apply Hle.
  - split; [apply list_elem_of_here|]. subst live.
    intros y ->%list_elem_of_singleton. apply prio_le_refl.
Qed.

Lemma wp_inserts l w live :
  Inv w live → min_is_least w live →
  wp (inserts l) w
    (λ rs w', rs = seq (length (mem w)) (length l) ∧
              Inv w' (reverse rs ++ live) ∧ min_is_least w' (reverse rs ++ live) ∧
              length (mem w') = (length (mem w) + length l)%nat ∧
              (∀ i x p, l !! i = Some (x, p) →
                 obj (mem w' !!! (length (mem w) + i)%nat) = x ∧
                 priority (mem w' !!! (length (mem w) + i)%nat) = p) ∧
              (∀ r, (r < length (mem w))%nat →
                    obj (mem w' !!! r) = obj (mem w !!! r) ∧
                    priority (mem w' !!! r) = priority (mem w !!! r)))
    noexn False.
Proof.
  revert w live. induction l as [|[x p] l IH]; intros w live HI Hleast; simpl.
  - wp_steps. split_and!; try done; lia.
  - wp_step1. eapply wp_mono; [by apply insert_min_is_least|simpl|done..].
    intros e w1 (-> & HI1 & Hleast1 & Hlen1 & Ho1 & Hp1 & Hold1).
    wp_step1. eapply wp_mono; [by apply IH|simpl|done..].
    intros rs w2 (-> & HI2 & Hleast2 & Hlen2 & Hnew2 & Hold2).
    wp_steps. rewrite Hlen1 in *.
    assert (reverse (seq (S (length (mem w))) (length l)) ++ length (mem w) :: live =
            reverse (length (mem w) :: seq (S (length (mem w))) (length l)) ++ live) as Heq.
    { rewrite reverse_cons. by rewrite <-app_assoc. }
    rewrite <-Heq.
    split_and!; try done; [lia| |].
    + intros [|i] y q Hi; simpl in Hi.
      * injection Hi as -> ->. rewrite Nat.add_0_r.
        destruct (Hold2 (length (mem w))) as [-> ->]; [lia|done].
      * replace (length (mem w) + S i)%nat with (S (length (mem w)) + i)%nat by lia.
        by apply Hnew2.
    + intros r Hr. destruct (Hold2 r) as [-> ->]; [lia|]. by apply Hold1.
Qed.

(** ** Several heaps over one arena *)

Lemma Inv_fresh_heap m : Inv (World m (mkHeap 0 None)) [].
Proof.
  split; simpl; [|by intros c p ?%elem_of_nil
                |exists []; split; [|done]; apply siblings_nil;
                   by intros c ?%elem_of_nil|done].
  split.
  - constructor.
  - by intros r ?%elem_of_nil.
  - by intros r ?%elem_of_nil.
  - by intros c p ?%elem_of_nil.
  - exists (λ _, 0%nat). by intros c p ?%elem_of_nil.
Qed.

(** a heap is not affected by writes to nodes that are not its own *)
Lemma Inv_frame m m' h live :
  Inv (World m h) live →
  (length m ≤ length m')%nat →
  (∀ r, r ∈ live → m' !!! r = m !!! r) →
  Inv (World m' h) live.
Proof.
  intros [HF HO (l & Hs & Hmin) Hsz] Hlen Heq. simpl in *.
  split; simpl; [| | |done].
  - apply (forest_frame m); [done|..].
    + intros c Hc. pose proof (forest_alloc _ _ HF c Hc). lia.
    + intros c Hc. by rewrite Heq.
    + intros c Hc _. by rewrite Heq.
  - apply (ordered_frame m); [done|intros c Hc; by rewrite Heq|].
    intros c q Hc Hcq. rewrite Heq by done.
    by rewrite (Heq q) by (by eapply forest_parent).
  - exists l. split; [|done].
    apply (siblings_frame m _ live); [done|..].
    + intros c Hc. rewrite Heq; [done|]. by eapply siblings_live.
    + intros c. split; intros [Hc Hp]; (split; [done|]); by rewrite Heq in *.
Qed.

Lemma inv_min_Some w live x :
  Inv w live → x ∈ live → ∃ head, _min (self w) = Some head ∧ head ∈ live.
Proof.
  intros HI Hx. destruct (_min (self w)) as [head|] eqn:Hmin.
  - exists head. split; [done|].
    destruct HI as [_ _ (l & Hs & Hl) _]. rewrite Hmin in Hl.
    by eapply siblings_live.
  - destruct HI as [HF _ (l & [_ Hm] & Hl) _]. rewrite Hmin in Hl. subst l.
    destruct (decide (live = [])) as [->|Hne]; [by apply elem_of_nil in Hx|].
    destruct (forest_has_root _ _ HF Hne) as (r & Hr & Hp).
    exfalso. by apply (elem_of_nil r), Hm.
Qed.

Lemma inv_empty w live : Inv w live → _min (self w) = None → live = [].
Proof.
  intros [HF _ (l & [_ Hm] & Hl) _] Hmin. rewrite Hmin in Hl. subst l.
  destruct (decide (live = [])) as [|Hne]; [done|].
  destruct (forest_has_root _ _ HF Hne) as (r & Hr & Hp).
  exfalso. by apply (elem_of_nil r), Hm.
Qed.

Lemma inv_nonempty w live r : Inv w live → _min (self w) = Some r → r ∈ live.
Proof.
  intros [_ _ (l & Hs & Hl) _] Hmin. rewrite Hmin in Hl.
  by eapply siblings_live.
Qed.

(** ** [merge] *)


Lemma forest_union m liveA liveB :
  Forest m liveA → Forest m liveB → (∀ x, x ∈ liveA → x ∉ liveB) →
  Forest m (liveA ++ liveB).
Proof.
  intros [HndA HalA HnoA HpaA [rkA HrkA]] [HndB HalB HnoB HpaB [rkB HrkB]] Hdisj.
  split.
  - apply NoDup_app. done.
  - intros r [?|?]%elem_of_app; auto.
  - intros p [Hp|Hp]%elem_of_app.
    + apply (nodeOk_frame m m liveA); [by apply HnoA|done| |done..].
      intros c. rewrite elem_of_app. split; [|tauto].
      intros [[?|Hc] Hcp]; [done|].
      pose proof (HpaB c p Hc Hcp) as HpB. by destruct (Hdisj p).
    + apply (nodeOk_frame m m liveB); [by apply HnoB|done| |done..].
      intros c. rewrite elem_of_app. split; [|tauto].
      intros [[Hc|?] Hcp]; [|done].
      pose proof (HpaA c p Hc Hcp) as HpA. by destruct (Hdisj p).
  - intros c p [Hc|Hc]%elem_of_app Hcp; rewrite elem_of_app.
    + pose proof (HpaA c p Hc Hcp). tauto.
    + pose proof (HpaB c p Hc Hcp). tauto.
  - exists (λ r, if decide (r ∈ liveA) then rkA r else rkB r).
    intros c p [Hc|Hc]%elem_of_app Hcp.
    + pose proof (HpaA c p Hc Hcp) as Hp. rewrite !decide_True by done.
      by apply HrkA.
    + pose proof (HpaB c p Hc Hcp) as Hp.
      rewrite !decide_False by (intros ?; by eapply Hdisj). by apply HrkB.
Qed.

Lemma ordered_union m liveA liveB :
  ordered m liveA → ordered m liveB → ordered m (liveA ++ liveB).
Proof.
  intros HA HB c p [Hc|Hc]%elem_of_app Hcp; [by apply HA|by apply HB].
Qed.


Lemma wp_merge heap w liveA liveB :
  Inv w liveA → Inv (World (mem w) heap) liveB →
  (∀ x, x ∈ liveA → x ∉ liveB) →
  wp (Fib.merge heap) w
    (λ h' w', h' = mkHeap 0 None ∧
              _size (self w') = _size (self w) + _size heap ∧
              _min (self w') = merged_min (_min (self w)) (_min heap) ∧
              Inv w' (liveA ++ liveB) ∧
              length (mem w') = length (mem w) ∧
              ∀ r, priority (mem w' !!! r) = priority (mem w !!! r) ∧
                   obj (mem w' !!! r) = obj (mem w !!! r) ∧
                   mark (mem w' !!! r) = mark (mem w !!! r) ∧
                   parent (mem w' !!! r) = parent (mem w !!! r))
    (λ e w', e = AttributeError ∧ w' = w ∧
             is_Some (_min (self w)) ∧ _min heap = None)
    False.
Proof.
  intros HA HB Hdisj. destruct w as [m [szA mnA]], heap as [szB mnB].
  unfold Fib.merge. simpl in *. wp_steps.
  destruct mnA as [m1|].
  2:{ (* the receiver is empty *)
    pose proof (inv_empty _ _ HA eq_refl) as ->. simpl.
    wp_steps. split_and!; try done.
    destruct HA as [_ _ _ HszA], HB as [HFB HOB HRB HszB]. simpl in *.
    split; simpl; [done..|lia]. }
  destruct HA as [HFA HOA HRA HszA], HB as [HFB HOB HRB HszB]. simpl in *.
  destruct (rootsOk_min _ _ _ HRA) as (l1 & Hs1).
  assert (m1 ∈ m1 :: l1) as Hm1 by apply list_elem_of_here.
  pose proof (siblings_right_in _ _ _ _ _ Hs1 Hm1) as Hr1.
  pose proof (forest_alloc _ _ HFA _ (siblings_live _ _ _ _ _ Hs1 Hm1)) as Ha1.
  pose proof (forest_alloc _ _ HFA _ (siblings_live _ _ _ _ _ Hs1 Hr1)) as Hat1.
  wp_steps.
  destruct mnB as [m2|]; simpl.
  2:{ (* the argument is empty *) split_and!; eauto. }
  destruct (rootsOk_min _ _ _ HRB) as (l2 & Hs2).
  assert (m2 ∈ m2 :: l2) as Hm2 by apply list_elem_of_here.
  pose proof (siblings_right_in _ _ _ _ _ Hs2 Hm2) as Hr2.
  pose proof (forest_alloc _ _ HFB _ (siblings_live _ _ _ _ _ Hs2 Hm2)) as Ha2.
  pose proof (forest_alloc _ _ HFB _ (siblings_live _ _ _ _ _ Hs2 Hr2)) as Hat2.
  pose proof (forest_union _ _ _ HFA HFB Hdisj) as HFU.
  pose proof (ordered_union _ _ _ HOA HOB) as HOU.
  assert (∀ x, x ∈ m1 :: l1 → x ∉ m2 :: l2) as Hdisj'.
  { intros x Hx1 Hx2. eapply Hdisj; by eapply siblings_live. }
  wp_steps.
  case_decide as Hne.
  - (* more than one root in [heap]: splice *)
    wp_steps.
    assert (m2 ≠ m1).
    { intros ->. by apply (Hdisj' m1). }
    mem_simpl. wp_steps.
    match goal with |- context [World ?mm _] => set (m' := mm) end.
    assert (length m' = length m) as Hlen by (unfold m'; by mem_simpl).
    assert (∀ r, m' !!! r = splice_at m m1 m2 r) as Hm'.
    { intros r. unfold m', splice_at. mem_simpl.
      assert (right (m !!! m1) ≠ m2).
      { intros Heq. apply (Hdisj' m2); [by rewrite <-Heq|done]. }
      assert (right (m !!! m2) ≠ m1).
      { intros Heq. apply (Hdisj' m1); [done|by rewrite <-Heq]. }
      assert (right (m !!! m1) ≠ right (m !!! m2)).
      { intros Heq. apply (Hdisj' (right (m !!! m1))); [done|by rewrite Heq]. }
      elem_eq. }
    clearbody m'.
    destruct l2 as [|c l2].
    { destruct Hs2 as [[_ Hring] _]. apply ring_singleton in Hring as [? _]. done. }
    assert (right (m !!! m2) = c) as Hc.
    { destruct Hs2 as [[_ Hring] _]. by destruct Hring as (? & _). }
    split_and!; simpl; [done|done|done| |done|by intros r; rewrite Hm'].
    split; simpl; [| | |rewrite length_app; lia].
    + apply (forest_frame m); [done|..].
      * intros x Hx. rewrite Hlen. by apply (forest_alloc _ _ HFU).
      * intros x _. by rewrite Hm'.
      * intros x Hx Hxp. rewrite Hm'. unfold splice_at, same_links. simpl.
        assert (∀ y, y ∈ m1 :: l1 ∨ y ∈ m2 :: c :: l2 → x ≠ y) as Hxr.
        { intros y [Hy|Hy] ->.
          - by rewrite (siblings_parent _ _ _ _ _ Hs1 Hy) in Hxp.
          - by rewrite (siblings_parent _ _ _ _ _ Hs2 Hy) in Hxp. }
        rewrite !decide_False; [done|apply Hxr; auto..].
    + apply (ordered_frame m); [done|intros x _; by rewrite Hm'|].
      intros x q _ _. by rewrite !Hm'.
    + exists (m1 :: c :: l2 ++ m2 :: l1). split; [|apply list_elem_of_here].
      destruct Hs1 as [[Hnd1 Hring1] Hmem1], Hs2 as [[Hnd2 Hring2] Hmem2].
      assert (NoDup ((m1 :: l1) ++ m2 :: c :: l2)) as Hnd.
      { apply NoDup_app. done. }
      assert (m1 :: c :: l2 ++ m2 :: l1 ≡ₚ (m1 :: l1) ++ m2 :: c :: l2) as Hperm.
      { simpl. f_equiv. rewrite (Permutation_app_comm l1 (m2 :: c :: l2)). simpl.
        rewrite <-Permutation_middle. apply Permutation_swap. }
      assert (c ∈ m2 :: c :: l2) as Hcin
        by apply list_elem_of_further, list_elem_of_here.
      assert (m1 ≠ c) by (intros ->; by apply (Hdisj' c)).
      assert (right (m !!! m1) ≠ m2)
        by (intros Heq; apply (Hdisj' m2); [by rewrite <-Heq|done]).
      assert (right (m !!! m1) ≠ c)
        by (intros Heq; apply (Hdisj' c); [by rewrite <-Heq|done]).
      split; [split|].
      * by rewrite Hperm.
      * apply (ring_splice _ _ _ _ m1 l1 m2 c l2 Hnd Hring1 Hring2);
          intros; cbv beta; rewrite ?Hm'; unfold splice_at; simpl;
          rewrite ?Hc; repeat case_decide; congruence.
      * intros x. rewrite Hperm, !elem_of_app, (Hmem1 x), (Hmem2 x), Hm'. simpl.
        tauto.
  - (* a single root in [heap] *)
    assert (m2 = right (m !!! m2)) as Hself.
    { by destruct (decide (m2 = right (m !!! m2))). }
    assert (l2 = []) as ->.
    { destruct Hs2 as [[Hnd2 Hring2] _].
      by apply (ring_self_loop _ _ m2 l2 Hnd2 Hring2). }
    apply (wp_insert_to_root_list_Some m2 m1); simpl; try done.
    intros m' Hlen Hm'. wp_steps.
    assert (m2 ≠ m1) as Hm21.
    { intros ->. by apply (Hdisj' m1). }
    assert (parent (m !!! m2) = None) as Hp2.
    { by apply (siblings_parent _ _ _ _ _ Hs2). }
    assert (∀ r, parent (m' !!! r) = parent (m !!! r)) as Hpar.
    { intros r. rewrite Hm'. unfold root_insert_at. simpl.
      case_decide; by subst. }
    split_and!; simpl;
      [done|done|done| |done|intros r; split_and!; [by rewrite Hm'..|apply Hpar]].
    split; simpl; [| | |rewrite length_app; lia].
    + apply (forest_frame m); [done|..].
      * intros x Hx. rewrite Hlen. by apply (forest_alloc _ _ HFU).
      * intros x _. split_and!; [done|by rewrite Hm'..].
      * intros x Hx Hxp. rewrite Hm'.
        unfold root_insert_at, ddl_insert_at, same_links. simpl.
        assert (∀ y, y ∈ m1 :: l1 ∨ y ∈ [m2] → x ≠ y) as Hxr.
        { intros y [Hy|Hy] ->.
          - by rewrite (siblings_parent _ _ _ _ _ Hs1 Hy) in Hxp.
          - by rewrite (siblings_parent _ _ _ _ _ Hs2 Hy) in Hxp. }
        rewrite !decide_False; [done|apply Hxr; auto..].
    + apply (ordered_frame m); [done|done|].
      intros x q _ _. by rewrite !Hm'.
    + exists (m1 :: m2 :: l1). split; [|apply list_elem_of_here].
      apply (siblings_insert m m' liveA); [done| | |].
      * intros [Hin _]. by apply (Hdisj m2 Hin), (siblings_live _ _ _ _ _ Hs2).
      * intros r. by rewrite Hm'.
      * intros x. rewrite Hpar, elem_of_app. split.
        -- intros [[Hx|Hx] Hxp]; [tauto|]. left.
           apply list_elem_of_singleton. by apply (siblings_in _ _ _ _ _ Hs2).
        -- intros [->|[Hx Hxp]]; [|tauto]. split; [|done]. right.
           by apply (siblings_live _ _ _ _ _ Hs2).
Qed.

(** ** [extract_min]: the children of the minimum are promoted *)

Lemma is_ring_insert (m m' : list Element) a y l :
  is_ring m (a :: l) → y ∉ a :: l →
  (∀ r, right (m' !!! r) = right (ddl_insert_at m a y r) ∧
        left (m' !!! r) = left (ddl_insert_at m a y r)) →
  is_ring m' (a :: y :: l).
Proof.
  intros [Hnd Hr] Hyl Hlinks.
  assert (y ≠ a) as Hya by (intros ->; apply Hyl, list_elem_of_here).
  assert (right (m !!! a) ≠ y) as Hra.
  { intros <-. apply Hyl.
    apply (ring_right_in _ _ _ a Hr), list_elem_of_here. }
  split.
  - pose proof Hnd as [Hna Hnd']%NoDup_cons.
    apply not_elem_of_cons in Hyl as [_ Hyl].
    apply NoDup_cons. split.
    + apply not_elem_of_cons. split; [congruence|done].
    + by apply NoDup_cons.
  - apply (ring_insert_after _ _ _ _ a y l Hnd Hyl Hr);
      intros; cbv beta; rewrite ?(proj1 (Hlinks _)), ?(proj2 (Hlinks _));
      unfold ddl_insert_at; simpl; repeat case_decide; congruence.
Qed.

Lemma is_ring_in_right (m : list Element) l x : is_ring m l → x ∈ l → right (m !!! x) ∈ l.
Proof. intros [_ Hr] Hx. by apply (ring_right_in _ _ _ _ Hr). Qed.

Lemma is_ring_in_left (m : list Element) l x : is_ring m l → x ∈ l → left (m !!! x) ∈ l.
Proof. intros [_ Hr] Hx. by apply (ring_left_in _ _ _ _ Hr). Qed.

Lemma promoted_refl (m : list Element) z :
  promoted m m z (child (m !!! z)) [].
Proof.
  split; [done|]. intros r.
  rewrite decide_False by (by intros ?%elem_of_nil).
  split_and!; try done. by case_decide; subst.
Qed.

Lemma promote_step (m m' m2 : list Element) live z zc rs c0 ks done x :
  siblings m live None (z :: rs) →
  siblings m live (Some z) (c0 :: ks) →
  promoted m m' z zc done →
  is_ring m' (z :: reverse done ++ rs) →
  (∀ d, d ∈ done → d ∈ c0 :: ks) → x ∈ c0 :: ks → x ∉ done →
  length m2 = length m' →
  (∀ r, m2 !!! r = root_insert_at (upd m' x (set_parent None)) z x r) →
  promoted m m2 z zc (done ++ [x]) ∧ is_ring m2 (z :: x :: reverse done ++ rs).
Proof.
  intros Hroots Hkids [Hlen Hfld] Hring Hdone Hxk Hxd Hl2 Hm2.
  assert (parent (m !!! z) = None) as Hzp.
  { apply (siblings_parent _ _ _ _ z Hroots), list_elem_of_here. }
  assert (∀ r, r ∈ c0 :: ks → parent (m !!! r) = Some z) as Hkp.
  { intros r Hr. by apply (siblings_parent _ _ _ _ r Hkids). }
  assert (∀ r, r ∈ rs → parent (m !!! r) = None) as Hrp.
  { intros r Hr. by apply (siblings_parent _ _ _ _ r Hroots), list_elem_of_further. }
  assert (x ∉ z :: reverse done ++ rs) as Hxring.
  { rewrite not_elem_of_cons, not_elem_of_app, elem_of_reverse.
    split_and!; [|done|].
    - intros ->. rewrite (Hkp z Hxk) in Hzp. done.
    - intros Hx. specialize (Hrp x Hx). by rewrite (Hkp x Hxk) in Hrp. }
  assert (∀ r, right (m2 !!! r) = right (ddl_insert_at m' z x r) ∧
               left (m2 !!! r) = left (ddl_insert_at m' z x r)) as Hlinks.
  { intros r. rewrite Hm2. unfold root_insert_at, ddl_insert_at. simpl.
    by mem_simpl. }
  split; [|by apply (is_ring_insert m')].
  split; [lia|]. intros r.
  destruct (Hfld r) as (Hp & Hl & Hc & Hd & Hpr & Ho & Hmk).
  rewrite Hm2. unfold root_insert_at, ddl_insert_at. simpl. mem_simpl.
  split_and!; try done.
  - destruct (decide (r = x)) as [->|Hrx].
    + rewrite decide_True; [done|]. apply elem_of_app. right. apply list_elem_of_here.
    + mem_simpl. rewrite Hp.
      destruct (decide (r ∈ done)) as [Hrd|Hrd].
      * rewrite decide_True; [done|]. apply elem_of_app. by left.
      * rewrite decide_False; [done|].
        rewrite elem_of_app, list_elem_of_singleton. tauto.
  - intros Hrd Hrpar. rewrite not_elem_of_app, list_elem_of_singleton in Hrd.
    destruct Hrd as [Hrd Hrx]. destruct (Hl Hrd Hrpar) as [Hl1 Hl2'].
    pose proof (is_ring_in_right _ _ z Hring (list_elem_of_here _ _)) as Htail.
    assert (r ≠ z) by congruence.
    assert (r ≠ right (m' !!! z)) as Hrt.
    { intros Heq. rewrite <- Heq in Htail.
      apply elem_of_cons in Htail as [Ht|[Ht|Ht]%elem_of_app].
      - done.
      - by rewrite elem_of_reverse in Ht.
      - by apply Hrpar, Hrp. }
    split; simpl; mem_simpl;
      rewrite ?decide_False by done; by mem_simpl.
Qed.


Lemma promote_once (m m' : list Element) live z rs c0 ks s done x f
    (Q : unit → world → Prop) :
  (∀ r, r ∈ live → (r < length m)%nat) →
  siblings m live None (z :: rs) →
  siblings m live (Some z) (c0 :: ks) →
  _min s = Some z →
  promoted m m' z (Some c0) done →
  is_ring m' (z :: reverse done ++ rs) →
  (∀ d, d ∈ done → d ∈ c0 :: ks) → x ∈ c0 :: ks → x ∉ done →
  (∀ m2, promoted m m2 z (Some c0) (done ++ [x]) →
         is_ring m2 (z :: x :: reverse done ++ rs) →
         wp (if decide (Some (right (m !!! x)) = Some c0)
             then modify z (set_child None)
             else Fib.promote_children f z (right (m !!! x)))
            (World m2 s) Q noexn False) →
  wp (Fib.promote_children (S f) z x) (World m' s) Q noexn False.
Proof.
  intros Halloc Hroots Hkids Hmin Hprom Hring Hdk Hxk Hxd HQ.
  pose proof Hprom as [Hlen Hfld].
  assert (parent (m !!! x) = Some z) as Hxp
    by (by apply (siblings_parent _ _ _ _ x Hkids)).
  assert (x < length m')%nat as Hxa.
  { rewrite Hlen. apply Halloc. by apply (siblings_live _ _ _ _ x Hkids). }
  assert (z < length m')%nat as Hza.
  { rewrite Hlen. apply Halloc, (siblings_live _ _ _ _ z Hroots), list_elem_of_here. }
  assert (right (m' !!! z) < length m')%nat as Hzr.
  { pose proof (is_ring_in_right _ _ z Hring (list_elem_of_here _ _)) as Hin.
    rewrite Hlen. apply Halloc.
    apply elem_of_cons in Hin as [->|[Hin|Hin]%elem_of_app].
    - apply (siblings_live _ _ _ _ z Hroots), list_elem_of_here.
    - rewrite elem_of_reverse in Hin.
      by apply (siblings_live _ _ _ _ _ Hkids), Hdk.
    - by apply (siblings_live _ _ _ _ _ Hroots), list_elem_of_further. }
  assert (right (m' !!! x) = right (m !!! x)) as Hxr.
  { destruct (Hfld x) as (_ & Hl & _). apply Hl; [done|congruence]. }
  simpl. do 4 wp_step1. rewrite Hxr. apply wp_bind.
  apply (wp_insert_to_root_list_Some x z); simpl; mem_simpl; try done.
  intros m2 Hl2 Hm2. simpl in Hl2, Hm2. rewrite ?upd_length in Hl2.
  destruct (promote_step m m' m2 live z (Some c0) rs c0 ks done x) as [Hp2 Hr2];
    try done.
  wp_steps.
  - pose proof Hp2 as [_ Hf2]. destruct (Hf2 z) as (_ & _ & -> & _).
    rewrite (decide_True (P := z = z)) by done. by apply HQ.
Qed.

Lemma promoted_finish (m m' : list Element) z c0 done :
  (z < length m')%nat →
  promoted m m' z (Some c0) done →
  promoted m (upd m' z (set_child None)) z None done.
Proof.
  intros Hz [Hlen Hfld]. split; [by mem_simpl|]. intros r.
  destruct (Hfld r) as (Hp & Hl & Hc & Hd & Hpr & Ho & Hmk).
  unfold same_links. mem_simpl. split_and!; try done.
  destruct (decide (r = z)) as [->|Hrz]; mem_simpl; [done|].
  by rewrite Hc.
Qed.

Lemma promote_loop (m : list Element) live z rs c0 ks s :
  (∀ r, r ∈ live → (r < length m)%nat) →
  siblings m live None (z :: rs) →
  siblings m live (Some z) (c0 :: ks) →
  _min s = Some z →
  ∀ rem done x m' fuel,
    c0 :: ks = done ++ x :: rem →
    promoted m m' z (Some c0) done →
    is_ring m' (z :: reverse done ++ rs) →
    (length rem < fuel)%nat →
    wp (Fib.promote_children fuel z x) (World m' s)
      (λ _ w', self w' = s ∧ promoted m (mem w') z None (c0 :: ks) ∧
               is_ring (mem w') (z :: reverse (c0 :: ks) ++ rs))
      noexn False.
Proof.
  intros Halloc Hroots Hkids Hmin.
  induction rem as [|y rem IH]; intros done x m' fuel Heq Hprom Hring Hfuel;
    (destruct fuel as [|f]; [simpl in Hfuel; lia|]).
  all: assert (x ∈ c0 :: ks) as Hxk
    by (rewrite Heq; apply elem_of_app; right; apply list_elem_of_here).
  all: assert (∀ d, d ∈ done → d ∈ c0 :: ks) as Hdk
    by (intros d Hd; rewrite Heq; apply elem_of_app; by left).
  all: pose proof Hkids as [[Hnd Hrg] _].
  all: assert (x ∉ done) as Hxd
    by (rewrite Heq in Hnd; apply NoDup_app in Hnd as (_ & Hnd & _);
        intros Hx; apply (Hnd x Hx), list_elem_of_here).
  all: pose proof Hrg as Hnext; rewrite Heq in Hnext;
    apply ring_next in Hnext; simpl in Hnext.
  all: apply (promote_once m m' live z rs c0 ks s done x f); try done.
  all: intros m2 Hp2 Hr2; rewrite Hnext.
  - assert (hd x done = c0) as ->.
    { destruct done; simpl in *; congruence. }
    rewrite decide_True by done.
    assert (z < length m2)%nat as Hza.
    { destruct Hp2 as [-> _].
      apply Halloc, (siblings_live _ _ _ _ z Hroots), list_elem_of_here. }
    wp_steps.
    rewrite Heq. split; [done|]. split.
    + by apply (promoted_finish _ _ _ c0).
    + rewrite reverse_app. simpl.
      destruct Hr2 as [Hnd2 Hrg2]. split; [done|].
      eapply ring_frame; [exact Hrg2|]. intros r _. simpl. by mem_simpl.
  - assert (y ≠ c0) as Hy.
    { assert (y ∈ ks) as Hyk.
      { destruct done as [|d done]; simpl in Heq; inversion Heq as [[Hc Hk]].
        - apply list_elem_of_here.
        - apply elem_of_app. right. apply list_elem_of_further, list_elem_of_here. }
      apply NoDup_cons in Hnd as [Hnd _]. congruence. }
    rewrite decide_False by congruence.
    apply (IH (done ++ [x])); try done.
    + by rewrite <- app_assoc.
    + by rewrite reverse_app.
    + simpl in Hfuel. lia.
Qed.

(** the state in which [extract_min] calls [_consolidate]: the minimum
    [z] has left the root list, its children have joined it *)
Lemma extract_unlink (m m1 m2 : list Element) live live' z rs kids b l :
  Forest m live → ordered m live → Fibo m live None →
  siblings m live None (z :: rs) → siblings m live (Some z) kids →
  promoted m m1 z None kids → is_ring m1 (z :: b :: l) →
  b :: l = reverse kids ++ rs →
  length m2 = length m1 → (∀ r, m2 !!! r = remove_at m1 z r) →
  live ≡ₚ z :: live' →
  Split m2 live' (b :: l) [] ∧
  (∀ r, priority (m2 !!! r) = priority (m !!! r) ∧ obj (m2 !!! r) = obj (m !!! r) ∧
        mark (m2 !!! r) = mark (m !!! r)) ∧
  (∀ r, parent (m2 !!! r) = if decide (r ∈ kids) then None else parent (m !!! r)).
Proof.
  intros HF Ho HL Hroots Hkids [Hlen1 Hprom] Hring HR Hlen2 Hm2 Hperm.
  assert (∀ x, x ∈ live ↔ x = z ∨ x ∈ live') as Hlive.
  { intros x. by rewrite Hperm, elem_of_cons. }
  assert (NoDup (z :: live')) as Hnd.
  { rewrite <- Hperm. apply (forest_nodup _ _ HF). }
  apply NoDup_cons in Hnd as [Hzl Hnd].
  assert (parent (m !!! z) = None) as Hzp.
  { apply (siblings_parent _ _ _ _ z Hroots), list_elem_of_here. }
  assert (∀ r, r ∈ kids ↔ r ∈ live ∧ parent (m !!! r) = Some z) as Hk.
  { intros r. apply Hkids. }
  assert (∀ r, r ∈ z :: rs ↔ r ∈ live ∧ parent (m !!! r) = None) as Hr.
  { intros r. apply Hroots. }
  assert (∀ r, r ∈ z :: b :: l → r ∈ live ∧ (r ∈ kids ∨ parent (m !!! r) = None))
    as Hin.
  { intros r [->|Hr']%elem_of_cons.
    - split; [|by right]. apply Hlive. by left.
    - rewrite HR, elem_of_app, elem_of_reverse in Hr'. destruct Hr' as [Hr'|Hr'].
      + split; [by apply Hk|by left].
      + assert (r ∈ z :: rs) as Hr2 by by apply list_elem_of_further.
        apply Hr in Hr2 as [? ?]. by split; [|right]. }
  destruct (is_ring_neighbours _ _ _ _ Hring) as (_ & _ & _ & Hleft).
  pose proof (is_ring_in_right _ _ z Hring (list_elem_of_here _ _)) as Hright.
  assert (∀ r, parent (m2 !!! r) =
               if decide (r ∈ kids) then None else parent (m !!! r)) as Hpar.
  { intros r. rewrite Hm2. unfold remove_at. simpl. apply Hprom. }
  assert (∀ r, r ∉ kids → parent (m !!! r) ≠ None →
               same_links (m !!! r) (m2 !!! r)) as Hlinks.
  { intros r Hrk Hrp. destruct (Hprom r) as (_ & Hl & _).
    destruct (Hl Hrk Hrp) as [Hl1 Hl2].
    assert (∀ x, x ∈ z :: b :: l → r ≠ x) as Hne.
    { intros x Hx Heq. subst x. destruct (Hin r Hx) as [_ [?|?]]; done. }
    rewrite Hm2. unfold remove_at, same_links. simpl.
    rewrite !decide_False; [done|..].
    - by apply Hne.
    - apply Hne, list_elem_of_here.
    - apply Hne. by apply list_elem_of_further.
    - apply Hne, list_elem_of_here. }
  assert (∀ c p, p ∈ live' → (c ∈ live' ∧ parent (m2 !!! c) = Some p) ↔
                             (c ∈ live ∧ parent (m !!! c) = Some p)) as Hmem.
  { intros c p Hp. rewrite Hpar, Hlive. assert (p ≠ z) by congruence.
    destruct (decide (c ∈ kids)) as [Hck|Hck].
    - apply Hk in Hck as [? Hcp]. rewrite Hcp. split; [by intros [_ ?]|].
      intros [_ ?]. congruence.
    - split; [tauto|]. intros [[->|?] Hcp]; [congruence|done]. }
  split_and!; [split| |done].
  - apply (forest_transfer m m2 live live'); try done.
    + intros r Hr'. apply Hlive. by right.
    + congruence.
    + intros c p Hc. rewrite Hpar. case_decide as Hck; [done|]. intros Hcp.
      assert (c ∈ live) as Hcl by (apply Hlive; by right).
      pose proof (forest_parent _ _ HF c p Hcl Hcp) as [->|?]%Hlive; [|done].
      destruct Hck. by apply Hk.
    + intros c p Hc Hp Hcp. apply Hlinks; [|congruence].
      intros [_ Hcz]%Hk. congruence.
    + intros p Hp. rewrite Hm2. unfold remove_at. simpl.
      destruct (Hprom p) as (_ & _ & -> & -> & _).
      rewrite decide_False by congruence. done.
  - apply (ordered_transfer m m2 live live'); [done|..].
    + intros c p Hc. rewrite Hpar. case_decide; [done|]. intros Hcp.
      split; [|done]. apply Hlive. by right.
    + intros r. rewrite Hm2. unfold remove_at. simpl. apply Hprom.
  - apply (fibo_transfer m m2 live live'); try done.
    + intros r Hr'. apply Hlive. by right.
    + intros c _. unfold edeg. rewrite Hm2. unfold remove_at. simpl.
      by destruct (Hprom c) as (_ & _ & _ & -> & _ & _ & ->).
  - rewrite app_nil_r. destruct Hring as [Hnd' _].
    by apply NoDup_cons in Hnd' as [_ ?].
  - intros c. rewrite app_nil_r, Hpar.
    destruct Hring as [Hnd' _]. apply NoDup_cons in Hnd' as [Hzr _].
    split.
    + intros Hc. destruct (Hin c (list_elem_of_further _ _ _ Hc)) as [Hcl Hc'].
      assert (c ≠ z) by (intros ->; done).
      apply Hlive in Hcl as [?|Hcl]; [done|]. split; [done|].
      case_decide; [done|]. by destruct Hc'.
    + intros [Hcl Hcp]. rewrite HR, elem_of_app, elem_of_reverse.
      case_decide as Hck; [by left|]. right.
      assert (c ∈ z :: rs) as [->|?]%elem_of_cons; [|done..].
      apply Hr. split; [|done]. apply Hlive. by right.
  - apply (is_ring_remove m1 m2 z b l Hring). intros r. by rewrite Hm2.
  - by intros r ?%elem_of_nil.
  - intros r. rewrite Hm2. unfold remove_at. simpl.
    by destruct (Hprom r) as (_ & _ & _ & _ & -> & -> & ->).
Qed.

(** ** [_heap_link] on two roots *)

Lemma link_fields (m m' : list Element) y x :
  (∀ r, m' !!! r = link_at m y x r) →
  ∀ r,
    parent (m' !!! r) = (if decide (r = y) then Some x else parent (m !!! r)) ∧
    degree (m' !!! r) =
      (if decide (r = x) then degree (m !!! x) + 1 else degree (m !!! r)) ∧
    mark (m' !!! r) = (if decide (r = y) then false else mark (m !!! r)) ∧
    child (m' !!! r) =
      (if decide (r = x ∧ child (m !!! x) = None) then Some y else child (m !!! r)) ∧
    priority (m' !!! r) = priority (m !!! r) ∧
    obj (m' !!! r) = obj (m !!! r) ∧
    right (m' !!! r) =
      match child (m !!! x) with
      | Some c => right (ddl_insert_at m c y r)
      | None => right (m !!! r)
      end ∧
    left (m' !!! r) =
      match child (m !!! x) with
      | Some c => left (ddl_insert_at m c y r)
      | None => left (m !!! r)
      end.
Proof.
  intros Hm' r. rewrite Hm'. unfold link_at, ddl_insert_at.
  destruct (child (m !!! x)) as [c|] eqn:Hc; simpl.
  - rewrite (decide_False (P := r = x ∧ Some c = None)) by (by intros [_ ?]).
    by split_and!.
  - destruct (decide (r = x)) as [->|Hrx]; simpl.
    + rewrite (decide_True (P := x = x ∧ None = None)) by done. by split_and!.
    + rewrite (decide_False (P := r = x ∧ None = None)) by (by intros [? _]).
      by split_and!.
Qed.

Section link.
Context (m m' : list Element) (live : list ref) (x y : ref).
Hypothesis HF : Forest m live.
Hypothesis Hx : x ∈ live.
Hypothesis Hy : y ∈ live.
Hypothesis Hxy : x ≠ y.
Hypothesis Hxp : parent (m !!! x) = None.
Hypothesis Hyp : parent (m !!! y) = None.
Hypothesis Hyr : right (m !!! y) = y.
Hypothesis Hyl : left (m !!! y) = y.
Hypothesis Hlen : length m' = length m.
Hypothesis Hm' : ∀ r, m' !!! r = link_at m y x r.

(** the links of a node that is not a child of [x] stay, [y] apart *)
Lemma link_links r :
  r ≠ y → parent (m !!! r) ≠ Some x → same_links (m !!! r) (m' !!! r).
Proof.
  intros Hry Hrp.
  destruct (link_fields m m' y x Hm' r) as (_ & _ & _ & _ & _ & _ & Hr & Hl).
  destruct (forest_nodes _ _ HF x Hx) as (l & Hs & _ & Hc).
  unfold same_links. rewrite Hr, Hl.
  destruct (child (m !!! x)) as [c|]; [|done].
  assert (r ≠ c) by (intros ->; by apply Hrp, (siblings_parent _ _ _ _ c Hs)).
  assert (r ≠ right (m !!! c)).
  { intros ->. apply Hrp, (siblings_parent _ _ _ _ _ Hs).
    by apply (siblings_right_in _ _ _ _ _ Hs). }
  unfold ddl_insert_at. simpl. by rewrite !decide_False by done.
Qed.

Lemma link_members c p :
  p ≠ x →
  (c ∈ live ∧ parent (m' !!! c) = Some p) ↔ (c ∈ live ∧ parent (m !!! c) = Some p).
Proof.
  intros Hpx. destruct (link_fields m m' y x Hm' c) as (-> & _).
  case_decide; [subst c|done]. rewrite Hyp. split; intros [_ ?]; congruence.
Qed.

Lemma link_members_x c :
  (c ∈ live ∧ parent (m' !!! c) = Some x) ↔
  c = y ∨ (c ∈ live ∧ parent (m !!! c) = Some x).
Proof.
  destruct (link_fields m m' y x Hm' c) as (-> & _).
  case_decide; [subst c|].
  - split; [by left|done].
  - split; [by right|]. by intros [?|?].
Qed.

Lemma forest_link : Forest m' live.
Proof.
  pose proof HF as [Hnd Hal Hno Hpa [rk Hrk]].
  split; [done|by rewrite Hlen| | |].
  - intros p Hp. destruct (decide (p = x)) as [->|Hpx].
    + destruct (Hno x Hx) as (l & Hs & Hd & Hc).
      destruct (link_fields m m' y x Hm' x) as (_ & Hdx & _ & Hcx & _).
      rewrite decide_True in Hdx by done.
      destruct (child (m !!! x)) as [c|] eqn:Hch.
      * destruct (siblings_rotate _ _ _ _ c Hs Hc) as (l' & Hperm & Hs').
        exists (c :: y :: l'). split_and!.
        -- apply (siblings_insert m m' live live (Some x) c y l' Hs').
           ++ intros [_ ?]. congruence.
           ++ intros r.
              destruct (link_fields m m' y x Hm' r) as (_&_&_&_&_&_& Hr & Hl).
              by rewrite Hch in Hr, Hl.
           ++ apply link_members_x.
        -- rewrite Hdx, Hd, <- Hperm. simpl. lia.
        -- rewrite Hcx, decide_False by (by intros [_ ?]).
           apply list_elem_of_here.
      * subst l. exists [y]. split_and!.
        -- split.
           ++ apply is_ring_singleton.
              destruct (link_fields m m' y x Hm' y) as (_&_&_&_&_&_& Hr & Hl).
              rewrite Hch in Hr, Hl. split; congruence.
           ++ intros c. rewrite list_elem_of_singleton, link_members_x.
              split; [by left|]. intros [?|Hc']; [done|].
              by apply Hs, elem_of_nil in Hc'.
        -- rewrite Hdx, Hd. simpl. lia.
        -- rewrite Hcx, decide_True by done. apply list_elem_of_here.
    + apply (nodeOk_frame m m' live live p); [by apply Hno|..].
      * intros c Hc Hcp. apply link_links; congruence.
      * intros c. by apply link_members.
      * destruct (link_fields m m' y x Hm' p) as (_ & -> & _).
        by rewrite decide_False.
      * destruct (link_fields m m' y x Hm' p) as (_ & _ & _ & -> & _).
        by rewrite decide_False by (by intros [? _]).
  - intros c p Hc. destruct (link_fields m m' y x Hm' c) as (-> & _).
    case_decide; [congruence|]. by apply Hpa.
  - exists (λ r, if decide (r = x) then S (rk x + rk y) else rk r).
    intros c p Hc. destruct (link_fields m m' y x Hm' c) as (-> & _).
    case_decide as Hcy.
    + intros [= <-]. subst c. rewrite decide_False, decide_True by done. lia.
    + intros Hcp. rewrite (decide_False (P := c = x)) by congruence.
      specialize (Hrk c p Hc Hcp). case_decide; subst; lia.
Qed.

Lemma ordered_link :
  ordered m live → prio_le (priority (m !!! x)) (priority (m !!! y)) →
  ordered m' live.
Proof.
  intros Ho Hle c p Hc.
  destruct (link_fields m m' y x Hm' c) as (-> & _ & _ & _ & -> & _).
  destruct (link_fields m m' y x Hm' p) as (_ & _ & _ & _ & -> & _).
  case_decide; [|by apply Ho]. by intros [= <-]; subst c.
Qed.

Lemma link_edeg c : c ≠ x → c ≠ y → edeg (m' !!! c) = edeg (m !!! c).
Proof.
  intros Hcx Hcy. unfold edeg.
  destruct (link_fields m m' y x Hm' c) as (_ & -> & -> & _).
  by rewrite !decide_False.
Qed.

Lemma fibo_link :
  Fibo m live None → degree (m !!! x) = degree (m !!! y) → Fibo m' live None.
Proof.
  intros HL Hd p Hp. destruct (HL p Hp) as (ys & Hnd & Hys & Hdeg).
  assert (∀ c, c ∈ ys → c ≠ x ∧ c ≠ y) as Hne.
  { intros c [_ Hc]%Hys. split; intros ->; congruence. }
  destruct (decide (p = x)) as [->|Hpx].
  - exists (ys ++ [y]). split_and!.
    + apply NoDup_app. split_and!; [done| |apply NoDup_singleton].
      intros c Hc ->%list_elem_of_singleton. by destruct (Hne y Hc).
    + intros c. rewrite elem_of_app, list_elem_of_singleton, link_members_x, (Hys c).
      tauto.
    + intros i c Hi. rewrite decide_False by done.
      apply lookup_app_Some in Hi as [Hi|[Hi1 Hi2]].
      * pose proof (list_elem_of_lookup_2 _ _ _ Hi) as Hc.
        rewrite link_edeg by by apply Hne. specialize (Hdeg i c Hi).
        by rewrite decide_False in Hdeg.
      * apply list_lookup_singleton_Some in Hi2 as [Hi2 <-].
        pose proof (forest_children_length m live x ys HF Hx Hnd Hys) as Hdx.
        unfold edeg.
        destruct (link_fields m m' y x Hm' y) as (_ & -> & -> & _).
        rewrite decide_False, decide_True by done. lia.
  - exists ys. split_and!; [done| |].
    + intros c. rewrite (Hys c). symmetry. by apply link_members.
    + intros i c Hi. pose proof (list_elem_of_lookup_2 _ _ _ Hi) as Hc.
      rewrite link_edeg by by apply Hne. by apply Hdeg.
Qed.
End link.

Lemma split_link (m m' : list Element) live x y rest :
  Split m live [] (x :: y :: rest) →
  degree (m !!! x) = degree (m !!! y) →
  prio_le (priority (m !!! x)) (priority (m !!! y)) →
  length m' = length m → (∀ r, m' !!! r = link_at m y x r) →
  Split m' live [] (x :: rest).
Proof.
  intros [HF Ho HL Hnd Hmem _ Hloose] Hd Hle Hlen Hm'. simpl in *.
  pose proof Hnd as [Hxn [Hyn Hnd']%NoDup_cons]%NoDup_cons.
  assert (x ≠ y) as Hxy by (intros ->; apply Hxn, list_elem_of_here).
  destruct (proj1 (Hmem x) (list_elem_of_here _ _)) as [Hx Hxp].
  destruct (proj1 (Hmem y) (list_elem_of_further _ _ _ (list_elem_of_here _ _)))
    as [Hy Hyp].
  destruct (Hloose y (list_elem_of_further _ _ _ (list_elem_of_here _ _)))
    as [Hyr Hyl].
  split; simpl.
  - by apply (forest_link m m' live x y).
  - by apply (ordered_link m m' live x y).
  - by apply (fibo_link m m' live x y).
  - apply NoDup_cons. split; [|done]. intros Hin. apply Hxn. by apply list_elem_of_further.
  - intros c. destruct (link_fields m m' y x Hm' c) as (-> & _).
    specialize (Hmem c). rewrite !elem_of_cons in Hmem. rewrite elem_of_cons.
    case_decide; [subst c|tauto].
    split; [|by intros [_ ?]]. intros [->|?]; done.
  - split; [constructor|done].
  - intros r Hr.
    assert (r ∈ x :: y :: rest) as Hr'.
    { apply elem_of_cons in Hr as [->|?]; [apply list_elem_of_here|].
      by do 2 apply list_elem_of_further. }
    destruct (link_links m m' live x y HF Hx Hm' r) as [-> ->].
    + intros ->. apply elem_of_cons in Hr as [?|?]; done.
    + apply Hmem in Hr' as [_ ->]. done.
    + by apply Hloose.
Qed.

(** ** [_consolidate] *)

#[global] Arguments Fib._insert_to_root_list : simpl never.
#[global] Arguments Fib._remove_from_root_list : simpl never.
#[global] Arguments Fib._heap_link : simpl never.

Lemma relinked_remove (m m' : list Element) z :
  parent (m !!! z) = None → parent (m !!! left (m !!! z)) = None →
  parent (m !!! right (m !!! z)) = None →
  length m' = length m → (∀ r, m' !!! r = remove_at m z r) → relinked m m'.
Proof.
  intros Hz Hl Hr Hlen Hm'. split; [done|]. intros r. rewrite Hm'.
  unfold remove_at, same_links. simpl. split_and!; try done.
  intros Hp. rewrite !decide_False; [done|congruence..].
Qed.

Lemma relinked_root_insert (m m' : list Element) head y :
  parent (m !!! y) = None → parent (m !!! head) = None →
  parent (m !!! right (m !!! head)) = None →
  length m' = length m → (∀ r, m' !!! r = root_insert_at m head y r) →
  relinked m m'.
Proof.
  intros Hy Hh Hr Hlen Hm'. split; [done|]. intros r. rewrite Hm'.
  unfold root_insert_at, ddl_insert_at, same_links. simpl. split_and!; try done.
  - case_decide; congruence.
  - intros Hp. rewrite !decide_False; [done|congruence..].
Qed.

Lemma split_ring_alloc m live ring loose r :
  Split m live ring loose → r ∈ ring →
  (r < length m)%nat ∧ parent (m !!! r) = None ∧
  (right (m !!! r) < length m)%nat ∧ (left (m !!! r) < length m)%nat ∧
  parent (m !!! right (m !!! r)) = None ∧ parent (m !!! left (m !!! r)) = None.
Proof.
  intros HS Hr.
  assert (∀ x, x ∈ ring → (x < length m)%nat ∧ parent (m !!! x) = None) as H.
  { intros x Hx. split.
    - apply (split_alloc _ _ _ _ _ HS), elem_of_app. by left.
    - apply (split_parent _ _ _ _ _ HS), elem_of_app. by left. }
  pose proof (is_ring_in_right _ _ r (split_ring _ _ _ _ HS) Hr) as Hrr.
  pose proof (is_ring_in_left _ _ r (split_ring _ _ _ _ HS) Hr) as Hrl.
  destruct (H r Hr), (H _ Hrr), (H _ Hrl). by split_and!.
Qed.

Lemma perm_rotate_last (l1 l2 : list ref) r : l1 ++ l2 ++ [r] ≡ₚ r :: l1 ++ l2.
Proof. rewrite app_assoc. symmetry. apply Permutation_cons_append. Qed.

(** the [while self._min] loop takes the ring apart *)
Lemma wp_collect_roots live : ∀ fuel ring loose m s,
  Split m live ring loose →
  match _min s with None => ring = [] | Some r => r ∈ ring end →
  (length ring < fuel)%nat →
  wp (Fib.collect_roots fuel loose) (World m s)
    (λ q w', Split (mem w') live [] q ∧ q ≡ₚ ring ++ loose ∧
             relinked m (mem w') ∧
             _min (self w') = None ∧ _size (self w') = _size s)
    noexn False.
Proof.
  induction fuel as [|f IH]; intros ring loose m s HS Hmin Hfuel; [lia|].
  simpl. wp_steps. destruct (_min s) as [r|] eqn:Hm.
  - destruct (split_ring_alloc _ _ _ _ r HS Hmin)
      as (Hra & Hrp & Hrra & Hrla & Hrrp & Hrlp).
    destruct (is_ring_rotate _ _ r (split_ring _ _ _ _ HS) Hmin)
      as (l' & Hperm & Hring).
    apply wp_bind. destruct l' as [|b l].
    + apply is_ring_singleton in Hring as [Hrr Hrl].
      assert (length ring = 1%nat) as Hlr by by rewrite <- Hperm.
      apply wp_remove_last; simpl; try done.
      eapply wp_mono; [apply (IH [] (loose ++ [r]))|..]; simpl; try done.
      * apply (split_relinked m m live ring loose); [done|apply relinked_refl|..].
        -- rewrite <- Hperm. apply (perm_rotate_last []).
        -- split; [constructor|done].
        -- intros x [Hx| ->%list_elem_of_singleton]%elem_of_app; [|done].
           by apply (split_loose _ _ _ _ HS).
      * lia.
      * intros q w' (HS' & Hq & Hre & Hmin' & Hsz). split_and!; try done.
        rewrite Hq, <- Hperm. apply (perm_rotate_last []).
    + destruct (is_ring_neighbours _ _ _ _ Hring) as (Hrb & Hrne & Hlne & _).
      apply wp_remove_from_root_list; simpl; try done.
      intros m' Hlen Hm'. rewrite Hm, decide_True by done.
      destruct (is_ring_remove m m' r b l Hring) as (Hring' & Hrr' & Hrl').
      { intros x. by rewrite Hm'. }
      assert (relinked m m') as Hre by by apply (relinked_remove m m' r).
      assert (length ring = S (S (length l))) as Hlr by by rewrite <- Hperm.
      eapply wp_mono; [apply (IH (b :: l) (loose ++ [r]))|..]; simpl; try done.
      * apply (split_relinked m m' live ring loose); [done..| |done|].
        -- rewrite <- Hperm. apply (perm_rotate_last (b :: l)).
        -- intros x [Hx| ->%list_elem_of_singleton]%elem_of_app; [|done].
           destruct (split_loose _ _ _ _ HS x Hx) as [Hxr Hxl].
           assert (∀ c, c ∈ ring → x ≠ c) as Hne.
           { intros c Hc ->. pose proof (split_nodup _ _ _ _ HS) as Hnd.
             apply NoDup_app in Hnd as (_ & Hnd & _). by apply (Hnd c). }
           rewrite Hm'. unfold remove_at. simpl.
           rewrite !decide_False; [done|..].
           ++ apply Hne. by apply (is_ring_in_right _ _ _ (split_ring _ _ _ _ HS)).
           ++ by apply Hne.
           ++ apply Hne. by apply (is_ring_in_left _ _ _ (split_ring _ _ _ _ HS)).
           ++ by apply Hne.
      * rewrite Hrb. apply list_elem_of_here.
      * lia.
      * intros q w' (HS' & Hq & Hre' & Hmin' & Hsz). split_and!; try done.
        -- rewrite Hq, <- Hperm. apply (perm_rotate_last (b :: l)).
        -- by eapply relinked_trans.
  - subst ring. wp_steps. split_and!; try done.
Qed.

Lemma least_in_relinked m m' l r : relinked m m' → least_in m l r → least_in m' l r.
Proof.
  intros [_ H] [Hr Hl]. split; [done|]. intros x Hx.
  destruct (H r) as (_ & _ & _ & _ & -> & _).
  destruct (H x) as (_ & _ & _ & _ & -> & _). by apply Hl.
Qed.

Lemma least_in_perm m l l' r : l ≡ₚ l' → least_in m l r → least_in m l' r.
Proof.
  intros Hp [Hr Hl]. split; [by rewrite <- Hp|].
  intros x Hx. apply Hl. by rewrite Hp.
Qed.

(** the [for elem in array] loop links the trees of the array in a ring *)
Lemma wp_rebuild_roots live : ∀ array ring m s,
  Split m live ring (entries array) →
  match _min s with None => ring = [] | Some r => least_in m ring r end →
  wp (Fib.rebuild_roots array) (World m s)
    (λ _ w', ∃ ring', ring' ≡ₚ ring ++ entries array ∧
             Split (mem w') live ring' [] ∧ relinked m (mem w') ∧
             match _min (self w') with
             | None => ring' = []
             | Some r => least_in (mem w') ring' r
             end ∧
             _size (self w') = _size s)
    noexn False.
Proof.
  induction array as [|[e|] array IH]; intros ring m s HS Hmin; simpl.
  - wp_steps. exists ring. simpl in HS. rewrite app_nil_r.
    split_and!; try done.
  - change (entries (Some e :: array)) with (e :: entries array) in *.
    assert (e ∈ ring ++ e :: entries array) as He.
    { apply elem_of_app. right. apply list_elem_of_here. }
    pose proof (split_alloc _ _ _ _ e HS He) as Hea.
    pose proof (split_parent _ _ _ _ e HS He) as Hep.
    destruct (split_loose _ _ _ _ HS e (list_elem_of_here _ _)) as [Her Hel].
    pose proof (split_nodup _ _ _ _ HS) as Hnd.
    apply NoDup_app in Hnd as (Hndr & Hdis & [Hne HndE]%NoDup_cons).
    wp_steps. destruct (_min s) as [r|] eqn:Hm.
    + destruct Hmin as [Hr Hleast].
      destruct (split_ring_alloc _ _ _ _ r HS Hr)
        as (Hra & Hrp & Hrra & Hrla & Hrrp & Hrlp).
      destruct (is_ring_rotate _ _ r (split_ring _ _ _ _ HS) Hr)
        as (l' & Hperm & Hring).
      apply wp_bind.
      apply (wp_insert_to_root_list_Some e r); simpl; try done.
      intros m' Hlen Hm'.
      assert (relinked m m') as Hre by by apply (relinked_root_insert m m' r e).
      assert (e ∉ ring) as Heno.
      { intros Hin. apply (Hdis e Hin), list_elem_of_here. }
      assert (Split m' live (r :: e :: l') (entries array)) as HS'.
      { apply (split_relinked m m' live ring (e :: entries array)); try done.
        - rewrite <- Hperm. simpl. by rewrite Permutation_middle.
        - apply (is_ring_insert m m' r e l' Hring); [by rewrite Hperm|].
          intros x. rewrite Hm'. unfold root_insert_at. by simpl.
        - intros x Hx.
          destruct (split_loose _ _ _ _ HS x (list_elem_of_further _ _ _ Hx))
            as [Hxr Hxl].
          assert (x ≠ e) by (intros ->; done).
          assert (∀ c, c ∈ ring → x ≠ c) as Hnr.
          { intros c Hc ->. by apply (Hdis c Hc), list_elem_of_further. }
          rewrite Hm'. unfold root_insert_at, ddl_insert_at. simpl.
          rewrite !decide_False; [done|try done..].
          + apply Hnr. by apply (is_ring_in_right _ _ _ (split_ring _ _ _ _ HS)).
          + by apply Hnr. }
      destruct Hre as [Hlen' Hf].
      assert (∀ x, priority (m' !!! x) = priority (m !!! x)) as Hpri.
      { intros x. by destruct (Hf x) as (_ & _ & _ & _ & -> & _). }
      wp_steps; try lia. rewrite Hm. simpl. wp_steps; try lia.
      rewrite !Hpri.
      assert (∀ x, x ∈ r :: e :: l' → x = e ∨ x ∈ ring) as Hcases.
      { intros x. rewrite <- Hperm, !elem_of_cons. tauto. }
      destruct (prio_ltb (priority (m !!! e)) (priority (m !!! r))) eqn:Hlt.
      * wp_steps.
        eapply wp_mono; [apply (IH (r :: e :: l'))|..]; simpl; try done.
        -- split; [apply list_elem_of_further, list_elem_of_here|].
           intros x Hx. rewrite !Hpri. apply Hcases in Hx as [->|Hx].
           ++ apply prio_le_refl.
           ++ apply prio_lt_le. eapply prio_lt_le_trans; [exact Hlt|by apply Hleast].
        -- intros _ w' (ring' & Hp' & HS'' & Hre' & Hmin' & Hsz).
           exists ring'. split_and!; try done.
           ++ rewrite Hp', <- Hperm. simpl. by rewrite Permutation_middle.
           ++ eapply relinked_trans; [|exact Hre']. by split.
      * wp_steps.
        eapply wp_mono; [apply (IH (r :: e :: l'))|..]; simpl; try done.
        -- rewrite Hm. split; [apply list_elem_of_here|].
           intros x Hx. rewrite !Hpri. apply Hcases in Hx as [->|Hx].
           ++ exact Hlt.
           ++ by apply Hleast.
        -- intros _ w' (ring' & Hp' & HS'' & Hre' & Hmin' & Hsz).
           exists ring'. split_and!; try done.
           ++ rewrite Hp', <- Hperm. simpl. by rewrite Permutation_middle.
           ++ eapply relinked_trans; [|exact Hre']. by split.
    + subst ring. wp_steps.
      eapply wp_mono; [apply (IH [e])|..]; simpl; try done.
      * apply (split_relinked m m live [] (e :: entries array));
          [done|apply relinked_refl|done|by apply is_ring_singleton|].
        intros x Hx. by apply (split_loose _ _ _ _ HS), list_elem_of_further.
      * split; [apply list_elem_of_here|].
        intros x ->%list_elem_of_singleton. apply prio_le_refl.
  - by apply IH.
Qed.

(** *** The array of trees *)

Lemma entries_replicate n : entries (replicate n None) = [].
Proof. induction n; [done|]. simpl. done. Qed.

Lemma entries_in array r : r ∈ entries array ↔ ∃ i : nat, array !! i = Some (Some r).
Proof.
  unfold entries. rewrite list_elem_of_omap. split.
  - intros (o & Ho & Heq). simpl in Heq. subst o.
    by apply list_elem_of_lookup_1.
  - intros [i Hi]. exists (Some r). split; [|done].
    by apply list_elem_of_lookup_2 in Hi.
Qed.

Lemma entries_take_out array : ∀ (k : nat) y,
  array !! k = Some (Some y) → entries array ≡ₚ y :: entries (<[k := None]> array).
Proof.
  induction array as [|o array IH]; intros k y Hk; [done|].
  destruct k as [|k]; simpl in *.
  - by inversion Hk.
  - destruct o as [r|]; simpl.
    + rewrite (IH k y Hk). apply Permutation_swap.
    + by apply IH.
Qed.

Lemma entries_put array : ∀ (k : nat) x,
  array !! k = Some None → entries (<[k := Some x]> array) ≡ₚ x :: entries array.
Proof.
  induction array as [|o array IH]; intros k x Hk; [done|].
  destruct k as [|k]; simpl in *.
  - by inversion Hk.
  - destruct o as [r|]; simpl.
    + rewrite (IH k x Hk). apply Permutation_swap.
    + by apply IH.
Qed.

Lemma getitem_ok {A} (l : list A) (d : Z) a :
  0 ≤ d → l !! Z.to_nat d = Some a → getitem l d = mret a.
Proof.
  intros Hd Hl. unfold getitem, py_pos.
  pose proof (lookup_lt_Some _ _ _ Hl).
  rewrite decide_True by lia. by rewrite Hl.
Qed.

Lemma setitem_ok {A} (l : list A) (d : Z) v :
  0 ≤ d → (Z.to_nat d < length l)%nat →
  setitem l d v = mret (<[Z.to_nat d := v]> l).
Proof.
  intros Hd Hl. unfold setitem, py_pos. by rewrite decide_True by lia.
Qed.

Lemma split_perm m live ring loose loose' :
  Split m live ring loose → loose ≡ₚ loose' → Split m live ring loose'.
Proof.
  intros HS Hp.
  apply (split_relinked m m live ring loose); [done|apply relinked_refl|..].
  - by rewrite Hp.
  - apply (split_ring _ _ _ _ HS).
  - intros r Hr. apply (split_loose _ _ _ _ HS). by rewrite Hp.
Qed.

(** the degree of a root is an index of the array *)
Lemma slot_bound m live roots x n :
  Split m live [] roots → x ∈ roots → Z.of_nat (length live) < n →
  0 ≤ degree (m !!! x) ∧ (Z.to_nat (degree (m !!! x)) < S (ceil_log_phi n))%nat.
Proof.
  intros HS Hx Hn.
  assert (x ∈ live) as Hxl by by apply (split_roots _ _ _ _ HS).
  destruct (degree_bound m live x (split_forest _ _ _ _ HS)
              (split_fibo _ _ _ _ HS) Hxl) as [H0 Hfib].
  split; [done|]. apply Nat.lt_lt_succ_r, ceil_log_phi_gt. lia.
Qed.

Lemma same_data_refl m : same_data m m.
Proof. by split. Qed.

Lemma same_data_trans m1 m2 m3 : same_data m1 m2 → same_data m2 m3 → same_data m1 m3.
Proof.
  intros [Hl1 H1] [Hl2 H2]. split; [congruence|]. intros r.
  destruct (H1 r), (H2 r). split; congruence.
Qed.

Lemma relinked_same_data m m' : relinked m m' → same_data m m'.
Proof.
  intros [Hl H]. split; [done|]. intros r.
  by destruct (H r) as (_ & _ & _ & _ & ? & ? & _).
Qed.

(** [_heap_link y x] on two roots of the same degree *)
Lemma wp_link_roots (m : list Element) s live x y rest (Q : unit → world → Prop) E S :
  Split m live [] (x :: y :: rest) →
  degree (m !!! x) = degree (m !!! y) →
  prio_le (priority (m !!! x)) (priority (m !!! y)) →
  (∀ m', Split m' live [] (x :: rest) → same_data m m' →
         degree (m' !!! x) = degree (m !!! x) + 1 →
         (∀ r, r ≠ x → degree (m' !!! r) = degree (m !!! r)) →
         Q tt (World m' s)) →
  wp (Fib._heap_link y x) (World m s) Q E S.
Proof.
  intros HS Hd Hle HQ.
  assert (x ∈ [] ++ x :: y :: rest) as Hx by apply list_elem_of_here.
  assert (y ∈ [] ++ x :: y :: rest) as Hy
    by apply list_elem_of_further, list_elem_of_here.
  pose proof (split_nodup _ _ _ _ HS) as Hnd. simpl in Hnd.
  apply NoDup_cons in Hnd as [Hxy _].
  assert (x ≠ y) by (intros ->; apply Hxy, list_elem_of_here).
  pose proof (split_forest _ _ _ _ HS) as HF.
  apply wp_heap_link; simpl.
  - by apply (split_alloc _ _ _ _ _ HS).
  - by apply (split_alloc _ _ _ _ _ HS).
  - done.
  - intros c Hc.
    assert (x ∈ live) as Hxl by by apply (split_roots _ _ _ _ HS).
    destruct (forest_nodes _ _ HF x Hxl) as (l & Hs & _ & Hcl).
    rewrite Hc in Hcl. split; apply (forest_alloc _ _ HF).
    + by apply (siblings_live _ _ _ _ c Hs).
    + apply (siblings_live _ _ _ _ _ Hs). by apply (siblings_right_in _ _ _ _ _ Hs).
  - intros m' Hlen Hm'. apply HQ.
    + by apply (split_link m m' live x y rest).
    + split; [done|]. intros r.
      by destruct (link_fields m m' y x Hm' r) as (_ & _ & _ & _ & ? & ? & _).
    + destruct (link_fields m m' y x Hm' x) as (_ & -> & _).
      by rewrite decide_True.
    + intros r Hr. destruct (link_fields m m' y x Hm' r) as (_ & -> & _).
      by rewrite decide_False.
Qed.

Lemma slots_take_out m m' array (k : nat) x :
  slots m array →
  (∀ r, r ≠ x → degree (m' !!! r) = degree (m !!! r)) →
  x ∉ entries (<[k := None]> array) →
  slots m' (<[k := None]> array).
Proof.
  intros Hsl Hd Hx i r Hi.
  assert (r ∈ entries (<[k := None]> array)) as Hr by (apply entries_in; eauto).
  rewrite Hd by (intros ->; done).
  destruct (decide (i = k)) as [->|Hik].
  - apply list_lookup_insert_Some in Hi as [(_ & ? & _)|[? _]]; done.
  - rewrite list_lookup_insert_ne in Hi by done. by apply Hsl.
Qed.

(** the [while array[d] is not None] loop: the carries of the addition *)
Lemma wp_link_loop live n : ∀ fuel array x m s rest,
  Split m live [] (x :: rest ++ entries array) →
  slots m array →
  Z.of_nat (length live) < n → length array = S (ceil_log_phi n) →
  (length (entries array) < fuel)%nat →
  wp (Fib.link_loop fuel array x (degree (m !!! x))) (World m s)
    (λ '(array', x', d') w',
       Split (mem w') live [] (x' :: rest ++ entries array') ∧
       slots (mem w') array' ∧ length array' = length array ∧
       d' = degree (mem w' !!! x') ∧ 0 ≤ d' ∧
       array' !! Z.to_nat d' = Some None ∧
       same_data m (mem w') ∧ self w' = s)
    noexn False.
Proof.
  induction fuel as [|f IH]; intros array x m s rest HS Hsl Hn Hlen Hfuel; [lia|].
  destruct (slot_bound m live _ x n HS (list_elem_of_here _ _) Hn) as [Hd0 Hdk].
  rewrite <- Hlen in Hdk.
  destruct (lookup_lt_is_Some_2 _ _ Hdk) as [slot Hslot].
  simpl. rewrite (getitem_ok _ _ slot Hd0 Hslot).
  apply wp_bind, wp_ret. destruct slot as [y|].
  - pose proof (entries_take_out _ _ _ Hslot) as Hperm.
    pose proof (Hsl _ _ Hslot) as Hdy.
    set (array' := <[Z.to_nat (degree (m !!! x)) := None]> array) in *.
    assert (Split m live [] (x :: y :: rest ++ entries array')) as HS1.
    { apply (split_perm _ _ _ _ _ HS). rewrite Hperm.
      by rewrite <- Permutation_middle. }
    assert (degree (m !!! x) = degree (m !!! y)) as Hxy by lia.
    assert (x < length m)%nat as Hxa
      by (apply (split_alloc _ _ _ _ x HS1), list_elem_of_here).
    assert (y < length m)%nat as Hya
      by (apply (split_alloc _ _ _ _ y HS1), list_elem_of_further, list_elem_of_here).
    assert (length (entries array) = S (length (entries array'))) as Hle
      by by rewrite Hperm.
    assert (setitem array (degree (m !!! x)) None = mret array') as Hset
      by (by apply setitem_ok).
    wp_steps; try lia.
    destruct (prio_ltb (priority (m !!! y)) (priority (m !!! x))) eqn:Hlt.
    + apply wp_bind.
      apply (wp_link_roots m s live y x (rest ++ entries array')).
      { apply (split_perm _ _ _ _ _ HS1), Permutation_swap. }
      { done. }
      { by apply prio_lt_le. }
      intros m' HS' Hdata Hdx Hdr. rewrite Hset. apply wp_bind, wp_ret.
      replace (degree (m !!! x) + 1) with (degree (m' !!! y)) by lia.
      eapply wp_mono; [apply (IH array' y m' s rest)|..]; try done.
      * apply (slots_take_out m m' array _ y); [done..|].
        intros Hin. pose proof (split_nodup _ _ _ _ HS') as Hnd. simpl in Hnd.
        apply NoDup_cons in Hnd as [Hnd _]. apply Hnd, elem_of_app. by right.
      * unfold array'. by rewrite length_insert.
      * lia.
      * intros [[a1 x1] d1] w1 (? & ? & Hl1 & ? & ? & ? & ? & ?).
        split_and!; try done.
        -- unfold array' in Hl1. by rewrite length_insert in Hl1.
        -- by eapply same_data_trans.
    + apply wp_bind.
      apply (wp_link_roots m s live x y (rest ++ entries array')); try done.
      intros m' HS' Hdata Hdx Hdr. rewrite Hset. apply wp_bind, wp_ret.
      rewrite <- Hdx.
      eapply wp_mono; [apply (IH array' x m' s rest)|..]; try done.
      * apply (slots_take_out m m' array _ x); [done..|].
        intros Hin. pose proof (split_nodup _ _ _ _ HS') as Hnd. simpl in Hnd.
        apply NoDup_cons in Hnd as [Hnd _]. apply Hnd, elem_of_app. by right.
      * unfold array'. by rewrite length_insert.
      * lia.
      * intros [[a1 x1] d1] w1 (? & ? & Hl1 & ? & ? & ? & ? & ?).
        split_and!; try done.
        -- unfold array' in Hl1. by rewrite length_insert in Hl1.
        -- by eapply same_data_trans.
  - apply wp_ret. by split_and!.
Qed.

Lemma slots_put m array (k : nat) x :
  slots m array → degree (m !!! x) = Z.of_nat k →
  slots m (<[k := Some x]> array).
Proof.
  intros Hsl Hd i r Hi.
  destruct (decide (i = k)) as [->|Hik].
  - apply list_lookup_insert_Some in Hi as [(_ & [= <-] & _)|[? _]]; done.
  - rewrite list_lookup_insert_ne in Hi by done. by apply Hsl.
Qed.

Lemma split_entries_length m live rest array :
  Split m live [] (rest ++ entries array) →
  (length rest + length (entries array) ≤ length live)%nat.
Proof.
  intros HS. rewrite <- length_app. apply submseteq_length, NoDup_submseteq.
  - apply (split_nodup _ _ _ _ HS).
  - intros r Hr. by apply (split_roots _ _ _ _ HS).
Qed.

(** the [while len(q)] loop *)
Lemma wp_drain_queue live n fuel : ∀ q array m s,
  Split m live [] (q ++ entries array) →
  slots m array →
  Z.of_nat (length live) < n → length array = S (ceil_log_phi n) →
  (length live ≤ fuel)%nat →
  wp (Fib.drain_queue fuel q array) (World m s)
    (λ array' w',
       Split (mem w') live [] (entries array') ∧ slots (mem w') array' ∧
       same_data m (mem w') ∧ self w' = s)
    noexn False.
Proof.
  induction q as [|x q IH]; intros array m s HS Hsl Hn Hlen Hfuel; simpl.
  - apply wp_ret. by split_and!.
  - assert (x < length m)%nat as Hxa
      by (apply (split_alloc _ _ _ _ x HS), list_elem_of_here).
    pose proof (split_entries_length m live (x :: q) array HS) as Hle.
    simpl in Hle.
    wp_steps.
    eapply wp_mono; [apply (wp_link_loop live n fuel array x m s q)|..];
      try done; [lia|].
    intros [[a1 x1] d1] w1 (HS1 & Hsl1 & Hl1 & Hd1 & Hd0 & Hnone & Hdata & Hs).
    destruct w1 as [m1 s1]. simpl in *. subst s1.
    pose proof (lookup_lt_Some _ _ _ Hnone) as Hlt.
    rewrite (setitem_ok _ _ _ Hd0 Hlt). apply wp_bind, wp_ret.
    eapply wp_mono; [apply IH|..]; try done.
    + apply (split_perm _ _ _ _ _ HS1).
      rewrite (entries_put _ _ x1 Hnone). by rewrite <- Permutation_middle.
    + apply slots_put; [done|]. lia.
    + rewrite length_insert. congruence.
    + intros a2 w2 (? & ? & ? & ?). split_and!; try done.
      by eapply same_data_trans.
Qed.

Lemma slots_distinct m array :
  slots m array → distinct_degrees m (entries array).
Proof.
  intros Hsl r1 r2 [i1 H1]%entries_in [i2 H2]%entries_in Hd.
  rewrite (Hsl _ _ H1), (Hsl _ _ H2) in Hd.
  assert (i1 = i2) as -> by lia. congruence.
Qed.

Lemma wp_consolidate live fuel m s ring :
  Split m live ring [] →
  match _min s with None => False | Some r => r ∈ ring end →
  Z.of_nat (length live) < _size s →
  (length live ≤ fuel)%nat → (length ring < fuel)%nat →
  wp (Fib._consolidate fuel) (World m s)
    (λ _ w', ∃ ring',
       Split (mem w') live ring' [] ∧
       distinct_degrees (mem w') ring' ∧
       match _min (self w') with
       | None => False
       | Some r => least_in (mem w') ring' r
       end ∧
       same_data m (mem w') ∧ _size (self w') = _size s)
    noexn False.
Proof.
  intros HS Hmin Hn Hfuel Hfuel'. unfold Fib._consolidate.
  wp_steps. unfold array_len.
  rewrite !decide_False by lia. wp_steps.
  eapply wp_mono; [apply (wp_collect_roots live fuel ring [] m s)|..]; try done.
  { by destruct (_min s). }
  intros q [m1 s1] (HS1 & Hq & Hre1 & Hmin1 & Hsz1). simpl in *.
  apply wp_bind.
  change (None :: replicate (ceil_log_phi (_size s)) None)
    with (replicate (S (ceil_log_phi (_size s))) (@None ref)).
  eapply wp_mono;
    [apply (wp_drain_queue live (_size s) fuel q (replicate _ None) m1 s1)|..];
    try done.
  { by rewrite entries_replicate, app_nil_r. }
  { intros i r Hi. apply lookup_replicate in Hi as [? _]. done. }
  { by rewrite length_replicate. }
  intros array [m2 s2] (HS2 & Hsl2 & Hdata2 & Hs2). simpl in *. subst s2.
  eapply wp_mono; [apply (wp_rebuild_roots live array [] m2 s1)|..]; try done.
  { by rewrite Hmin1. }
  intros _ [m3 s3] (ring' & Hperm & HS3 & Hre3 & Hmin3 & Hsz3). simpl in *.
  exists ring'. split_and!; try done.
  - intros r1 r2 Hr1 Hr2. rewrite Hperm in Hr1, Hr2.
    destruct Hre3 as [_ Hf].
    destruct (Hf r1) as (_ & _ & -> & _), (Hf r2) as (_ & _ & -> & _).
    by apply (slots_distinct m2 array).
  - destruct (_min s3) as [r|]; [done|]. subst ring'.
    destruct (forest_has_root m3 live (split_forest _ _ _ _ HS3)) as (r & Hr & Hp).
    + destruct (_min s) as [r0|]; [|done]. intros ->.
      assert (r0 ∈ ring ++ []) as Hr0 by (by rewrite app_nil_r).
      apply (split_roots _ _ _ _ HS) in Hr0 as [Hr0 _]. by apply elem_of_nil in Hr0.
    + assert (r ∈ [] ++ []) as Hr' by (by apply (split_roots _ _ _ _ HS3)).
      by apply elem_of_nil in Hr'.
  - apply (same_data_trans _ m1); [by apply relinked_same_data|].
    apply (same_data_trans _ m2); [done|by apply relinked_same_data].
  - congruence.
Qed.

(** ** [extract_min] *)

Lemma forest_only_root m live z :
  Forest m live → siblings m live None [z] → siblings m live (Some z) [] →
  live ≡ₚ [z].
Proof.
  intros HF Hroots Hkids.
  assert (z ∈ live) as Hz by (apply (siblings_live _ _ _ _ z Hroots), list_elem_of_here).
  apply elem_of_Permutation in Hz as [live' Hperm]. rewrite Hperm.
  apply Permutation_skip.
  destruct live' as [|x live']; [done|]. exfalso.
  pose proof (forest_perm _ _ _ HF Hperm) as HF'.
  assert (Forest m (x :: live')) as HF''.
  { apply (forest_remove_root m _ z HF').
    - apply (siblings_parent _ _ _ _ z Hroots), list_elem_of_here.
    - intros c Hc Hcp.
      assert (c ∈ []) as Hin; [|by apply elem_of_nil in Hin].
      apply Hkids. split; [|done]. rewrite Hperm. by apply list_elem_of_further. }
  destruct (forest_has_root m _ HF'') as (r & Hr & Hrp); [done|].
  assert (r ∈ [z]) as ->%list_elem_of_singleton.
  { apply Hroots. split; [|done]. rewrite Hperm. by apply list_elem_of_further. }
  pose proof (forest_nodup _ _ HF') as [Hnd _]%NoDup_cons. done.
Qed.

Lemma wp_extract_min fuel w live :
  Inv w live → Fibo (mem w) live None → (length live ≤ fuel)%nat →
  wp (Fib.extract_min fuel) w
    (λ o w', match o with
             | None => live = [] ∧ w' = w
             | Some z => ∃ live' roots, extracted w w' live z live' roots ∧
                         _size (self w') = _size (self w) - 1
             end)
    noexn False.
Proof.
  intros [HF Ho Hroots Hsize] HL Hfuel. destruct w as [m s]. simpl in *.
  unfold Fib.extract_min. wp_steps.
  destruct (_min s) as [z|] eqn:Hmin.
  2:{ wp_steps. split; [|done].
      apply (inv_empty (World m s)); [|done].
      split; simpl; rewrite ?Hmin; done. }
  destruct (rootsOk_min _ _ _ Hroots) as (rs & Hrs).
  assert (z ∈ live) as Hz by (apply (siblings_live _ _ _ _ z Hrs), list_elem_of_here).
  pose proof (forest_alloc _ _ HF z Hz) as Hza.
  assert (parent (m !!! z) = None) as Hzp
    by (apply (siblings_parent _ _ _ _ z Hrs), list_elem_of_here).
  pose proof Hz as [live' Hperm]%elem_of_Permutation.
  assert (length live = S (length live')) as Hll by by rewrite Hperm.
  (* the rest of the method, from the state in which the children are promoted *)
  assert (∀ m1 kids,
    siblings m live (Some z) kids → promoted m m1 z None kids →
    is_ring m1 (z :: reverse kids ++ rs) →
    wp (zr ← rd right z;
        (if decide (z = zr) then set_min None;; Fib._remove_from_root_list z
         else set_min (Some zr);; Fib._remove_from_root_list z;;
              Fib._consolidate fuel);;
        n ← get_size; set_size (n - 1);; mret (Some z))
       (World m1 s)
       (λ o w', match o with
                | None => live = [] ∧ w' = World m s
                | Some z => ∃ live' roots,
                    extracted (World m s) w' live z live' roots ∧
                    _size (self w') = _size s - 1
                end)
       noexn False) as Hrest.
  { intros m1 kids Hkids Hprom Hring. pose proof Hprom as [Hlen1 Hf1].
    assert (parent (m1 !!! z) = None) as Hzp1.
    { destruct (Hf1 z) as (-> & _). case_decide; done. }
    wp_steps.
    destruct (reverse kids ++ rs) as [|b l] eqn:HR.
    - apply is_ring_singleton in Hring as [Hzr Hzl].
      rewrite decide_True by done. wp_steps.
      apply wp_remove_last; simpl; [lia|done..|]. wp_steps.
      apply app_eq_nil in HR as [Hk ->].
      assert (kids = []) as ->.
      { destruct kids as [|k kids]; [done|].
        rewrite reverse_cons in Hk. by apply app_eq_nil in Hk as [_ ?]. }
      assert (live' = []) as ->.
      { pose proof (forest_only_root m live z HF Hrs Hkids) as Hp.
        rewrite Hperm in Hp. apply Permutation_cons_inv in Hp.
        by apply Permutation_nil_r in Hp. }
      exists [], []. split; [|done]. split_and!; try done.
      + replace (_size s - 1) with 0 by (simpl in Hll; lia).
        apply Inv_fresh_heap.
      + by intros p ?%elem_of_nil.
      + split; [done|]. intros r.
        by destruct (Hf1 r) as (_ & _ & _ & _ & ? & ? & _).
      + split; [split; [constructor|done]|].
        intros c. split; [by intros ?%elem_of_nil|by intros [?%elem_of_nil _]].
      + by intros r1 r2 ?%elem_of_nil.
    - destruct (is_ring_neighbours _ _ _ _ Hring) as (Hrb & Hrne & Hlne & Hlin).
      rewrite decide_False by congruence. rewrite Hrb in *. wp_steps.
      assert (∀ r, r ∈ b :: l → (r < length m1)%nat) as Hal.
      { intros r Hr. rewrite Hlen1. apply (forest_alloc _ _ HF).
        rewrite <- HR, elem_of_app, elem_of_reverse in Hr. destruct Hr as [Hr|Hr].
        - by apply (siblings_live _ _ _ _ r Hkids).
        - by apply (siblings_live _ _ _ _ r Hrs), list_elem_of_further. }
      apply wp_remove_from_root_list; simpl; try done; try lia.
      { rewrite Hrb. apply Hal, list_elem_of_here. }
      { by apply Hal. }
      intros m2 Hlen2 Hm2.
      destruct (extract_unlink m m1 m2 live live' z rs kids b l)
        as (HS & Hdata & Hpar); try done.
      eapply wp_mono;
        [apply (wp_consolidate live' fuel m2 _ (b :: l) HS)|..]; simpl;
        [| | | | |done..].
      + rewrite decide_False by congruence. apply list_elem_of_here.
      + lia.
      + lia.
      + assert (length (b :: l) ≤ length live')%nat as Hle; [|simpl in Hle; lia].
        apply submseteq_length, NoDup_submseteq.
        * apply (split_ring _ _ _ _ HS).
        * intros r Hr. apply (split_roots _ _ _ _ HS). by rewrite app_nil_r.
      + intros _ [m3 s3] (ring' & HS3 & Hdist & Hmin3 & Hdata3 & Hsz3).
        simpl in *. wp_steps. exists live', ring'.
        destruct (_min s3) as [r|] eqn:Hm3; [|done].
        assert (siblings m3 live' None ring') as Hsib.
        { split; [apply (split_ring _ _ _ _ HS3)|].
          pose proof (split_roots _ _ _ _ HS3) as Hmem.
          by rewrite app_nil_r in Hmem. }
        split; [|simpl; lia]. unfold extracted. simpl. split_and!; try done.
        * split; simpl.
          -- apply (split_forest _ _ _ _ HS3).
          -- apply (split_order _ _ _ _ HS3).
          -- exists ring'. split; [done|]. by destruct Hmin3.
          -- lia.
        * apply (split_fibo _ _ _ _ HS3).
        * apply (same_data_trans _ m2); [|done]. split; [congruence|].
          intros r'. by destruct (Hdata r') as (? & ? & _).
        }
  destruct (forest_nodes _ _ HF z Hz) as (l & Hkids & Hdeg & Hchild).
  apply wp_bind. wp_steps.
  destruct (child (m !!! z)) as [c0|] eqn:Hc.
  - destruct (siblings_rotate _ _ _ _ c0 Hkids Hchild) as (ks & Hpk & Hkids').
    eapply wp_mono;
      [apply (promote_loop m live z rs c0 ks s (forest_alloc _ _ HF) Hrs Hkids'
                Hmin ks [] c0 m fuel)|..]; try done.
    + rewrite <- Hc. apply promoted_refl.
    + apply Hrs.
    + assert (length (z :: c0 :: ks) ≤ length live)%nat as Hle;
        [|simpl in Hle; lia].
      apply submseteq_length, NoDup_submseteq.
      * apply NoDup_cons. split; [|apply Hkids'].
        intros Hin. apply (siblings_parent _ _ _ _ z Hkids') in Hin. congruence.
      * intros r [->|Hr]%elem_of_cons; [done|].
        by apply (siblings_live _ _ _ _ r Hkids').
    + intros _ [m1 s1] (Hs & Hprom & Hring). simpl in *. subst s1.
      by apply (Hrest m1 (c0 :: ks)).
  - subst l. apply wp_ret. apply (Hrest m []); [done| |apply Hrs].
    rewrite <- Hc. apply promoted_refl.
Qed.

(** ** [_cut] on a heap *)

#[global] Arguments Fib._cut : simpl never.

Lemma unlink_links (m m1 : list Element) x y :
  (∀ r, m1 !!! r = unlink_at m x y r) →
  ∀ r,
    right (m1 !!! r) =
      (if decide (r = left (m !!! x) ∧ right (m !!! x) ≠ x) then right (m !!! x)
       else right (m !!! r)) ∧
    left (m1 !!! r) =
      (if decide (r = right (m !!! x) ∧ right (m !!! x) ≠ x) then left (m !!! x)
       else left (m !!! r)).
Proof.
  intros H1 r. rewrite H1. unfold unlink_at.
  split; repeat (case_decide; simpl; subst; try done); tauto.
Qed.

Lemma is_ring_unlink (m m1 : list Element) x y b l :
  is_ring m (x :: b :: l) → (∀ r, m1 !!! r = unlink_at m x y r) →
  is_ring m1 (b :: l).
Proof.
  intros Hring H1.
  destruct (is_ring_neighbours _ _ _ _ Hring) as (Hxb & Hrx & Hlx & _).
  destruct Hring as [Hnd Hr]. split; [by apply NoDup_cons in Hnd as [_ ?]|].
  apply (ring_remove_head _ _ _ _ x b l Hnd Hr); intros; cbv beta;
    rewrite ?(proj1 (unlink_links m m1 x y H1 _)),
            ?(proj2 (unlink_links m m1 x y H1 _));
    repeat case_decide; try done; tauto.
Qed.

Section cut.
Context (m m1 m2 m' : list Element) (live : list ref) (x y head : ref)
  (rs : list ref) (bad : option ref).
Hypothesis HF : Forest m live.
Hypothesis Hroots : siblings m live None (head :: rs).
Hypothesis Hx : x ∈ live.
Hypothesis Hxp : parent (m !!! x) = Some y.
Hypothesis Hl' : length m' = length m.
Hypothesis H1 : ∀ r, m1 !!! r = unlink_at m x y r.
Hypothesis H2 : ∀ r, m2 !!! r = root_insert_at m1 head x r.
Hypothesis H3 : ∀ r, m' !!! r = cut_finish_at m2 x y r.

Lemma cut_y_live : y ∈ live.
Proof. by apply (forest_parent _ _ HF x). Qed.

Lemma cut_x_ne_y : x ≠ y.
Proof.
  intros ->. destruct (forest_rank _ _ HF) as [rk Hrk].
  specialize (Hrk y y Hx Hxp). lia.
Qed.

(** the ring of the children of [y], from [x] *)
Lemma cut_kids : ∃ l, siblings m live (Some y) (x :: l) ∧
  degree (m !!! y) = Z.of_nat (S (length l)).
Proof.
  destruct (forest_nodes _ _ HF y cut_y_live) as (l & Hs & Hd & _).
  destruct (siblings_rotate _ _ _ _ x Hs) as (l' & Hp & Hs').
  { by apply (siblings_in _ _ _ _ x Hs). }
  exists l'. split; [done|]. rewrite Hd, <- Hp. done.
Qed.

Lemma cut_root_parent r : r ∈ head :: rs → parent (m !!! r) = None.
Proof. apply (siblings_parent _ _ _ _ r Hroots). Qed.

Lemma cut_parent r :
  parent (m' !!! r) = if decide (r = x) then None else parent (m !!! r).
Proof.
  destruct (cut_data _ _ _ _ _ _ _ H1 H2 H3 r) as (-> & _).
  case_decide; [done|]. case_decide as Hr; [|done]. destruct Hr as [-> _].
  destruct cut_kids as (l & Hs & _). symmetry.
  apply (siblings_parent _ _ _ _ _ Hs), (siblings_right_in _ _ _ _ _ Hs).
  apply list_elem_of_here.
Qed.

(** the links of the nodes that are neither roots nor children of [y] *)
Lemma cut_links r :
  r ≠ x → parent (m !!! r) ≠ None → parent (m !!! r) ≠ Some y →
  same_links (m !!! r) (m' !!! r).
Proof.
  intros Hrx Hrn Hry. destruct cut_kids as (l & Hs & _).
  assert (x ∈ x :: l) as Hxl by apply list_elem_of_here.
  assert (r ≠ left (m !!! x)).
  { intros ->. apply Hry, (siblings_parent _ _ _ _ _ Hs).
    by apply (siblings_left_in _ _ _ _ _ Hs). }
  assert (r ≠ right (m !!! x)).
  { intros ->. apply Hry, (siblings_parent _ _ _ _ _ Hs).
    by apply (siblings_right_in _ _ _ _ _ Hs). }
  assert (r ≠ head).
  { intros ->. apply Hrn, cut_root_parent, list_elem_of_here. }
  assert (r ≠ right (m1 !!! head)).
  { rewrite (proj1 (unlink_links m m1 x y H1 head)).
    case_decide as Hh; [done|]. intros ->.
    apply Hrn, cut_root_parent, (siblings_right_in _ _ _ _ _ Hroots), list_elem_of_here. }
  unfold same_links. rewrite H3. unfold cut_finish_at. simpl.
  rewrite H2. unfold root_insert_at, ddl_insert_at. simpl.
  rewrite !decide_False by done.
  rewrite (proj1 (unlink_links m m1 x y H1 r)), (proj2 (unlink_links m m1 x y H1 r)).
  by rewrite !decide_False by (by intros [? _]).
Qed.

Lemma cut_roots : siblings m' live None (head :: x :: rs).
Proof.
  destruct cut_kids as (l & Hs & _).
  assert (x ∈ x :: l) as Hxl by apply list_elem_of_here.
  assert (∀ r, r ∈ head :: rs → same_links (m !!! r) (m1 !!! r)) as Hsame.
  { intros r Hr. pose proof (cut_root_parent r Hr) as Hrp.
    unfold same_links.
    rewrite (proj1 (unlink_links m m1 x y H1 r)), (proj2 (unlink_links m m1 x y H1 r)).
    rewrite !decide_False; [done|..]; intros [-> _].
    - pose proof (siblings_parent _ _ _ _ _ Hs
        (siblings_right_in _ _ _ _ _ Hs Hxl)). congruence.
    - pose proof (siblings_parent _ _ _ _ _ Hs
        (siblings_left_in _ _ _ _ _ Hs Hxl)). congruence. }
  split.
  - apply (is_ring_frame m2); [|intros r _; unfold same_links; rewrite H3; done].
    apply (is_ring_insert m1 m2 head x rs).
    + apply (is_ring_frame m); [apply Hroots|done].
    + intros Hin. apply cut_root_parent in Hin. congruence.
    + intros r. by rewrite H2.
  - intros c. rewrite cut_parent. destruct Hroots as [_ Hmem].
    specialize (Hmem c). rewrite !elem_of_cons in *.
    case_decide; [subst c; tauto|].
    rewrite <- Hmem. tauto.
Qed.

Lemma forest_cut : Forest m' live.
Proof.
  pose proof HF as [Hnd Hal Hno Hpa [rk Hrk]].
  pose proof cut_x_ne_y as Hxy.
  split; [done|by rewrite Hl'| | |].
  - intros p Hp. destruct (decide (p = y)) as [->|Hpy].
    + destruct cut_kids as (l & Hs & Hd).
      destruct (cut_data _ _ _ _ _ _ _ H1 H2 H3 y) as (_ & _ & _ & _ & Hdy & Hcy).
      rewrite decide_True in Hdy by done.
      rewrite (decide_True (P := y = y)) in Hcy by done.
      assert (∀ c, (c ∈ live ∧ parent (m' !!! c) = Some y) ↔ c ∈ l) as Hmem.
      { intros c. rewrite cut_parent. destruct Hs as [[Hndl _] Hmem].
        specialize (Hmem c). rewrite elem_of_cons in Hmem.
        apply NoDup_cons in Hndl as [Hxl _].
        destruct (decide (c = x)) as [->|Hcx]; [split; [by intros [_ ?]|done]|tauto]. }
      destruct l as [|b l].
      * exists []. split_and!.
        -- apply siblings_nil. intros c Hc Hcp.
           by apply (elem_of_nil c), Hmem.
        -- rewrite Hdy, Hd. simpl. lia.
        -- destruct Hs as [Hring _]. apply is_ring_singleton in Hring as [Hr _].
           by rewrite Hcy, decide_True.
      * exists (b :: l).
        destruct (is_ring_neighbours _ _ _ _ (proj1 Hs)) as (Hxb & Hxr & _).
        split_and!.
        -- split; [|intros c; by rewrite Hmem].
           apply (is_ring_frame m1);
             [by apply (is_ring_unlink m m1 x y b l); [apply Hs|]|].
           intros r Hr. unfold same_links. rewrite H3. unfold cut_finish_at. simpl.
           rewrite H2. unfold root_insert_at, ddl_insert_at. simpl.
           assert (parent (m !!! r) = Some y) as Hrp
             by (by apply (siblings_parent _ _ _ _ r Hs), list_elem_of_further).
           assert (r ≠ x).
           { intros ->. destruct Hs as [[Hndl _] _].
             by apply NoDup_cons in Hndl as [? _]. }
           assert (r ≠ head).
           { intros ->. rewrite cut_root_parent in Hrp; [done|apply list_elem_of_here]. }
           assert (r ≠ right (m1 !!! head)).
           { rewrite (proj1 (unlink_links m m1 x y H1 head)).
             destruct (decide (head = left (m !!! x) ∧ right (m !!! x) ≠ x))
               as [[Hh _]|Hh].
             - pose proof (siblings_parent _ _ _ _ _ Hs
                 (siblings_left_in _ _ _ _ _ Hs (list_elem_of_here _ _))) as Hlp.
               rewrite <- Hh, cut_root_parent in Hlp; [done|apply list_elem_of_here].
             - intros ->. rewrite cut_root_parent in Hrp; [done|].
               apply (siblings_right_in _ _ _ _ _ Hroots), list_elem_of_here. }
           by rewrite !decide_False by done.
        -- rewrite Hdy, Hd. simpl. lia.
        -- rewrite Hcy, decide_False by done. rewrite Hxb. apply list_elem_of_here.
    + apply (nodeOk_frame m m' live live p); [by apply Hno|..].
      * intros c Hc Hcp. apply cut_links; congruence.
      * intros c. rewrite cut_parent. case_decide; [subst c|done].
        split; intros [_ ?]; congruence.
      * destruct (cut_data _ _ _ _ _ _ _ H1 H2 H3 p) as (_ & _ & _ & _ & -> & _).
        by rewrite decide_False.
      * destruct (cut_data _ _ _ _ _ _ _ H1 H2 H3 p) as (_ & _ & _ & _ & _ & ->).
        by rewrite decide_False.
  - intros c p Hc. rewrite cut_parent. case_decide; [done|]. by apply Hpa.
  - exists rk. intros c p Hc. rewrite cut_parent. case_decide; [done|]. by apply Hrk.
Qed.

Lemma ordered_cut :
  (∀ c p, c ∈ live → c ≠ x → parent (m !!! c) = Some p →
          prio_le (priority (m !!! p)) (priority (m !!! c))) →
  ordered m' live.
Proof.
  intros Ho c p Hc. rewrite cut_parent. case_decide; [done|]. intros Hcp.
  destruct (cut_data _ _ _ _ _ _ _ H1 H2 H3 c) as (_ & _ & -> & _).
  destruct (cut_data _ _ _ _ _ _ _ H1 H2 H3 p) as (_ & _ & -> & _).
  by apply Ho.
Qed.

Lemma cut_edeg c :
  c ≠ x → edeg (m' !!! c) = edeg (m !!! c) - (if decide (c = y) then 1 else 0).
Proof.
  intros Hcx. unfold edeg.
  destruct (cut_data _ _ _ _ _ _ _ H1 H2 H3 c) as (_ & -> & _ & _ & -> & _).
  rewrite (decide_False (P := c = x)) by done.
  destruct (decide (c = y)) as [Hcy|Hcy]; [subst c|];
    destruct (mark (m !!! _)); lia.
Qed.

Lemma fibo_cut :
  Fibo m live bad → (bad = None ∨ bad = Some x) → Fibo m' live (Some y).
Proof.
  intros HL Hbad p Hp. destruct (HL p Hp) as (ys & Hnd & Hys & Hdeg).
  pose proof cut_x_ne_y as Hxy.
  assert (∀ (i : nat) c, ys !! i = Some c → c ≠ x →
            Z.of_nat i ≤ edeg (m' !!! c) + (if decide (Some y = Some c) then 1 else 0))
    as Hdeg'.
  { intros i c Hi Hcx. specialize (Hdeg i c Hi).
    rewrite (decide_False (P := bad = Some c)) in Hdeg
      by (destruct Hbad as [-> | ->]; congruence).
    rewrite cut_edeg by done.
    destruct (decide (c = y)) as [->|Hcy].
    - rewrite decide_True by done. lia.
    - rewrite decide_False by congruence. lia. }
  destruct (decide (p = y)) as [->|Hpy].
  - assert (x ∈ ys) as Hxin by by apply Hys.
    apply list_elem_of_split in Hxin as (ys1 & ys2 & ->).
    apply NoDup_app in Hnd as (Hnd1 & Hdis & [Hx2 Hnd2]%NoDup_cons).
    exists (ys1 ++ ys2). split_and!.
    + apply NoDup_app. split_and!; [done| |done].
      intros c Hc1 Hc2. by apply (Hdis c Hc1), list_elem_of_further.
    + intros c. rewrite cut_parent. specialize (Hys c).
      rewrite elem_of_app, elem_of_cons in Hys. rewrite elem_of_app.
      case_decide; [subst c|tauto].
      split; [|by intros [_ ?]]. intros [Hc|Hc]; [|done].
      destruct (Hdis x Hc). apply list_elem_of_here.
    + intros i c Hi.
      assert (c ≠ x) as Hcx.
      { intros ->. apply list_elem_of_lookup_2, elem_of_app in Hi as [Hc|Hc]; [|done].
        destruct (Hdis x Hc). apply list_elem_of_here. }
      apply lookup_app_Some in Hi as [Hi|[Hi1 Hi2]].
      * apply (Hdeg' i c); [|done]. by apply lookup_app_l_Some.
      * assert (Z.of_nat (S i) ≤ edeg (m' !!! c) +
                  (if decide (Some y = Some c) then 1 else 0)); [|lia].
        apply Hdeg'; [|done]. rewrite lookup_app_r by lia.
        replace (S i - length ys1)%nat with (S (i - length ys1)) by lia. done.
  - exists ys. split_and!; [done| |].
    + intros c. rewrite cut_parent, (Hys c). case_decide; [subst c|done].
      split; intros [_ ?]; congruence.
    + intros i c Hi. apply Hdeg'; [done|]. intros ->.
      apply list_elem_of_lookup_2, Hys in Hi as [_ Hi]. congruence.
Qed.
End cut.

Lemma wp_cut_inv (m : list Element) s live x y head rs bad
    (Q : unit → world → Prop) E S :
  Forest m live →
  (∀ c p, c ∈ live → c ≠ x → parent (m !!! c) = Some p →
          prio_le (priority (m !!! p)) (priority (m !!! c))) →
  siblings m live None (head :: rs) → _min s = Some head →
  Fibo m live bad → (bad = None ∨ bad = Some x) →
  x ∈ live → parent (m !!! x) = Some y →
  (∀ m', Forest m' live → ordered m' live →
         siblings m' live None (head :: x :: rs) → Fibo m' live (Some y) →
         length m' = length m →
         (∀ r, mark (m' !!! r) = (if decide (r = x) then false else mark (m !!! r)) ∧
               priority (m' !!! r) = priority (m !!! r) ∧
               obj (m' !!! r) = obj (m !!! r)) →
         Q tt (World m' s)) →
  wp (Fib._cut x y) (World m s) Q E S.
Proof.
  intros HF Ho Hroots Hmin HL Hbad Hx Hxp HQ.
  destruct (cut_kids m live x y HF Hx Hxp) as (l & Hs & _).
  pose proof (forest_alloc _ _ HF) as Hal.
  assert (x ∈ x :: l) as Hxl by apply list_elem_of_here.
  assert (head ∈ head :: rs) as Hhr by apply list_elem_of_here.
  apply (wp_cut x y head); simpl; try done.
  - by apply Hal.
  - by apply Hal, (forest_parent _ _ HF x).
  - by apply Hal, (siblings_live _ _ _ _ _ Hroots).
  - by apply Hal, (siblings_live _ _ _ _ _ Hs), (siblings_right_in _ _ _ _ _ Hs).
  - by apply Hal, (siblings_live _ _ _ _ _ Hs), (siblings_left_in _ _ _ _ _ Hs).
  - by apply Hal, (siblings_live _ _ _ _ _ Hroots), (siblings_right_in _ _ _ _ _ Hroots).
  - intros m1 m2 m' Hl1 Hl2 Hl' H1 H2 H3. apply HQ; try done.
    + by eapply (forest_cut m m1 m2 m').
    + by eapply (ordered_cut m m1 m2 m').
    + by eapply (cut_roots m m1 m2 m').
    + by eapply (fibo_cut m m1 m2 m').
    + intros r. by destruct (cut_data _ _ _ _ _ _ _ H1 H2 H3 r) as (_ & ? & ? & ? & _).
Qed.

(** a root is nobody's child *)
Lemma fibo_bad_root (m : list Element) live y :
  parent (m !!! y) = None → Fibo m live (Some y) → Fibo m live None.
Proof.
  intros Hyp HL p Hp. destruct (HL p Hp) as (ys & Hnd & Hys & Hdeg).
  exists ys. split_and!; [done..|]. intros i c Hi. specialize (Hdeg i c Hi).
  rewrite decide_False by done.
  rewrite decide_False in Hdeg; [lia|]. intros [= ->].
  apply list_elem_of_lookup_2, Hys in Hi as [_ Hi]. congruence.
Qed.

(** the mark pays for the lost child *)
Lemma fibo_mark (m : list Element) live y :
  (y < length m)%nat → mark (m !!! y) = false →
  Fibo m live (Some y) → Fibo (upd m y (set_mark true)) live None.
Proof.
  intros Hy Hmk HL p Hp. destruct (HL p Hp) as (ys & Hnd & Hys & Hdeg).
  exists ys. split_and!; [done| |].
  - intros c. rewrite (Hys c). by mem_simpl.
  - intros i c Hi. specialize (Hdeg i c Hi). rewrite decide_False by done.
    unfold edeg in *. mem_simpl.
    destruct (decide (c = y)) as [->|Hcy].
    + rewrite decide_True in Hdeg by done. mem_simpl. simpl.
      rewrite Hmk in Hdeg. lia.
    + rewrite decide_False in Hdeg by congruence. mem_simpl. lia.
Qed.

Lemma relinked_mark (m : list Element) live y b :
  Forest m live → ordered m live →
  Forest (upd m y (set_mark b)) live ∧ ordered (upd m y (set_mark b)) live ∧
  ∀ o l, siblings m live o l → siblings (upd m y (set_mark b)) live o l.
Proof.
  intros HF Ho. split_and!.
  - apply (forest_frame m); [done|..].
    + intros c Hc. rewrite upd_length. by apply (forest_alloc _ _ HF).
    + intros c _. unfold same_fields. by mem_simpl.
    + intros c _ _. unfold same_links. by mem_simpl.
  - apply (ordered_transfer m _ live live Ho).
    + intros c p Hc. by mem_simpl.
    + intros r. by mem_simpl.
  - intros o l Hs. apply (siblings_frame m _ live live o l Hs).
    + intros c _. by mem_simpl.
    + intros c. by mem_simpl.
Qed.

#[global] Arguments Fib._cascading_cut : simpl nomatch.

Lemma wp_cascading_cut_inv live head : ∀ fuel y m s roots,
  Forest m live → ordered m live → siblings m live None roots →
  head ∈ roots → _min s = Some head →
  Fibo m live (Some y) → y ∈ live → (count_marked m < fuel)%nat →
  wp (Fib._cascading_cut fuel y) (World m s)
    (λ _ w', self w' = s ∧ Forest (mem w') live ∧ ordered (mem w') live ∧
             (∃ roots', siblings (mem w') live None roots' ∧
                        ∀ r, r ∈ roots → r ∈ roots') ∧
             Fibo (mem w') live None ∧ same_data m (mem w'))
    noexn False.
Proof.
  induction fuel as [|fuel IH]; intros y m s roots HF Ho Hroots Hh Hmin HL Hy Hfuel;
    [lia|].
  pose proof (forest_alloc _ _ HF y Hy) as Hya.
  simpl. wp_steps.
  destruct (parent (m !!! y)) as [z|] eqn:Hyp.
  2:{ wp_steps. split_and!; try done.
      - exists roots. by split.
      - by apply (fibo_bad_root m live y). }
  wp_steps. destruct (mark (m !!! y)) eqn:Hmk; simpl.
  - destruct (siblings_rotate _ _ _ _ head Hroots Hh) as (rs & Hperm & Hroots').
    wp_step1.
    apply (wp_cut_inv m s live y z head rs (Some y)); try done.
    { intros c p Hc _. by apply Ho. }
    { by right. }
    intros m' HF' Ho' Hroots'' HL' Hlen Hdata.
    eapply wp_mono;
      [apply (IH z m' s (head :: y :: rs)); try done|simpl|done..].
    + apply list_elem_of_here.
    + by apply (forest_parent _ _ HF y).
    + assert (S (count_marked m') = count_marked m); [|lia].
      apply (count_marked_clear _ _ y); try done.
      intros r. by destruct (Hdata r) as (-> & _).
    + intros _ w' (Hs & HF2 & Ho2 & (roots' & Hr2 & Hsub) & HL2 & [Hl2 Hd2]).
      split_and!; try done.
      * exists roots'. split; [done|]. intros r Hr. apply Hsub.
        rewrite <- Hperm in Hr. apply elem_of_cons in Hr as [->|Hr].
        -- apply list_elem_of_here.
        -- by do 2 apply list_elem_of_further.
      * split; [congruence|]. intros r. destruct (Hd2 r) as [-> ->].
        by destruct (Hdata r) as (_ & ? & ?).
  - wp_steps. destruct (relinked_mark m live y true HF Ho) as (HF' & Ho' & Hs').
    split_and!; try done.
    + exists roots. split; [by apply Hs'|done].
    + by apply fibo_mark.
    + split; [by mem_simpl|]. intros r. by mem_simpl.
Qed.

(** ** Heaps *)

(** every node is below a root that is not larger *)
Lemma root_above m live x :
  Forest m live → ordered m live → x ∈ live →
  ∃ r, r ∈ live ∧ parent (m !!! r) = None ∧
       prio_le (priority (m !!! r)) (priority (m !!! x)).
Proof.
  intros [_ _ _ Hpa [rk Hrk]] Ho Hx.
  destruct (list_max_by rk live) as (t & Ht & Hmax).
  { intros ->. by apply elem_of_nil in Hx. }
  assert (∀ n y, y ∈ live → (rk t ≤ rk y + n)%nat →
            ∃ r, r ∈ live ∧ parent (m !!! r) = None ∧
                 prio_le (priority (m !!! r)) (priority (m !!! y))) as H.
  { induction n as [|n IH]; intros y Hy Hn;
      (destruct (parent (m !!! y)) as [p|] eqn:Hp;
       [|exists y; split_and!; [done..|apply prio_le_refl]]).
    - pose proof (Hmax p (Hpa y p Hy Hp)). specialize (Hrk y p Hy Hp). lia.
    - destruct (IH p (Hpa y p Hy Hp)) as (r & Hr & Hrp & Hle).
      { specialize (Hrk y p Hy Hp). lia. }
      exists r. split_and!; [done..|].
      eapply prio_le_trans; [exact Hle|]. by apply Ho. }
  apply (H (rk t) x Hx). lia.
Qed.

Lemma least_root_least m live roots r :
  Forest m live → ordered m live → siblings m live None roots →
  least_in m roots r →
  r ∈ live ∧ ∀ x, x ∈ live → prio_le (priority (m !!! r)) (priority (m !!! x)).
Proof.
  intros HF Ho Hs [Hr Hle]. split; [by apply (siblings_live _ _ _ _ r Hs)|].
  intros x Hx. destruct (root_above m live x HF Ho Hx) as (t & Ht & Htp & Htx).
  eapply prio_le_trans; [|exact Htx]. apply Hle. by apply (siblings_in _ _ _ _ t Hs).
Qed.

Lemma wp_conj {A} (c : M A) w (Q1 Q2 : A → world → Prop) E S :
  wp c w Q1 E S → wp c w Q2 E S → wp c w (λ a w', Q1 a w' ∧ Q2 a w') E S.
Proof. unfold wp. by destruct (c w). Qed.

Lemma Heap_empty : Heap empty_world [].
Proof.
  split; [apply Inv_empty|done|]. by intros p ?%elem_of_nil.
Qed.

Lemma fibo_insert (m m' : list Element) live e :
  Forest m live → Fibo m live None → e = length m →
  parent (m' !!! e) = None →
  (∀ r, (r < length m)%nat →
        parent (m' !!! r) = parent (m !!! r) ∧
        mark (m' !!! r) = mark (m !!! r) ∧
        degree (m' !!! r) = degree (m !!! r)) →
  Fibo m' (e :: live) None.
Proof.
  intros HF HL -> Hpe Hold.
  assert (length m ∉ live) as He.
  { intros He. pose proof (forest_alloc _ _ HF _ He). lia. }
  assert (∀ c p, c ∈ length m :: live → parent (m' !!! c) = Some p →
                 c ∈ live ∧ parent (m !!! c) = Some p ∧ p ∈ live) as Hpar.
  { intros c p [->|Hc]%elem_of_cons Hcp; [congruence|].
    destruct (Hold c (forest_alloc _ _ HF c Hc)) as (Hp & _).
    rewrite Hp in Hcp. split_and!; [done..|]. by apply (forest_parent _ _ HF c). }
  intros p [->|Hp]%elem_of_cons.
  - exists []. split_and!; [constructor| |by intros i y ?].
    intros c. split; [by intros ?%elem_of_nil|]. intros [Hc Hcp].
    by destruct (Hpar c _ Hc Hcp) as (_ & _ & ?).
  - destruct (HL p Hp) as (ys & Hnd & Hys & Hdeg).
    exists ys. split_and!; [done| |].
    + intros c. rewrite (Hys c). split.
      * intros [Hc Hcp]. split; [by apply list_elem_of_further|].
        by destruct (Hold c (forest_alloc _ _ HF c Hc)) as (-> & _).
      * intros [Hc Hcp]. by destruct (Hpar c p Hc Hcp) as (? & ? & _).
    + intros i y Hi. specialize (Hdeg i y Hi).
      apply list_elem_of_lookup_2, Hys in Hi as [Hy _].
      unfold edeg in *.
      by destruct (Hold y (forest_alloc _ _ HF y Hy)) as (_ & -> & ->).
Qed.

Lemma wp_insert_heap x p w live :
  Heap w live →
  wp (Fib.insert x p) w
    (λ e w', e = length (mem w) ∧ Heap w' (e :: live) ∧
             length (mem w') = S (length (mem w)) ∧
             obj (mem w' !!! e) = x ∧ priority (mem w' !!! e) = p ∧
             (∀ r, (r < length (mem w))%nat →
                   obj (mem w' !!! r) = obj (mem w !!! r) ∧
                   priority (mem w' !!! r) = priority (mem w !!! r)))
    noexn False.
Proof.
  intros [HI Hleast HL].
  eapply wp_mono;
    [apply (wp_conj _ _ _ _ _ _ (insert_min_is_least x p w live HI Hleast)
              (wp_insert x p w live HI))|simpl|done..].
  intros e w' [(-> & HI' & Hleast' & Hlen & Ho & Hp & Hold)
               (_ & _ & _ & _ & _ & Hold' & _ & _ & Hpe & Hdeg)].
  split_and!; try done. split; [done..|].
  apply (fibo_insert (mem w) (mem w') live); try done.
  - apply (inv_forest _ _ HI).
  - intros r Hr. destruct (Hold' r Hr) as (_ & _ & ? & ?).
    split_and!; [done..|]. by apply Hdeg.
Qed.

Lemma wp_inserts_heap l w live :
  Heap w live →
  wp (inserts l) w
    (λ rs w', rs = seq (length (mem w)) (length l) ∧
              Heap w' (reverse rs ++ live) ∧
              length (mem w') = (length (mem w) + length l)%nat ∧
              (∀ i x p, l !! i = Some (x, p) →
                 obj (mem w' !!! (length (mem w) + i)%nat) = x ∧
                 priority (mem w' !!! (length (mem w) + i)%nat) = p) ∧
              (∀ r, (r < length (mem w))%nat →
                    obj (mem w' !!! r) = obj (mem w !!! r) ∧
                    priority (mem w' !!! r) = priority (mem w !!! r)))
    noexn False.
Proof.
  revert w live. induction l as [|[x p] l IH]; intros w live HH; simpl.
  - wp_steps. split_and!; try done; lia.
  - wp_step1. eapply wp_mono; [by apply wp_insert_heap|simpl|done..].
    intros e w1 (-> & HH1 & Hlen1 & Ho1 & Hp1 & Hold1).
    wp_step1. eapply wp_mono; [by apply IH|simpl|done..].
    intros rs w2 (-> & HH2 & Hlen2 & Hnew2 & Hold2).
    wp_steps. rewrite Hlen1 in *.
    assert (reverse (seq (S (length (mem w))) (length l)) ++ length (mem w) :: live =
            reverse (length (mem w) :: seq (S (length (mem w))) (length l)) ++ live) as Heq.
    { rewrite reverse_cons. by rewrite <-app_assoc. }
    rewrite <-Heq.
    split_and!; try done; [lia| |].
    + intros [|i] y q Hi; simpl in Hi.
      * injection Hi as -> ->. rewrite Nat.add_0_r.
        destruct (Hold2 (length (mem w))) as [-> ->]; [lia|done].
      * replace (length (mem w) + S i)%nat with (S (length (mem w)) + i)%nat by lia.
        by apply Hnew2.
    + intros r Hr. destruct (Hold2 r) as [-> ->]; [lia|]. by apply Hold1.
Qed.

Lemma wp_extract_min_heap fuel w live :
  Heap w live → (length live ≤ fuel)%nat →
  wp (Fib.extract_min fuel) w
    (λ o w', match o with
             | None => live = [] ∧ w' = w
             | Some z => ∃ live' roots,
                 extracted w w' live z live' roots ∧ Heap w' live' ∧
                 _size (self w') = _size (self w) - 1 ∧
                 ∀ x, x ∈ live →
                   prio_le (priority (mem w !!! z)) (priority (mem w !!! x))
             end)
    noexn False.
Proof.
  intros [HI Hleast HL] Hfuel.
  eapply wp_mono; [by apply (wp_extract_min fuel w live)|simpl|done..].
  intros [z|] w'; [|done]. intros (live' & roots & Hex & Hsz).
  exists live', roots. split_and!; try done.
  - destruct Hex as (Hmin & Hperm & HI' & HL' & Hdata & Hs & Hdist & Hmin').
    split; [done| |done]. unfold min_is_least.
    destruct (_min (self w')) as [r|].
    + by apply (least_root_least _ _ roots);
        [apply (inv_forest _ _ HI')|apply (inv_order _ _ HI')|..].
    + subst roots. destruct (decide (live' = [])) as [->|Hne]; [done|].
      destruct (forest_has_root _ _ (inv_forest _ _ HI') Hne) as (r & Hr & Hp).
      assert (r ∈ []) as Hin by by apply Hs. by apply elem_of_nil in Hin.
  - destruct Hex as (Hmin & _). unfold min_is_least in Hleast.
    rewrite Hmin in Hleast. apply Hleast.
Qed.

Lemma wp_ok {A} (c : M A) w (Q : A → world → Prop) :
  wp c w Q noexn False → ∃ a w', c w = Ok a w' ∧ Q a w'.
Proof. unfold wp. destruct (c w) as [a w'| |]; [|done..]. by exists a, w'. Qed.

Lemma StronglySorted_mono {A} (R R' : A → A → Prop) l :
  (∀ a b, R a b → R' a b) → StronglySorted R l → StronglySorted R' l.
Proof.
  intros HR. induction 1 as [|a l _ IH Hall]; constructor; [done|].
  eapply Forall_impl; [exact Hall|]. intros b. apply HR.
Qed.

(** [extract_min] until the heap is empty returns the nodes in the order
    of their priorities *)
Lemma wp_extract_all fuel : ∀ k w live,
  Heap w live → (length live < k)%nat → (length live ≤ fuel)%nat →
  wp (extract_all fuel k) w
    (λ rs w', rs ≡ₚ live ∧
              StronglySorted
                (λ a b, prio_le (priority (mem w !!! a)) (priority (mem w !!! b))) rs ∧
              same_data (mem w) (mem w') ∧ Heap w' [])
    noexn False.
Proof.
  induction k as [|k IH]; intros w live HH Hk Hfuel; [lia|]. simpl.
  wp_step1. eapply wp_mono; [by apply wp_extract_min_heap|simpl|done..].
  intros [z|] w1.
  - intros (live' & roots & Hex & HH1 & Hsz & Hleast).
    destruct Hex as (Hmin & Hperm & _ & _ & Hdata & _).
    assert (length live = S (length live')) as Hlen by by rewrite Hperm.
    wp_step1. eapply wp_mono; [apply (IH w1 live' HH1); lia|simpl|done..].
    intros rs w2 (Hrs & Hsorted & Hdata2 & HH2). wp_steps.
    split_and!; [by rewrite Hperm, Hrs| |by eapply same_data_trans|done].
    destruct Hdata as [_ Hd]. constructor.
    + eapply StronglySorted_mono; [|exact Hsorted].
      intros a b. by destruct (Hd a) as [-> _], (Hd b) as [-> _].
    + apply Forall_forall. intros x Hx. apply Hleast.
      rewrite Hperm. apply list_elem_of_further. by rewrite <- Hrs.
  - intros [-> ->]. wp_steps. split_and!; [done|constructor|apply same_data_refl|done].
Qed.

Lemma fibo_perm m live live' bad : Fibo m live bad → live ≡ₚ live' → Fibo m live' bad.
Proof.
  intros HL Hp. apply (fibo_transfer m m live live' bad HL).
  - intros r. by rewrite Hp.
  - intros c p _. by rewrite Hp.
  - done.
Qed.

Lemma Inv_perm w live live' : Inv w live → live ≡ₚ live' → Inv w live'.
Proof.
  intros [HF Ho (l & [Hr Hm] & Hmin) Hsz] Hp. split.
  - by apply (forest_perm _ live).
  - by apply (ordered_perm _ live).
  - exists l. split; [|done]. split; [done|]. intros c. rewrite <- Hp. apply Hm.
  - by rewrite <- Hp.
Qed.

Lemma Heap_perm w live live' : Heap w live → live ≡ₚ live' → Heap w live'.
Proof.
  intros [HI Hl HL] Hp. split.
  - by apply (Inv_perm w live).
  - unfold min_is_least in *. destruct (_min (self w)) as [r|].
    + destruct Hl as [Hr Hle]. split; [by rewrite <- Hp|].
      intros x Hx. apply Hle. by rewrite Hp.
    + subst live. by apply Permutation_nil_l in Hp.
  - by apply (fibo_perm _ live).
Qed.


(** ** [decrease_key] and [delete] on a heap *)

Lemma set_priority_frame (m : list Element) live x p :
  Forest m live → Fibo m live None →
  Forest (upd m x (set_priority p)) live ∧
  Fibo (upd m x (set_priority p)) live None ∧
  (∀ o l, siblings m live o l → siblings (upd m x (set_priority p)) live o l) ∧
  count_marked (upd m x (set_priority p)) = count_marked m.
Proof.
  intros HF HL. split_and!.
  - apply (forest_frame m); [done|..].
    + intros c Hc. rewrite upd_length. by apply (forest_alloc _ _ HF).
    + intros c _. unfold same_fields. by mem_simpl.
    + intros c _ _. unfold same_links. by mem_simpl.
  - apply (fibo_transfer m _ live live None HL); [done|..].
    + intros c q _. by mem_simpl.
    + intros c _. unfold edeg. by mem_simpl.
  - intros o l Hs. apply (siblings_frame m _ live live o l Hs).
    + intros c _. by mem_simpl.
    + intros c. by mem_simpl.
  - apply count_marked_ext; [by mem_simpl|]. intros r _. by mem_simpl.
Qed.

Lemma wp_decrease_key_heap fuel x p w live :
  Heap w live → x ∈ live → (count_marked (mem w) < fuel)%nat →
  wp (Fib.decrease_key fuel x p) w
    (λ _ w', prio_ltb p (priority (mem w !!! x)) = true ∧
             Heap w' live ∧ _size (self w') = _size (self w) ∧
             length (mem w') = length (mem w) ∧
             (∀ r, priority (mem w' !!! r) =
                   if decide (r = x) then p else priority (mem w !!! r)) ∧
             (∀ r, obj (mem w' !!! r) = obj (mem w !!! r)))
    (λ e w', e = guard_error p (priority (mem w !!! x)) ∧ w' = w ∧
             prio_ltb p (priority (mem w !!! x)) = false)
    False.
Proof.
  intros [[HF Ho Hroots Hsize] Hleast HL] Hx Hfuel.
  destruct w as [m s]. simpl in *.
  pose proof (forest_alloc _ _ HF) as Hal. pose proof (Hal x Hx) as Hxa.
  unfold Fib.decrease_key. wp_steps.
  destruct (prio_ltb p (priority (m !!! x))) eqn:Hlt; simpl;
    [|by apply wp_guard].
  unfold min_is_least in Hleast. simpl in Hleast.
  destruct (_min s) as [head|] eqn:Hmin;
    [|subst live; by apply elem_of_nil in Hx].
  destruct Hleast as [Hhead Hleast].
  destruct Hroots as (roots & Hroots & Hhr).
  wp_steps.
  destruct (set_priority_frame m live x p HF HL) as (HF1 & HL1 & Hs1 & Hcm1).
  set (m1 := upd m x (set_priority p)) in *.
  assert (length m1 = length m) as Hl1 by (unfold m1; by mem_simpl).
  assert (∀ r, priority (m1 !!! r) = if decide (r = x) then p else priority (m !!! r))
    as Hpr1.
  { intros r. unfold m1. mem_simpl. by case_decide; subst. }
  assert (∀ r, obj (m1 !!! r) = obj (m !!! r)) as Hob1.
  { intros r. unfold m1. by mem_simpl. }
  assert (∀ r, parent (m1 !!! r) = parent (m !!! r)) as Hpa1.
  { intros r. unfold m1. by mem_simpl. }
  assert (∀ c q, c ∈ live → c ≠ x → parent (m1 !!! c) = Some q →
            prio_le (priority (m1 !!! q)) (priority (m1 !!! c))) as Ho1.
  { intros c q Hc Hcx. rewrite Hpa1, !Hpr1. intros Hcq.
    rewrite (decide_False (P := c = x)) by done.
    case_decide; [subst q|by apply Ho].
    apply prio_lt_le. eapply prio_lt_le_trans; [exact Hlt|by apply Ho]. }
  clearbody m1.
  (* the last step: the update of the minimum *)
  assert (∀ mf roots',
    Forest mf live → ordered mf live → siblings mf live None roots' →
    head ∈ roots' → Fibo mf live None → length mf = length m →
    (∀ r, priority (mf !!! r) = if decide (r = x) then p else priority (m !!! r)) →
    (∀ r, obj (mf !!! r) = obj (m !!! r)) →
    (x ∈ roots' ∨
     ∃ y, y ∈ live ∧ y ≠ x ∧ prio_le (priority (m !!! y)) p) →
    wp (px ← rd priority x; mn ← get_min; mn ← attr mn; pm ← rd priority mn;
        if prio_ltb px pm then set_min (Some x) else mret ()) (World mf s)
      (λ _ w', true = true ∧ Heap w' live ∧ _size (self w') = _size s ∧
               length (mem w') = length m ∧
               (∀ r, priority (mem w' !!! r) =
                     if decide (r = x) then p else priority (m !!! r)) ∧
               (∀ r, obj (mem w' !!! r) = obj (m !!! r)))
      (λ e w', e = guard_error p (priority (m !!! x)) ∧ w' = World m s ∧
               true = false) False) as Hlast.
  { intros mf roots' HFf Hof Hrf Hhf HLf Hlf Hprf Hobf Hxr.
    pose proof (Hal head Hhead) as Hha.
    wp_steps; try lia. rewrite Hmin. simpl. wp_steps; try lia.
    rewrite !Hprf. rewrite (decide_True (P := x = x)) by done.
    destruct (prio_ltb p (if decide (head = x) then p else priority (m !!! head)))
      eqn:Hcmp.
    - assert (head ≠ x) as Hhx.
      { intros ->. rewrite decide_True in Hcmp by done.
        by rewrite prio_ltb_irrefl in Hcmp. }
      rewrite decide_False in Hcmp by done.
      assert (x ∈ roots') as Hxin.
      { destruct Hxr as [?|(y & Hy & Hyx & Hle)]; [done|]. exfalso.
        assert (prio_le (priority (m !!! head)) p) as Hle'.
        { eapply prio_le_trans; [by apply Hleast|done]. }
        unfold prio_le in Hle'. congruence. }
      wp_steps. split_and!; try done. split; simpl.
      + split; simpl; [done..|by exists roots'|done].
      + unfold min_is_least. simpl. split; [done|]. intros r Hr.
        rewrite !Hprf, (decide_True (P := x = x)) by done.
        case_decide; [apply prio_le_refl|].
        apply prio_lt_le. eapply prio_lt_le_trans; [exact Hcmp|by apply Hleast].
      + done.
    - wp_steps. split_and!; try done. split; simpl.
      + split; simpl; [done..| |done]. rewrite Hmin. by exists roots'.
      + unfold min_is_least. simpl. rewrite Hmin. split; [done|]. intros r Hr.
        rewrite !Hprf. destruct (decide (r = x)) as [->|Hrx]; [exact Hcmp|].
        case_decide; [subst head|by apply Hleast].
        apply prio_lt_le. eapply prio_lt_le_trans; [exact Hlt|by apply Hleast].
      + done. }
  assert (parent (m1 !!! x) = parent (m !!! x)) as Hpx by apply Hpa1.
  destruct (parent (m !!! x)) as [y|] eqn:Hpar.
  2:{ apply wp_ret. apply (Hlast m1 roots); try done.
      - intros c q Hc Hcq. destruct (decide (c = x)) as [->|Hcx]; [congruence|].
        by apply Ho1.
      - by apply Hs1.
      - left. apply (siblings_in _ _ _ _ x Hroots); done. }
  assert (y ∈ live) as Hy by by apply (forest_parent _ _ HF x).
  assert (y ≠ x) as Hyx.
  { intros ->. destruct (forest_rank _ _ HF) as [rk Hrk].
    specialize (Hrk x x Hx Hpar). lia. }
  pose proof (Hal y Hy) as Hya.
  wp_steps; try lia. rewrite !Hpr1.
  rewrite (decide_True (P := x = x)), (decide_False (P := y = x)) by done.
  destruct (prio_ltb p (priority (m !!! y))) eqn:Hcut.
  - wp_step1.
    destruct (siblings_rotate _ _ _ _ head (Hs1 _ _ Hroots) Hhr)
      as (rs & Hperm & Hroots1).
    apply (wp_cut_inv m1 s live x y head rs None); try done.
    { by left. }
    intros m2 HF2 Ho2 Hroots2 HL2 Hl2 Hdata2.
    eapply wp_mono;
      [apply (wp_cascading_cut_inv live head fuel y m2 s (head :: x :: rs));
       try done|simpl|done..].
    + apply list_elem_of_here.
    + assert (count_marked m2 ≤ count_marked m1)%nat; [|lia].
      destruct (mark (m1 !!! x)) eqn:Hmx.
      * assert (S (count_marked m2) = count_marked m1); [|lia].
        apply (count_marked_clear _ _ x); try done; try lia.
        intros r. by destruct (Hdata2 r) as (-> & _).
      * rewrite (count_marked_ext m1 m2); [done|done|].
        intros r _. destruct (Hdata2 r) as (-> & _).
        destruct (decide (r = x)) as [->|]; [by rewrite Hmx|done].
    + intros _ [m3 s3] (Hs3 & HF3 & Ho3 & (roots3 & Hr3 & Hsub) & HL3 & [Hl3 Hd3]).
      simpl in *. subst s3.
      apply (Hlast m3 roots3); try done.
      * apply Hsub, list_elem_of_here.
      * congruence.
      * intros r. destruct (Hd3 r) as [-> _].
        destruct (Hdata2 r) as (_ & -> & _). apply Hpr1.
      * intros r. destruct (Hd3 r) as [_ ->].
        destruct (Hdata2 r) as (_ & _ & ->). apply Hob1.
      * left. apply Hsub, list_elem_of_further, list_elem_of_here.
  - apply wp_ret. apply (Hlast m1 roots); try done.
    + intros c q Hc Hcq. destruct (decide (c = x)) as [->|Hcx]; [|by apply Ho1].
      rewrite Hpa1, Hpar in Hcq. injection Hcq as <-.
      rewrite !Hpr1. rewrite (decide_True (P := x = x)) by done.
      rewrite (decide_False (P := y = x)) by done. exact Hcut.
    + by apply Hs1.
    + right. exists y. by split_and!.
Qed.

Lemma prio_le_NegInf_inv a : prio_le a NegInf → a = NegInf.
Proof. by destruct a. Qed.

Lemma heap_length (w : world) live : Heap w live → (length live ≤ length (mem w))%nat.
Proof.
  intros [[HF _ _ _] _ _].
  transitivity (length (seq 0 (length (mem w)))); [|by rewrite length_seq].
  apply submseteq_length, NoDup_submseteq; [apply (forest_nodup _ _ HF)|].
  intros r Hr. apply elem_of_seq. pose proof (forest_alloc _ _ HF r Hr). lia.
Qed.

Lemma wp_delete_heap fuel x w live :
  Heap w live → x ∈ live →
  (∀ r, r ∈ live → priority (mem w !!! r) ≠ NegInf) →
  (length (mem w) < fuel)%nat →
  wp (Fib.delete fuel x) w
    (λ _ w', ∃ live', live ≡ₚ x :: live' ∧ Heap w' live' ∧
             _size (self w') = _size (self w) - 1 ∧
             length (mem w') = length (mem w) ∧
             (∀ r, priority (mem w' !!! r) =
                   if decide (r = x) then NegInf else priority (mem w !!! r)) ∧
             (∀ r, obj (mem w' !!! r) = obj (mem w !!! r)))
    noexn False.
Proof.
  intros HH Hx Hfin Hfuel. unfold Fib.delete.
  pose proof (heap_length w live HH) as Hll.
  pose proof (count_marked_le (mem w)) as Hcm.
  wp_step1.
  eapply wp_mono;
    [apply (wp_decrease_key_heap fuel x NegInf w live HH Hx); lia|simpl|..|done].
  2:{ intros e w' (_ & _ & Hlt). specialize (Hfin x Hx).
      by destruct (priority (mem w !!! x)). }
  intros _ w1 (_ & HH1 & Hsz1 & Hl1 & Hpr1 & Hob1).
  wp_step1.
  eapply wp_mono; [apply (wp_extract_min_heap fuel w1 live HH1); lia|simpl|done..].
  intros [z|] w2.
  2:{ intros [-> _]. by apply elem_of_nil in Hx. }
  intros (live' & roots & Hex & HH2 & Hsz2 & Hleast).
  destruct Hex as (Hmin & Hperm & _ & _ & [Hl2 Hd2] & _).
  assert (z = x) as ->.
  { destruct (decide (z = x)) as [|Hzx]; [done|]. exfalso.
    assert (z ∈ live) as Hz by (rewrite Hperm; apply list_elem_of_here).
    specialize (Hleast x Hx). rewrite !Hpr1 in Hleast.
    rewrite (decide_True (P := x = x)) in Hleast by done.
    rewrite (decide_False (P := z = x)) in Hleast by done.
    apply prio_le_NegInf_inv in Hleast. by apply (Hfin z Hz). }
  wp_steps. exists live'. split_and!; try done; [lia|congruence| |].
  - intros r. destruct (Hd2 r) as [-> _]. apply Hpr1.
  - intros r. destruct (Hd2 r) as [_ ->]. apply Hob1.
Qed.

(** on a node whose priority is [-inf] the guard of [decrease_key] is
    taken whatever the new priority, and the formatting of its message
    raises [OverflowError] *)
Lemma decrease_key_neginf fuel x p w :
  (x < length (mem w))%nat → priority (mem w !!! x) = NegInf →
  Fib.decrease_key fuel x p w = Raise OverflowError w.
Proof.
  intros Hx Hp.
  assert (wp (Fib.decrease_key fuel x p) w (λ _ _, False)
            (λ e w', e = OverflowError ∧ w' = w) False) as H.
  { unfold Fib.decrease_key. wp_steps. rewrite Hp.
    assert (prio_ltb p NegInf = false) as -> by by destruct p.
    simpl. apply wp_guard; [done|]. rewrite Hp. by destruct p. }
  unfold wp in H.
  destruct (Fib.decrease_key fuel x p w) as [|e w'|]; [done| |done].
  by destruct H as [-> ->].
Qed.


(** * The claims *)

(** C10: after any sequence of inserts into a new heap, every inserted
    element is in the arena with its payload and priority, [min] returns,
    without changing the state, an inserted element whose priority is the
    least among all inserted elements, and [min] returns [None] exactly when
    [size] returns 0. *)
Theorem peek_min_after_inserts (l : list (string * prio)) :
  wp (inserts l) empty_world
    (λ rs w,
       length rs = length l ∧
       (∀ i r x p, rs !! i = Some r → l !! i = Some (x, p) →
          obj (mem w !!! r) = x ∧ priority (mem w !!! r) = p) ∧
       wp Fib.min w
         (λ mn w',
            w' = w ∧
            match mn with
            | None => rs = []
            | Some r => r ∈ rs ∧
                ∀ r', r' ∈ rs →
                  prio_le (priority (mem w !!! r)) (priority (mem w !!! r'))
            end ∧
            wp Fib.size w (λ n _, mn = None ↔ n = 0) noexn False)
         noexn False)
    noexn False.
Proof.
  eapply wp_mono; [apply (wp_inserts l empty_world [] Inv_empty); done|simpl|done..].
  intros rs w (-> & HI & Hleast & Hlen & Hnew & _).
  rewrite app_nil_r in *. split_and!.
  - by rewrite length_seq.
  - intros i r x p Hr Hi. apply lookup_seq in Hr as [-> _]. by apply Hnew.
  - unfold Fib.min, Fib.size, wp, get_min, get_size. simpl.
    pose proof (inv_size _ _ HI) as Hsz.
    rewrite length_reverse, length_seq in Hsz.
    unfold min_is_least in Hleast.
    destruct (_min (self w)) as [r|].
    + destruct Hleast as [Hr Hle]. rewrite elem_of_reverse in Hr.
      split_and!; [done|done| |].
      * intros r' Hr'. apply Hle. by rewrite elem_of_reverse.
      * split; [done|]. intros Hz.
        assert (length l = 0%nat) as Hl by lia. rewrite Hl in Hr.
        by apply elem_of_nil in Hr.
    + apply (f_equal length) in Hleast.
      rewrite length_reverse, length_seq in Hleast. simpl in Hleast.
      rewrite Hleast in *. simpl. split_and!; [done|done|]. split; [lia|done].
Qed.

(** C1 (code_bug): [heap1 = {(X,10)}], [heap2 = {(Y,2),(Z,7)}]: after
    [heap1.merge(heap2)], [min] still returns X with priority 10, not the
    smaller of the two minima. *)
Theorem merge_ignores_smaller_minimum :
  ∃ wA hB, two_heaps = Some (wA, hB) ∧
    min_priority (mem wA) (self wA) = Some (Fin 10) ∧
    min_priority (mem wA) hB = Some (Fin 2) ∧
    ∃ hB' w', Fib.merge hB wA = Ok hB' w' ∧
      min_priority (mem w') (self w') = Some (Fin 10) ∧
      min_priority (mem w') (self w') ≠ Some (prio_min (Fin 10) (Fin 2)).
Proof.
  vm_compute. do 2 eexists. split; [reflexivity|]. vm_compute.
  split; [reflexivity|]. split; [reflexivity|].
  do 2 eexists. split; [reflexivity|]. vm_compute.
  split; [reflexivity|]. intros H. discriminate H.
Qed.

(** C3 (code_bug): with a non-empty receiver and an empty argument,
    [merge] raises on [min_two.right] and leaves the state as it was. *)
Theorem merge_empty_argument_raises (w : world) (heap : FibonacciHeap) (m1 : ref) :
  _min (self w) = Some m1 → (m1 < length (mem w))%nat → _min heap = None →
  Fib.merge heap w = Raise AttributeError w.
Proof.
  intros Hmin Hm1 Hh. unfold Fib.merge.
  cbv [mbind M_bind get_min rd load mret M_ret]. rewrite Hmin, Hh.
  rewrite (list_lookup_lookup_total_lt _ _ Hm1). done.
Qed.

Lemma merge_empty_argument_raises_witness :
  Fib.merge (mkHeap 0 None)
    (World [mkElement "X" (Fin 10) 0%nat 0%nat None None 0 false] (mkHeap 1 (Some 0%nat)))
  = Raise AttributeError
      (World [mkElement "X" (Fin 10) 0%nat 0%nat None None 0 false] (mkHeap 1 (Some 0%nat))).
Proof.
  apply (merge_empty_argument_raises _ _ 0%nat); [reflexivity|simpl; lia|reflexivity].
Defined.

(** C6: for two heaps over one arena without a common node, after
    [A.merge(B)] the size of A is the sum of the two sizes and B is empty;
    when the call raises (A non-empty, B empty) nothing has changed, and the
    same holds since B was empty. *)
Theorem merge_adds_sizes (w : world) (heap : FibonacciHeap) (liveA liveB : list ref) :
  Inv w liveA → Inv (World (mem w) heap) liveB →
  (∀ x, x ∈ liveA → x ∉ liveB) →
  match Fib.merge heap w with
  | Ok heap' w' =>
      _size (self w') = _size (self w) + _size heap ∧
      _size heap' = 0 ∧ _min heap' = None
  | Raise e w' =>
      _size (self w') = _size (self w) + _size heap ∧
      _size heap = 0 ∧ _min heap = None
  | Stuck => False
  end.
Proof.
  intros HA HB Hdisj. pose proof (wp_merge heap w liveA liveB HA HB Hdisj) as H.
  unfold wp in H. destruct (Fib.merge heap w) as [h' w'|e w'|]; [| |done].
  - by destruct H as (-> & ? & _).
  - destruct H as (_ & -> & _ & Hmin).
    pose proof (inv_empty _ _ HB Hmin) as ->.
    pose proof (inv_size _ _ HB) as Hsz. simpl in Hsz. rewrite Hsz. simpl.
    split_and!; [lia|done..].
Qed.

Lemma heapA_ex_Inv : Inv heapA_ex [0%nat].
Proof.
  pose proof (wp_insert "X" (Fin 10) empty_world [] Inv_empty) as H.
  unfold wp in H. vm_compute Fib.insert in H. destruct H as (_ & H & _).
  apply (Inv_frame _ (mem heapA_ex)) in H; [done|simpl; lia|].
  by intros r ->%list_elem_of_singleton.
Qed.

Lemma heapB_ex_Inv : Inv (World (mem heapA_ex) heapB_ex) [1%nat].
Proof.
  pose proof (wp_insert "Y" (Fin 2)
    (World [mkElement "X" (Fin 10) 0%nat 0%nat None None 0 false] (mkHeap 0 None)) []
    (Inv_fresh_heap _)) as H.
  unfold wp in H. vm_compute Fib.insert in H. by destruct H as (_ & H & _).
Qed.

Lemma merge_adds_sizes_witness :
  match Fib.merge heapB_ex heapA_ex with
  | Ok heap' w' =>
      _size (self w') = _size (self heapA_ex) + _size heapB_ex ∧
      _size heap' = 0 ∧ _min heap' = None
  | Raise e w' =>
      _size (self w') = _size (self heapA_ex) + _size heapB_ex ∧
      _size heapB_ex = 0 ∧ _min heapB_ex = None
  | Stuck => False
  end.
Proof.
  apply (merge_adds_sizes heapA_ex heapB_ex [0%nat] [1%nat]
           heapA_ex_Inv heapB_ex_Inv).
  intros x ->%list_elem_of_singleton [=]%list_elem_of_singleton.
Defined.

Lemma beside_neginf_Heap : Heap beside_neginf [2; 1; 0]%nat.
Proof.
  pose proof (wp_inserts_heap beside_neginf_inserts empty_world [] Heap_empty) as H.
  unfold wp in H. vm_compute inserts in H. by destruct H as (_ & H & _).
Qed.

(** C4 (code_bug): on an element whose priority is [-inf], every new
    priority is "not smaller", so [decrease_key] takes the guard; the
    message of its [ValueError] is formatted with [%d] first, and that
    raises [OverflowError].  The state is unchanged, but the failure is not
    an InvalidOperation: the docstring promises [ValueError]. *)
Theorem decrease_key_overflows_on_neginf (fuel : nat) (h : ref) (p : prio)
    (w : world) (live : list ref) :
  Heap w live → h ∈ live → priority (mem w !!! h) = NegInf →
  prio_le (priority (mem w !!! h)) p ∧
  Fib.decrease_key fuel h p w = Raise OverflowError w ∧
  failure_of OverflowError ≠ InvalidOperation.
Proof.
  intros HH Hh Hp. split_and!.
  - rewrite Hp. apply prio_le_NegInf.
  - apply decrease_key_neginf; [|done].
    by apply (forest_alloc _ _ (inv_forest _ _ (heap_inv _ _ HH))).
  - done.
Qed.

Lemma decrease_key_overflows_on_neginf_witness :
  prio_le (priority (mem beside_neginf !!! 0%nat)) (Fin 5) ∧
  Fib.decrease_key 4 0%nat (Fin 5) beside_neginf = Raise OverflowError beside_neginf ∧
  failure_of OverflowError ≠ InvalidOperation.
Proof.
  apply (decrease_key_overflows_on_neginf 4 0%nat (Fin 5) beside_neginf
           [2; 1; 0]%nat beside_neginf_Heap).
  - apply list_elem_of_further, list_elem_of_further, list_elem_of_here.
  - reflexivity.
Defined.

Lemma marked_child_Heap : Heap marked_child_world [4; 3; 2; 1]%nat.
Proof.
  pose proof (wp_inserts_heap
    [("a"%string, Fin 0); ("b"%string, Fin 10); ("c"%string, Fin 30);
     ("d"%string, Fin 20); ("e"%string, Fin 40)] empty_world [] Heap_empty) as H.
  unfold wp in H. vm_compute inserts in H. destruct H as (_ & H1 & _).
  change (reverse _ ++ []) with [4; 3; 2; 1; 0]%nat in H1.
  pose proof (wp_extract_min_heap 10 _ _ H1) as H.
  unfold wp in H. vm_compute Fib.extract_min in H.
  destruct H as (live' & roots & Hex & H2 & _); [simpl; lia|].
  destruct Hex as (_ & Hperm & _).
  assert (live' ≡ₚ [4; 3; 2; 1]%nat) as Hp'.
  { apply (Permutation_cons_inv (a := 0%nat)). rewrite <- Hperm.
    change ([4; 3; 2; 1; 0]%nat) with ([4; 3; 2; 1]%nat ++ 0%nat :: []).
    by rewrite <- Permutation_middle, app_nil_r. }
  apply (Heap_perm _ _ _ H2) in Hp'.
  pose proof (wp_decrease_key_heap 10 4%nat (Fin 15) _ _ Hp') as H.
  unfold wp in H. vm_compute Fib.decrease_key in H.
  destruct H as (_ & H3 & _); [set_solver|vm_compute; lia|]. exact H3.
Qed.

Lemma marked_child_closed : closed (mem marked_child_world).
Proof.
  intros r Hr.
  do 5 (destruct r as [|r];
        [simpl; split_and!; [lia|lia|intros ? [= <-]; lia|intros ? [= <-]; lia]|]).
  simpl in Hr. lia.
Qed.

Lemma marked_child_unmarked : unmarked_roots (mem marked_child_world).
Proof.
  intros r Hr Hp.
  do 5 (destruct r as [|r]; [simpl in *; done|]). simpl in Hr. lia.
Qed.

(** C2, counterexample: node 3 is a marked child of the minimum; after
    [extract_min] it is a root of the root list and still marked. *)
Lemma extract_min_leaves_marked_root :
  ∃ w, marked_child empty_world = Ok tt w ∧ unmarked_roots (mem w) ∧
    _min (self w) = Some 1%nat ∧ parent (mem w !!! 3%nat) = Some 1%nat ∧
    ∃ w', Fib.extract_min 10 w = Ok (Some 1%nat) w' ∧
      _min (self w') = Some 4%nat ∧ right (mem w' !!! 4%nat) = 3%nat ∧
      parent (mem w' !!! 3%nat) = None ∧ mark (mem w' !!! 3%nat) = true ∧
      ¬ unmarked_roots (mem w').
Proof.
  eexists. split; [vm_compute; reflexivity|]. split.
  { intros r Hr Hp.
    do 5 (destruct r as [|r]; [simpl in *; done|]). simpl in Hr. lia. }
  split; [reflexivity|]. split; [reflexivity|].
  eexists. split; [vm_compute; reflexivity|].
  split_and!; try reflexivity.
  intros H. specialize (H 3%nat). simpl in H. discriminate H; [lia|done].
Qed.

(** C2, amended: in a heap that satisfies the structural invariant,
    over an arena without dangling references in which no node without
    parent is marked, [insert], [decrease_key] of a live handle, and
    [merge] with a heap that satisfies the invariant too and shares no
    node, leave every node without parent unmarked; a [decrease_key] or
    [merge] that raises leaves the state as it is. *)
Theorem roots_stay_unmarked (w : world) (live : list ref) :
  Inv w live → closed (mem w) → unmarked_roots (mem w) →
  (∀ x p, wp (Fib.insert x p) w (λ _ w', unmarked_roots (mem w')) noexn False) ∧
  (∀ fuel h p, h ∈ live → (length (mem w) < fuel)%nat →
     wp (Fib.decrease_key fuel h p) w
       (λ _ w', unmarked_roots (mem w'))
       (λ e w', e = guard_error p (priority (mem w !!! h)) ∧ w' = w) False) ∧
  (∀ heap liveB, Inv (World (mem w) heap) liveB → (∀ x, x ∈ live → x ∉ liveB) →
     wp (Fib.merge heap) w
       (λ _ w', unmarked_roots (mem w')) (λ e w', e = AttributeError ∧ w' = w) False).
Proof.
  intros HI Hcl Hum. split_and!.
  - intros x p. eapply wp_mono; [by apply wp_insert|simpl|done..].
    intros e w' (-> & _ & Hlen & _ & _ & Hold & Hme & _) r Hr Hp.
    rewrite Hlen in Hr.
    destruct (decide (r = length (mem w))) as [->|Hne]; [done|].
    destruct (Hold r ltac:(lia)) as (_ & _ & -> & Hpar).
    rewrite Hpar in Hp. apply Hum; [lia|done].
  - intros fuel h p Hh Hfuel.
    destruct (inv_min_Some _ _ _ HI Hh) as (head & Hmin & Hhead).
    pose proof (forest_alloc _ _ (inv_forest _ _ HI)) as Hal.
    pose proof (count_marked_le (mem w)) as Hcm.
    eapply wp_mono;
      [apply (wp_decrease_key_closed fuel h p head); auto; lia|simpl|simpl|done].
    + intros _ w' (_ & _ & _ & _ & _ & _ & _ & H). by apply H.
    + intros e w' (? & ? & _). done.
  - intros heap liveB HB Hdisj.
    eapply wp_mono; [by apply (wp_merge heap w live liveB)|simpl|simpl|done].
    + intros h' w' (_ & _ & _ & _ & Hlen & Hsame) r Hr Hp.
      destruct (Hsame r) as (_ & _ & -> & Hpar). rewrite Hpar in Hp.
      apply Hum; [by rewrite <-Hlen|done].
    + intros e w' (? & ? & _). done.
Qed.

Lemma roots_stay_unmarked_witness :
  (∀ x p, wp (Fib.insert x p) marked_child_world
     (λ _ w', unmarked_roots (mem w')) noexn False) ∧
  (∀ fuel h p, h ∈ [4; 3; 2; 1]%nat → (length (mem marked_child_world) < fuel)%nat →
     wp (Fib.decrease_key fuel h p) marked_child_world
       (λ _ w', unmarked_roots (mem w'))
       (λ e w', e = guard_error p (priority (mem marked_child_world !!! h)) ∧
                w' = marked_child_world) False) ∧
  (∀ heap liveB, Inv (World (mem marked_child_world) heap) liveB →
     (∀ x, x ∈ [4; 3; 2; 1]%nat → x ∉ liveB) →
     wp (Fib.merge heap) marked_child_world
       (λ _ w', unmarked_roots (mem w'))
       (λ e w', e = AttributeError ∧ w' = marked_child_world) False).
Proof.
  exact (roots_stay_unmarked marked_child_world [4; 3; 2; 1]%nat
           (heap_inv _ _ marked_child_Heap) marked_child_closed
           marked_child_unmarked).
Defined.

(** The invariant on the argument of [merge] is needed: when its minimum
    is a marked child (a state the calls of [marked_minimum] reach, the
    first [merge] having left the minimum on X), [_insert_to_root_list]
    clears the parent of that node and not its mark. *)
Lemma merge_of_marked_minimum :
  ∃ w heap, marked_minimum = Some (w, heap) ∧ unmarked_roots (mem w) ∧
    _min heap = Some 4%nat ∧ parent (mem w !!! 4%nat) = Some 2%nat ∧
    mark (mem w !!! 4%nat) = true ∧
    ∃ w', Fib.merge heap w = Ok (mkHeap 0 None) w' ∧
      parent (mem w' !!! 4%nat) = None ∧ mark (mem w' !!! 4%nat) = true ∧
      ¬ unmarked_roots (mem w').
Proof.
  do 2 eexists. split; [vm_compute; reflexivity|]. split.
  { intros r Hr Hp.
    do 7 (destruct r as [|r]; [simpl in *; done|]). simpl in Hr. lia. }
  split_and!; try reflexivity.
  eexists. split; [vm_compute; reflexivity|].
  split_and!; try reflexivity.
  intros H. specialize (H 4%nat). simpl in H. discriminate H; [lia|done].
Qed.

(** C7 (code_bug): after [merge] has left a minimum that is not the
    least root, [decrease_key] makes the child c the minimum, [insert]
    puts N into the child ring of r, and the second [decrease_key] gives N
    the parent r: priority 20 above priority 1. *)
Theorem merge_then_heap_order_broken :
  ∃ w, heap_order_example = Ok tt w ∧
    parent (mem w !!! 4%nat) = Some 2%nat ∧ child (mem w !!! 2%nat) = Some 4%nat ∧
    priority (mem w !!! 2%nat) = Fin 20 ∧ priority (mem w !!! 4%nat) = Fin 1 ∧
    ¬ prio_le (priority (mem w !!! 2%nat)) (priority (mem w !!! 4%nat)).
Proof.
  eexists. split; [vm_compute; reflexivity|].
  split_and!; try reflexivity. intros H. discriminate H.
Qed.


Lemma five_inserted_Heap : Heap five_inserted [4; 3; 2; 1; 0]%nat.
Proof.
  pose proof (wp_inserts_heap five_inserts empty_world [] Heap_empty) as H.
  unfold wp in H. vm_compute inserts in H. by destruct H as (_ & H & _).
Qed.

(** C8: in a heap that satisfies the structural invariant and the degree
    discipline of Fibonacci heaps (as [insert], [extract_min],
    [decrease_key] keep them), [extract_min] returns the minimum [z]; the
    remaining nodes form a heap again, whose roots have pairwise distinct
    degrees; heap order holds along every edge, those made by the links of
    [_consolidate] included; and if nodes remain, [_min] is a root of least
    priority among the roots. *)
Theorem extract_min_consolidates (fuel : nat) (w : world) (live : list ref) :
  Inv w live → Fibo (mem w) live None → (length live ≤ fuel)%nat → live ≠ [] →
  ∃ z w' live' roots,
    Fib.extract_min fuel w = Ok (Some z) w' ∧
    _min (self w) = Some z ∧ live ≡ₚ z :: live' ∧
    Inv w' live' ∧ Fibo (mem w') live' None ∧
    siblings (mem w') live' None roots ∧
    distinct_degrees (mem w') roots ∧
    ordered (mem w') live' ∧
    (live' ≠ [] → ∃ r, _min (self w') = Some r ∧ least_in (mem w') roots r).
Proof.
  intros HI HL Hfuel Hne.
  destruct (wp_ok _ _ _ (wp_extract_min fuel w live HI HL Hfuel))
    as ([z|] & w' & Heq & Hpost); [|by destruct Hpost].
  destruct Hpost as (live' & roots & Hex & _).
  destruct Hex as (Hmin & Hperm & HI' & HL' & _ & Hs & Hdist & Hmin').
  exists z, w', live', roots. split_and!; try done.
  - apply (inv_order _ _ HI').
  - intros Hne'. destruct (_min (self w')) as [r|]; [by exists r|].
    subst roots.
    destruct (forest_has_root _ _ (inv_forest _ _ HI') Hne') as (r & Hr & Hp).
    assert (r ∈ []) as Hin by by apply Hs. by apply elem_of_nil in Hin.
Qed.

Lemma extract_min_consolidates_witness :
  ∃ z w' live' roots,
    Fib.extract_min 5 five_inserted = Ok (Some z) w' ∧
    _min (self five_inserted) = Some z ∧ [4; 3; 2; 1; 0]%nat ≡ₚ z :: live' ∧
    Inv w' live' ∧ Fibo (mem w') live' None ∧
    siblings (mem w') live' None roots ∧
    distinct_degrees (mem w') roots ∧
    ordered (mem w') live' ∧
    (live' ≠ [] → ∃ r, _min (self w') = Some r ∧ least_in (mem w') roots r).
Proof.
  apply (extract_min_consolidates 5 five_inserted [4; 3; 2; 1; 0]%nat).
  - apply (heap_inv _ _ five_inserted_Heap).
  - apply (heap_fibo _ _ five_inserted_Heap).
  - simpl. lia.
  - done.
Defined.

Lemma fmap_seq_lookup {A} (f : nat → A) (l : list A) :
  (∀ i x, l !! i = Some x → f i = x) → f <$> seq 0 (length l) = l.
Proof.
  intros Hf. apply list_eq. intros i. rewrite list_lookup_fmap.
  destruct (l !! i) as [x|] eqn:Hi.
  - rewrite (lookup_seq_lt 0 (length l) i) by (by eapply lookup_lt_Some).
    simpl. by rewrite (Hf i x).
  - rewrite lookup_seq_ge; [done|]. by apply lookup_ge_None.
Qed.

(** C5: [n] inserts into a new heap (the priorities need not be
    distinct), then [extract_min] until it returns [None]: the calls
    return every handle once, the payloads and priorities they carry are
    those inserted, each once, and the priorities come in non-decreasing
    order; the heap is empty at the end. *)
Theorem heap_sort_sorted (fuel : nat) (l : list (string * prio)) :
  (length l ≤ fuel)%nat →
  ∃ rs w',
    heap_sort fuel l empty_world = Ok rs w' ∧
    rs ≡ₚ seq 0 (length l) ∧
    (λ r, (obj (mem w' !!! r), priority (mem w' !!! r))) <$> rs ≡ₚ l ∧
    StronglySorted prio_le ((λ r, priority (mem w' !!! r)) <$> rs) ∧
    _size (self w') = 0 ∧ _min (self w') = None.
Proof.
  intros Hfuel. apply wp_ok. unfold heap_sort. wp_step1.
  eapply wp_mono; [apply (wp_inserts_heap l empty_world [] Heap_empty)|simpl|done..].
  intros rs0 w1 (-> & HH & Hlen & Hnew & _). rewrite app_nil_r in HH.
  eapply wp_mono;
    [apply (wp_extract_all fuel (S (length l)) w1 _ HH)|simpl|done..].
  { rewrite length_reverse, length_seq. lia. }
  { by rewrite length_reverse, length_seq. }
  intros rs w2 (Hrs & Hsorted & [_ Hdata] & HH2).
  assert (rs ≡ₚ seq 0 (length l)) as Hperm by by rewrite Hrs, reverse_Permutation.
  split_and!; [done| | | |].
  - rewrite Hperm. rewrite fmap_seq_lookup; [done|].
    intros i [x p] Hi. destruct (Hdata i) as [-> ->].
    by destruct (Hnew i x p Hi) as [-> ->].
  - clear -Hsorted Hdata.
    induction Hsorted as [|a rs _ IH Hall]; [constructor|].
    rewrite fmap_cons. constructor; [done|].
    apply Forall_fmap. eapply Forall_impl; [exact Hall|].
    intros b Hab. simpl. by destruct (Hdata a) as [-> _], (Hdata b) as [-> _].
  - by rewrite (inv_size _ _ (heap_inv _ _ HH2)).
  - pose proof (inv_roots _ _ (heap_inv _ _ HH2)) as (roots & Hs & Hm).
    destruct (_min (self w2)) as [r|]; [|done].
    apply (siblings_live _ _ _ _ r Hs) in Hm. by apply elem_of_nil in Hm.
Qed.

Lemma heap_sort_sorted_witness :
  ∃ rs w',
    heap_sort 5 five_inserts empty_world = Ok rs w' ∧
    rs ≡ₚ seq 0 (length five_inserts) ∧
    (λ r, (obj (mem w' !!! r), priority (mem w' !!! r))) <$> rs ≡ₚ five_inserts ∧
    StronglySorted prio_le ((λ r, priority (mem w' !!! r)) <$> rs) ∧
    _size (self w') = 0 ∧ _min (self w') = None.
Proof. apply (heap_sort_sorted 5 five_inserts). simpl. lia. Defined.



(** The priorities have to be finite: beside an element A of priority
    [-inf], [delete] of B does not make B the minimum, and [extract_min]
    removes A; B stays in the heap, as its minimum. *)
Lemma delete_beside_neginf_removes_other :
  ∃ w, delete_beside_neginf empty_world = Ok (Some 1%nat, 2) w ∧
    obj (mem w !!! 1%nat) = "B"%string ∧ parent (mem w !!! 2%nat) = Some 1%nat.
Proof. eexists. split; [vm_compute; reflexivity|]. by split. Qed.

(** * More of the code *)

(** ** [merge]: what it keeps *)

Lemma wp_conj2 {A} (c : M A) w (Q1 Q2 : A → world → Prop) E1 E2 S1 S2 :
  wp c w Q1 E1 S1 → wp c w Q2 E2 S2 →
  wp c w (λ a w', Q1 a w' ∧ Q2 a w') (λ e w', E1 e w' ∧ E2 e w') (S1 ∧ S2).
Proof. unfold wp. by destruct (c w). Qed.

(** [merge] writes links and the parent of a root only *)
Lemma merge_fields heap w :
  wp (Fib.merge heap) w
    (λ _ w', ∀ r, degree (mem w' !!! r) = degree (mem w !!! r) ∧
                  child (mem w' !!! r) = child (mem w !!! r))
    anyexn True.
Proof.
  unfold Fib.merge, Fib._insert_to_root_list, Fib._doublylinkedlist_insert.
  repeat first
    [ done
    | wp_step
    | match goal with
      | |- match ?o with Some _ => _ | None => _ end => destruct o eqn:?
      end ].
  all: intros r; simpl; by fld_simpl.
Qed.

(** a receiver without elements takes the minimum and the size of the
    argument, and writes nothing to the arena *)
Lemma merge_into_empty heap w :
  _min (self w) = None →
  Fib.merge heap w =
    Ok (mkHeap 0 None) (World (mem w) (mkHeap (_size (self w) + _size heap) (_min heap))).
Proof.
  intros Hmin. unfold Fib.merge.
  cbv [mbind M_bind mret M_ret get_min set_min get_size set_size Fib._clear].
  rewrite Hmin. done.
Qed.

Lemma fibo_union (m : list Element) liveA liveB :
  Forest m liveA → Forest m liveB → (∀ x, x ∈ liveA → x ∉ liveB) →
  Fibo m liveA None → Fibo m liveB None → Fibo m (liveA ++ liveB) None.
Proof.
  intros HFA HFB Hdisj HLA HLB p [Hp|Hp]%elem_of_app.
  - destruct (HLA p Hp) as (ys & Hnd & Hys & Hdeg).
    exists ys. split_and!; [done| |done].
    intros c. rewrite (Hys c), elem_of_app. split; [tauto|].
    intros [[Hc|Hc] Hcp]; [done|]. exfalso.
    apply (Hdisj p Hp). by apply (forest_parent _ _ HFB c).
  - destruct (HLB p Hp) as (ys & Hnd & Hys & Hdeg).
    exists ys. split_and!; [done| |done].
    intros c. rewrite (Hys c), elem_of_app. split; [tauto|].
    intros [[Hc|Hc] Hcp]; [|done]. exfalso.
    apply (Hdisj p); [|done]. by apply (forest_parent _ _ HFA c).
Qed.

Lemma wp_merge_heap heap w liveA liveB :
  Inv w liveA → Inv (World (mem w) heap) liveB →
  (∀ x, x ∈ liveA → x ∉ liveB) →
  Fibo (mem w) liveA None → Fibo (mem w) liveB None →
  wp (Fib.merge heap) w
    (λ h' w', h' = mkHeap 0 None ∧
              _size (self w') = _size (self w) + _size heap ∧
              _min (self w') = merged_min (_min (self w)) (_min heap) ∧
              Inv w' (liveA ++ liveB) ∧ Fibo (mem w') (liveA ++ liveB) None ∧
              same_data (mem w) (mem w') ∧
              ∀ r, mark (mem w' !!! r) = mark (mem w !!! r) ∧
                   parent (mem w' !!! r) = parent (mem w !!! r) ∧
                   degree (mem w' !!! r) = degree (mem w !!! r) ∧
                   child (mem w' !!! r) = child (mem w !!! r))
    (λ e w', e = AttributeError ∧ w' = w ∧
             is_Some (_min (self w)) ∧ _min heap = None)
    False.
Proof.
  intros HA HB Hdisj HLA HLB.
  eapply wp_mono;
    [apply (wp_conj2 _ _ _ _ _ _ _ _
              (wp_merge heap w liveA liveB HA HB Hdisj) (merge_fields heap w))|..].
  - intros h' w' [(-> & Hsz & Hmin & HI & Hlen & Hdata) Hdeg].
    assert (∀ r, mark (mem w' !!! r) = mark (mem w !!! r) ∧
                 parent (mem w' !!! r) = parent (mem w !!! r) ∧
                 degree (mem w' !!! r) = degree (mem w !!! r) ∧
                 child (mem w' !!! r) = child (mem w !!! r)) as Hf.
    { intros r. destruct (Hdata r) as (_ & _ & ? & ?), (Hdeg r). by split_and!. }
    split_and!; try done.
    + apply (fibo_transfer (mem w) (mem w') (liveA ++ liveB) (liveA ++ liveB)).
      * apply fibo_union; try done;
          [apply (inv_forest _ _ HA)|apply (inv_forest _ _ HB)].
      * done.
      * intros c p _. by destruct (Hf c) as (_ & -> & _).
      * intros c _. unfold edeg. by destruct (Hf c) as (-> & _ & -> & _).
    + split; [done|]. intros r. by destruct (Hdata r) as (? & ? & _).
  - by intros e w' [? _].
  - by intros [? _].
Qed.

(** ** [Element.children] and [Element.siblings] *)

Lemma ring_walk_next (m : list Element) first l acc x rem :
  is_ring m (first :: l) → first :: l = acc ++ x :: rem →
  right (m !!! x) = hd first rem ∧ (∀ y, hd_error rem = Some y → y ≠ first).
Proof.
  intros [Hnd Hr] Heq. rewrite Heq in Hr. apply ring_next in Hr. cbv beta in Hr.
  split.
  - rewrite Hr. destruct rem as [|y rem]; [|done]. simpl.
    destruct acc as [|a acc]; simpl in *; congruence.
  - intros y Hy. destruct rem as [|y' rem]; [done|]. injection Hy as ->.
    rewrite Heq in Hnd. intros ->.
    destruct acc as [|a acc]; simpl in *.
    + injection Heq as -> _. apply NoDup_cons in Hnd as [Hnd _].
      apply Hnd, list_elem_of_here.
    + injection Heq as -> _. apply NoDup_cons in Hnd as [Hnd _].
      apply Hnd, elem_of_app. right.
      apply list_elem_of_further, list_elem_of_here.
Qed.

Lemma wp_siblings_loop (m : list Element) s first l :
  is_ring m (first :: l) → (∀ r, r ∈ first :: l → (r < length m)%nat) →
  ∀ rem acc x fuel, first :: l = acc ++ x :: rem → (length rem < fuel)%nat →
    wp (Elem.siblings_loop fuel first x acc) (World m s)
      (λ r w', r = first :: l ∧ w' = World m s) noexn False.
Proof.
  intros Hring Hal. induction rem as [|y rem IH]; intros acc x fuel Heq Hfuel;
    (destruct fuel as [|f]; [simpl in Hfuel; lia|]); simpl.
  all: destruct (ring_walk_next m first l acc x _ Hring Heq) as [Hnext Hne].
  all: assert (x < length m)%nat
    by (apply Hal; rewrite Heq; apply elem_of_app; right; apply list_elem_of_here).
  all: wp_steps; rewrite Hnext; simpl.
  - rewrite decide_True by done. by wp_steps.
  - rewrite decide_False by (by apply Hne).
    apply (IH (acc ++ [x])); [by rewrite <- app_assoc|simpl in Hfuel; lia].
Qed.

Lemma wp_children_loop (m : list Element) s node first l :
  is_ring m (first :: l) → (∀ r, r ∈ first :: l → (r < length m)%nat) →
  (node < length m)%nat → child (m !!! node) = Some first →
  ∀ rem acc x fuel, first :: l = acc ++ x :: rem → (length rem < fuel)%nat →
    wp (Elem.children_loop fuel node x acc) (World m s)
      (λ r w', r = first :: l ∧ w' = World m s) noexn False.
Proof.
  intros Hring Hal Hn Hc. induction rem as [|y rem IH]; intros acc x fuel Heq Hfuel;
    (destruct fuel as [|f]; [simpl in Hfuel; lia|]); simpl.
  all: destruct (ring_walk_next m first l acc x _ Hring Heq) as [Hnext Hne].
  all: assert (x < length m)%nat
    by (apply Hal; rewrite Heq; apply elem_of_app; right; apply list_elem_of_here).
  all: wp_steps; rewrite Hnext, Hc; simpl.
  - rewrite decide_True by done. by wp_steps.
  - rewrite decide_False by (intros [= ?]; by apply (Hne y)).
    apply (IH (acc ++ [x])); [by rewrite <- app_assoc|simpl in Hfuel; lia].
Qed.

Lemma wp_children fuel p w live :
  Forest (mem w) live → p ∈ live →
  (Z.to_nat (degree (mem w !!! p)) ≤ fuel)%nat →
  wp (Elem.children fuel p) w
    (λ l w', w' = w ∧ siblings (mem w) live (Some p) l ∧
             hd_error l = child (mem w !!! p))
    noexn False.
Proof.
  intros HF Hp Hfuel. destruct w as [m s]. simpl in *.
  pose proof (forest_alloc _ _ HF) as Hal.
  destruct (forest_nodes _ _ HF p Hp) as (l & Hs & Hd & Hc).
  pose proof (Hal p Hp) as Hpa.
  unfold Elem.children. wp_steps; try lia.
  destruct (child (m !!! p)) as [c|] eqn:Hch.
  - destruct (siblings_rotate _ _ _ _ c Hs Hc) as (ks & Hperm & Hs').
    assert (∀ r, r ∈ c :: ks → (r < length m)%nat) as Hal'.
    { intros r Hr. by apply Hal, (siblings_live _ _ _ _ r Hs'). }
    assert (length ks < fuel)%nat as Hf.
    { assert (length (c :: ks) = length l) as Hl by by rewrite Hperm.
      simpl in Hl. lia. }
    eapply wp_mono;
      [apply (wp_children_loop m s p c ks (proj1 Hs') Hal' Hpa Hch ks [] c fuel
                eq_refl Hf)|..]; [|done..].
    intros r w' [-> ->]. by split_and!.
  - subst l. wp_steps. by split_and!.
Qed.

Lemma wp_siblings_of fuel x w live :
  Inv w live → x ∈ live → (length live ≤ fuel)%nat →
  wp (Elem.siblings fuel x) w
    (λ l w', w' = w ∧ hd_error l = Some x ∧
             siblings (mem w) live (parent (mem w !!! x)) l)
    noexn False.
Proof.
  intros [HF _ Hroots _] Hx Hfuel. destruct w as [m s]. simpl in *.
  pose proof (forest_alloc _ _ HF) as Hal.
  assert (∃ l0, siblings m live (parent (m !!! x)) l0) as [l0 Hs0].
  { destruct (parent (m !!! x)) as [p|] eqn:Hxp.
    - destruct (forest_nodes _ _ HF p (forest_parent _ _ HF x p Hx Hxp))
        as (l0 & Hs0 & _). by exists l0.
    - destruct Hroots as (l0 & Hs0 & _). by exists l0. }
  destruct (siblings_rotate _ _ _ _ x Hs0) as (l & Hperm & Hs).
  { by apply (siblings_in _ _ _ _ x Hs0). }
  unfold Elem.siblings.
  assert (∀ r, r ∈ x :: l → (r < length m)%nat) as Hal'.
  { intros r Hr. by apply Hal, (siblings_live _ _ _ _ r Hs). }
  assert (length l < fuel)%nat as Hf.
  { assert (length (x :: l) ≤ length live)%nat as Hle; [|simpl in Hle; lia].
    apply submseteq_length, NoDup_submseteq; [apply Hs|].
    intros r Hr. by apply (siblings_live _ _ _ _ r Hs). }
  eapply wp_mono;
    [apply (wp_siblings_loop m s x l (proj1 Hs) Hal' l [] x fuel eq_refl Hf)|..];
    [|done..].
  intros r w' [-> ->]. by split_and!.
Qed.

(** ** Heaps up to the order of the list of their nodes *)

(** without children, nothing is asked of the degrees *)
Lemma fibo_flat (m : list Element) live :
  (∀ c, c ∈ live → parent (m !!! c) = None) → Fibo m live None.
Proof.
  intros Hflat p Hp. exists []. split_and!; [constructor| |by intros i y ?].
  intros c. split; [by intros ?%elem_of_nil|].
  intros [Hc Hcp]. by rewrite (Hflat c Hc) in Hcp.
Qed.

(** [merge] returns when the argument is not empty or the receiver is *)
Lemma merge_ok (heap : FibonacciHeap) (w : world)
    (liveA liveB : list ref) :
  Inv w liveA → Inv (World (mem w) heap) liveB →
  (∀ x, x ∈ liveA → x ∉ liveB) →
  Fibo (mem w) liveA None → Fibo (mem w) liveB None →
  liveA = [] ∨ liveB ≠ [] →
  ∃ w',
    Fib.merge heap w = Ok (mkHeap 0 None) w' ∧
    Inv w' (liveA ++ liveB) ∧ Fibo (mem w') (liveA ++ liveB) None ∧
    _min (self w') = merged_min (_min (self w)) (_min heap) ∧
    same_data (mem w) (mem w') ∧
    ∀ r, mark (mem w' !!! r) = mark (mem w !!! r) ∧
         parent (mem w' !!! r) = parent (mem w !!! r) ∧
         degree (mem w' !!! r) = degree (mem w !!! r) ∧
         child (mem w' !!! r) = child (mem w !!! r).
Proof.
  intros HA HB Hdisj HLA HLB Hne.
  pose proof (wp_merge_heap heap w liveA liveB HA HB Hdisj HLA HLB) as H.
  unfold wp in H. destruct (Fib.merge heap w) as [h' w'|e w'|]; [| |done].
  - destruct H as (-> & _ & Hmin & HI & HL & Hdata & Hf). by exists w'.
  - destruct H as (_ & _ & [r Hr] & HminB). exfalso.
    pose proof (inv_empty _ _ HB HminB) as ->.
    pose proof (inv_nonempty _ _ _ HA Hr) as Hin.
    destruct Hne as [->|?]; [by apply elem_of_nil in Hin|done].
Qed.

(** ** The minimum pointer through [decrease_key] *)

Lemma cut_min x y w r :
  _min (self w) = Some r →
  wp (Fib._cut x y) w
    (λ _ w', _min (self w') = Some r ∧ _size (self w') = _size (self w) ∧
             ∀ j, priority (mem w' !!! j) = priority (mem w !!! j))
    anyexn True.
Proof.
  intros Hmin. destruct w as [m s]. simpl in *.
  unfold Fib._cut, Fib._insert_to_root_list, Fib._doublylinkedlist_insert.
  repeat first
    [ done
    | wp_step
    | match goal with
      | |- match ?o with Some _ => _ | None => _ end => destruct o eqn:?
      end ].
  all: try congruence.
  all: split_and!; [congruence|done|]; intros j; simpl; by fld_simpl.
Qed.

Lemma cascading_cut_min fuel r : ∀ y w,
  _min (self w) = Some r →
  wp (Fib._cascading_cut fuel y) w
    (λ _ w', _min (self w') = Some r ∧ _size (self w') = _size (self w) ∧
             ∀ j, priority (mem w' !!! j) = priority (mem w !!! j))
    anyexn True.
Proof.
  induction fuel as [|f IH]; intros y w Hmin; [done|].
  cbn [Fib._cascading_cut]. wp_steps.
  destruct (parent (mem w !!! y)) as [z|]; [|by wp_steps].
  wp_steps. destruct (mark (mem w !!! y)); simpl.
  - wp_step1. eapply wp_mono; [by apply (cut_min y z w r)|simpl|done..].
    intros _ w1 (Hmin1 & Hsz1 & Hpr1).
    eapply wp_mono; [by apply (IH z w1)|simpl|done..].
    intros _ w2 (Hmin2 & Hsz2 & Hpr2). split_and!; [done|congruence|].
    intros j. by rewrite Hpr2.
  - wp_steps. split_and!; [done..|]. intros j. by fld_simpl.
Qed.

(** when the heap has a minimum [r] other than [x], [decrease_key] of [x]
    moves the minimum pointer only if the new priority is strictly below
    that of [r] *)
Lemma decrease_key_min fuel x p w r :
  _min (self w) = Some r → r ≠ x →
  wp (Fib.decrease_key fuel x p) w
    (λ _ w', _min (self w') =
               if prio_ltb p (priority (mem w !!! r)) then Some x else Some r)
    anyexn True.
Proof.
  intros Hmin Hrx. unfold Fib.decrease_key. wp_steps.
  destruct (prio_ltb p (priority (mem w !!! x))); simpl; [|by apply wp_guard].
  wp_steps.
  assert (∀ w1, _min (self w1) = Some r →
            (∀ j, priority (mem w1 !!! j) =
                  priority (upd (mem w) x (set_priority p) !!! j)) →
            wp (px ← rd priority x; m ← get_min; m ← attr m;
                pm ← rd priority m;
                if prio_ltb px pm then set_min (Some x) else mret tt) w1
              (λ _ w', _min (self w') =
                 if prio_ltb p (priority (mem w !!! r)) then Some x else Some r)
              anyexn True) as Hrest.
  { intros w1 Hmin1 Hpr1. wp_steps. rewrite Hmin1. wp_steps.
    rewrite !Hpr1. mem_simpl. simpl.
    destruct (prio_ltb p (priority (mem w !!! r))); by wp_steps. }
  destruct (parent (mem w !!! x)) as [y|]; [|apply wp_ret; by apply Hrest].
  wp_steps. mem_simpl. simpl.
  match goal with
  | |- wp (if ?b then _ else _) _ _ _ _ =>
      destruct b; [|apply wp_ret; by apply Hrest]
  end.
  wp_step1.
  eapply wp_mono; [by apply (cut_min x y _ r)|simpl|done..].
  intros _ w1 (Hmin1 & _ & Hpr1).
  eapply wp_mono; [by apply (cascading_cut_min fuel r y w1)|simpl|done..].
  intros _ w2 (Hmin2 & _ & Hpr2). apply Hrest; [done|].
  intros j. by rewrite Hpr2, Hpr1.
Qed.

(** ** The number of roots after a consolidation *)

Lemma nodup_nat_max (l : list nat) :
  NoDup l → l ≠ [] → ∃ x, x ∈ l ∧ (length l ≤ S x)%nat.
Proof.
  intros Hnd Hne.
  destruct (decide (Exists (λ x, length l ≤ S x)%nat l)) as [Hex|Hno].
  { apply Exists_exists in Hex as (x & Hx & Hle). by exists x. }
  exfalso. apply not_Exists_Forall in Hno; [|intros x; apply _].
  assert (length l ≤ length (seq 0 (length l - 1)))%nat as Hlen.
  { apply submseteq_length, NoDup_submseteq; [done|].
    intros x Hx. apply elem_of_seq.
    rewrite Forall_forall in Hno. specialize (Hno x Hx). simpl in Hno. lia. }
  rewrite length_seq in Hlen. destruct l; [done|simpl in Hlen; lia].
Qed.

Lemma distinct_degrees_count (m : list Element) roots n :
  NoDup roots → distinct_degrees m roots → roots ≠ [] →
  (∀ r, r ∈ roots → 0 ≤ degree (m !!! r) ∧
                    fib (Z.to_nat (degree (m !!! r)) + 2) ≤ n) →
  fib (length roots + 1) ≤ n.
Proof.
  intros Hnd Hdist Hne Hdeg.
  set (ds := (λ r, Z.to_nat (degree (m !!! r))) <$> roots).
  assert (NoDup ds) as Hds.
  { apply NoDup_fmap_2_strong; [|done]. intros r1 r2 H1 H2 Heq.
    apply Hdist; [done..|].
    destruct (Hdeg r1 H1) as [? _]. destruct (Hdeg r2 H2) as [? _]. lia. }
  destruct (nodup_nat_max ds Hds) as (d & Hd & Hle).
  { subst ds. by destruct roots. }
  apply list_elem_of_fmap in Hd as (r & -> & Hr).
  subst ds. rewrite length_fmap in Hle.
  destruct (Hdeg r Hr) as [_ Hfib].
  etransitivity; [|exact Hfib]. apply fib_mono. lia.
Qed.

(** ** The level traversal *)

(** what holds of the roots and passes from a parent to its children holds
    of every node *)
Lemma forest_down_ind m live (P : ref → Prop) :
  Forest m live →
  (∀ r, r ∈ live → parent (m !!! r) = None → P r) →
  (∀ c p, c ∈ live → parent (m !!! c) = Some p → P p → P c) →
  ∀ x, x ∈ live → P x.
Proof.
  intros [_ _ _ Hpa [rk Hrk]] Hroot Hstep x Hx.
  destruct (list_max_by rk live) as (t & Ht & Hmax).
  { intros ->. by apply elem_of_nil in Hx. }
  assert (∀ n y, y ∈ live → (rk t ≤ rk y + n)%nat → P y) as H.
  { induction n as [|n IH]; intros y Hy Hn;
      (destruct (parent (m !!! y)) as [p|] eqn:Hp; [|by apply Hroot]).
    - pose proof (Hmax p (Hpa y p Hy Hp)). specialize (Hrk y p Hy Hp). lia.
    - apply (Hstep y p Hy Hp), IH; [by apply (Hpa y p)|].
      specialize (Hrk y p Hy Hp). lia. }
  apply (H (rk t) x Hx). lia.
Qed.

Lemma concat_insert_snoc {A} (nodes : list (list A)) k row x :
  nodes !! k = Some row →
  concat (<[k := row ++ [x]]> nodes) ≡ₚ x :: concat nodes.
Proof.
  revert k. induction nodes as [|r nodes IH]; intros [|k] H; simplify_eq/=.
  - rewrite <- app_assoc. simpl. symmetry. apply Permutation_middle.
  - rewrite (IH k H). symmetry. apply Permutation_middle.
Qed.

Lemma elem_of_concat {A} (ls : list (list A)) x :
  x ∈ concat ls ↔ ∃ k row, ls !! k = Some row ∧ x ∈ row.
Proof.
  induction ls as [|r ls IH]; simpl.
  - split; [by intros ?%elem_of_nil|by intros (k & row & ? & _)].
  - rewrite elem_of_app, IH. split.
    + intros [Hx|(k & row & Hk & Hx)]; [by exists 0%nat, r|by exists (S k), row].
    + intros ([|k] & row & Hk & Hx); simplify_eq/=; [by left|right; eauto].
Qed.

Lemma depth_fun m x k k' : depth m x k → depth m x k' → k = k'.
Proof.
  intros H. revert k'. induction H as [r Hr|c p k Hc _ IH]; intros k' H'.
  - inversion H' as [|? p ? Hp]; [done|congruence].
  - inversion H' as [? Hr|? p' k'' Hp Hd]; subst; [congruence|].
    f_equal. apply IH. congruence.
Qed.

Lemma bfs_seen_live m live q nodes x :
  Bfs m live q nodes → x ∈ concat nodes ++ q.*1 → x ∈ live.
Proof.
  intros HB [Hx|Hx]%elem_of_app.
  - apply elem_of_concat in Hx as (k & row & Hk & Hx).
    by destruct (bfs_nodes _ _ _ _ HB k row x Hk Hx).
  - apply list_elem_of_fmap in Hx as ([y lv] & -> & Hy).
    by destruct (bfs_queue _ _ _ _ HB y lv Hy).
Qed.

Lemma bfs_length m live q nodes :
  Forest m live → Bfs m live q nodes →
  (length (concat nodes) + length q ≤ length live)%nat.
Proof.
  intros HF HB.
  replace (length (concat nodes) + length q)%nat
    with (length (concat nodes ++ q.*1))
    by (by rewrite length_app, length_fmap).
  apply submseteq_length, NoDup_submseteq; [apply (bfs_nodup _ _ _ _ HB)|].
  intros x. apply (bfs_seen_live _ _ _ _ _ HB).
Qed.

Lemma fst_map_pair {A B} (l : list A) (b : B) : (map (λ a, (a, b)) l).*1 = l.
Proof. induction l as [|a l IH]; [done|]. cbn. f_equal. exact IH. Qed.

Lemma elem_of_map_pair {A B} (l : list A) (b : B) x y :
  (x, y) ∈ map (λ a, (a, b)) l ↔ x ∈ l ∧ y = b.
Proof.
  induction l as [|a l IH]; simpl.
  - split; [by intros ?%elem_of_nil|by intros [?%elem_of_nil _]].
  - rewrite !elem_of_cons, IH. naive_solver.
Qed.

(** one turn of the loop of [level_traversal] *)
Lemma bfs_step m live node level q nodes kids :
  Bfs m live ((node, level) :: q) nodes →
  siblings m live (Some node) kids →
  let nodes1 :=
    if decide (level = Z.of_nat (length nodes)) then nodes ++ [[]] else nodes in
  ∃ row, nodes1 !! Z.to_nat level = Some row ∧
    Bfs m live (q ++ map (λ child, (child, level + 1)) kids)
      (<[Z.to_nat level := row ++ [node]]> nodes1).
Proof.
  intros HB [[Hknd _] Hk] nodes1.
  destruct (bfs_queue _ _ _ _ HB node level (list_elem_of_here _ _))
    as (Hnl & Hlv & Hd).
  pose proof (bfs_nodup _ _ _ _ HB) as Hnd. simpl in Hnd.
  assert (node ∉ concat nodes) as HnP.
  { intros Hin. apply NoDup_app in Hnd as (_ & Hdis & _).
    apply (Hdis node Hin), list_elem_of_here. }
  assert (∀ c, c ∈ kids → c ∉ concat nodes ++ node :: q.*1) as Hfresh.
  { intros c Hc Hin. apply Hk in Hc as [_ Hcp].
    by apply HnP, (bfs_up _ _ _ _ HB c node). }
  assert (concat nodes1 = concat nodes) as HP1.
  { subst nodes1. case_decide; [|done].
    rewrite concat_app. simpl. by rewrite !app_nil_r. }
  assert (length nodes ≤ length nodes1 ∧ Z.to_nat level < length nodes1)%nat
    as [Hl1 Hl2].
  { subst nodes1. case_decide; rewrite ?length_app; simpl; lia. }
  assert (∀ k row, nodes1 !! k = Some row →
            nodes !! k = Some row ∨ (k = Z.to_nat level ∧ row = [])) as Hrows.
  { subst nodes1. intros k row. case_decide as Hc; [|by left].
    intros [?|[Hkl Hr]]%lookup_app_Some; [by left|right].
    destruct (k - length nodes)%nat as [|?] eqn:Hkn; simplify_eq/=.
    split; [lia|done]. }
  destruct (lookup_lt_is_Some_2 nodes1 _ Hl2) as [row Hrow].
  exists row. split; [done|].
  pose proof (concat_insert_snoc nodes1 _ row node Hrow) as HP2.
  rewrite HP1 in HP2.
  set (nodes2 := <[Z.to_nat level := row ++ [node]]> nodes1) in *.
  assert (∀ x, x ∈ concat nodes2 ↔ x = node ∨ x ∈ concat nodes) as HinP.
  { intros x. by rewrite HP2, elem_of_cons. }
  assert (∀ x, x ∈ concat nodes2 ++ (q ++ map (λ child, (child, level + 1)) kids).*1
             ↔ x ∈ concat nodes ++ node :: q.*1 ∨ x ∈ kids) as Hseen.
  { intros x. rewrite fmap_app, fst_map_pair, !elem_of_app, HinP, elem_of_cons.
    tauto. }
  split.
  - rewrite fmap_app, fst_map_pair, HP2. simpl.
    rewrite app_assoc. apply NoDup_cons. split.
    + rewrite !elem_of_app. intros [[Hin|Hin]|Hin]; [done| |].
      * apply NoDup_app in Hnd as (_ & _ & [? _]%NoDup_cons). done.
      * apply (Hfresh node Hin). apply elem_of_app. right. apply list_elem_of_here.
    + apply NoDup_app. split_and!; [|intros x Hx Hx'|done].
      * apply NoDup_app in Hnd as (? & Hdis & [_ ?]%NoDup_cons).
        apply NoDup_app. split_and!; [done| |done].
        intros x Hx Hx'. apply (Hdis x Hx). by apply list_elem_of_further.
      * apply (Hfresh x Hx'). apply elem_of_app in Hx as [Hx|Hx];
          apply elem_of_app; [by left|right; by apply list_elem_of_further].
  - intros x lv [Hx|Hx]%elem_of_app.
    + destruct (bfs_queue _ _ _ _ HB x lv (list_elem_of_further _ _ _ Hx))
        as (? & ? & ?).
      split_and!; try done; [lia|]. subst nodes2. rewrite length_insert. lia.
    + apply elem_of_map_pair in Hx as [Hx ->]. apply Hk in Hx as [Hx Hxp].
      split_and!; [done|lia| |].
      * subst nodes2. rewrite length_insert. lia.
      * replace (Z.to_nat (level + 1)) with (S (Z.to_nat level)) by lia.
        by apply (depth_child m x node).
  - intros k row' x Hk' Hx. subst nodes2.
    destruct (decide (k = Z.to_nat level)) as [->|Hne].
    + rewrite list_lookup_insert_eq in Hk' by done. simplify_eq.
      apply elem_of_app in Hx as [Hx| ->%list_elem_of_singleton]; [|done].
      destruct (Hrows _ _ Hrow) as [Hold|[_ ->]];
        [|by apply elem_of_nil in Hx].
      by apply (bfs_nodes _ _ _ _ HB _ row).
    + rewrite list_lookup_insert_ne in Hk' by done.
      destruct (Hrows _ _ Hk') as [Hold|[? _]]; [|done].
      by apply (bfs_nodes _ _ _ _ HB k row').
  - intros k row' Hk' Hpos. subst nodes2.
    destruct (decide (k = Z.to_nat level)) as [->|Hne].
    + rewrite list_lookup_insert_eq in Hk' by done. simplify_eq.
      by destruct row.
    + rewrite list_lookup_insert_ne in Hk' by done.
      destruct (Hrows _ _ Hk') as [Hold|[? _]]; [|done].
      by apply (bfs_rows _ _ _ _ HB k row').
  - intros x Hx Hxp. apply Hseen. left.
    by apply (bfs_roots _ _ _ _ HB).
  - intros c p Hc Hcp Hp. apply Hseen. apply HinP in Hp as [-> |Hp].
    + right. by apply Hk.
    + left. apply elem_of_app.
      pose proof (bfs_down _ _ _ _ HB c p Hc Hcp Hp) as Hin.
      apply elem_of_app in Hin as [?|?]; [by left|by right].
  - intros c p Hc Hcp. apply HinP. apply Hseen in Hc as [Hc|Hc].
    + right. by apply (bfs_up _ _ _ _ HB c p).
    + apply Hk in Hc as [_ Hc]. left. congruence.
Qed.

Lemma wp_traverse m s live :
  Forest m live → ∀ fuel q nodes,
  Bfs m live q nodes →
  (length live < fuel + length (concat nodes))%nat →
  wp (Draw.traverse fuel q nodes) (World m s)
    (λ levels w', w' = World m s ∧ Bfs m live [] levels)
    noexn False.
Proof.
  intros HF. induction fuel as [|f IH]; intros q nodes HB Hfuel.
  { pose proof (bfs_length _ _ _ _ HF HB). lia. }
  destruct q as [|[node level] q]; [by apply wp_ret|].
  destruct (bfs_queue _ _ _ _ HB node level (list_elem_of_here _ _))
    as (Hnl & Hlv & Hd).
  assert (Z.to_nat (degree (m !!! node)) ≤ S f)%nat as Hdeg.
  { destruct (forest_nodes _ _ HF node Hnl) as (l' & Hs' & -> & _).
    destruct (bfs_step _ _ _ _ _ _ l' HB Hs') as (row & Hrow & HB').
    pose proof (bfs_length _ _ _ _ HF HB') as Hlen.
    rewrite (concat_insert_snoc _ _ _ _ Hrow), length_app, length_map in Hlen.
    simpl in Hlen.
    assert (length (concat (if decide (level = Z.of_nat (length nodes))
                            then nodes ++ [[]] else nodes))
            = length (concat nodes)) as Hc.
    { case_decide; [|done]. rewrite concat_app. simpl. by rewrite !app_nil_r. }
    lia. }
  pose proof (wp_children (S f) node (World m s) live HF Hnl Hdeg) as Hch.
  cbn [Draw.traverse].
  set (nodes1 := if decide (level = Z.of_nat (length nodes))
                 then nodes ++ [[]] else nodes).
  destruct (wp_ok _ _ _ Hch) as (kids & w' & Heq & -> & Hs & _).
  destruct (bfs_step _ _ _ _ _ _ kids HB Hs) as (row & Hrow & HB').
  fold nodes1 in Hrow, HB'.
  rewrite (getitem_ok nodes1 level row) by (done || lia).
  apply wp_bind, wp_ret.
  rewrite (setitem_ok nodes1 level) by (lia || by apply (lookup_lt_Some _ _ _ Hrow)).
  apply wp_bind, wp_ret.
  apply wp_bind. eapply wp_mono; [exact Hch|simpl|done..].
  intros kids' w'' (-> & Hs'' & _).
  destruct (bfs_step _ _ _ _ _ _ kids' HB Hs'') as (row' & Hrow' & HB'').
  fold nodes1 in Hrow', HB''. simplify_eq.
  apply IH; [done|].
  rewrite (concat_insert_snoc _ _ _ _ Hrow). simpl.
  assert (length (concat nodes1) = length (concat nodes)) as Hc.
  { subst nodes1. case_decide; [|done]. rewrite concat_app. simpl.
    by rewrite !app_nil_r. }
  lia.
Qed.

Lemma bfs_start m live sibs :
  siblings m live None sibs → Bfs m live (map (λ node, (node, 0)) sibs) [[]].
Proof.
  intros [[Hnd _] Hm]. split; simpl.
  - by rewrite fst_map_pair.
  - intros x lv [Hx ->]%elem_of_map_pair. apply Hm in Hx as [Hx Hp].
    split_and!; [done|lia..|by apply depth_root].
  - intros [|k] row x Hk Hx; simplify_eq/=. by apply elem_of_nil in Hx.
  - intros [|k] row Hk Hpos; simplify_eq/=. lia.
  - intros x Hx Hp. rewrite fst_map_pair. by apply Hm.
  - by intros c p _ _ ?%elem_of_nil.
  - intros c p Hc Hp. rewrite fst_map_pair in Hc. apply Hm in Hc as [_ Hc].
    congruence.
Qed.

Lemma bfs_done m live levels :
  Forest m live → Bfs m live [] levels →
  concat levels ≡ₚ live ∧
  ∀ k row x, levels !! k = Some row → x ∈ row → depth m x k.
Proof.
  intros HF HB. split.
  - pose proof (bfs_nodup _ _ _ _ HB) as Hnd. simpl in Hnd.
    rewrite app_nil_r in Hnd.
    apply NoDup_Permutation; [done|apply (forest_nodup _ _ HF)|].
    intros x. split.
    + intros Hx. apply (bfs_seen_live _ _ _ _ x HB). simpl.
      by rewrite app_nil_r.
    + revert x. apply (forest_down_ind m live); [done|..].
      * intros r Hr Hp. pose proof (bfs_roots _ _ _ _ HB r Hr Hp) as H.
        simpl in H. by rewrite app_nil_r in H.
      * intros c p Hc Hp Hin. pose proof (bfs_down _ _ _ _ HB c p Hc Hp Hin) as H.
        simpl in H. by rewrite app_nil_r in H.
  - intros k row x Hk Hx. by destruct (bfs_nodes _ _ _ _ HB k row x Hk Hx).
Qed.

Lemma wp_level_traversal fuel w live r :
  Inv w live → _min (self w) = Some r → (length live < fuel)%nat →
  wp (Draw.level_traversal fuel) w
    (λ levels w', w' = w ∧ Bfs (mem w) live [] levels)
    noexn False.
Proof.
  intros HI Hmin Hfuel. pose proof (inv_nonempty _ _ _ HI Hmin) as Hr.
  assert (parent (mem w !!! r) = None) as Hrp.
  { destruct (inv_roots _ _ HI) as (l & Hs & Hl). rewrite Hmin in Hl.
    by apply (siblings_parent _ _ _ _ r Hs). }
  unfold Draw.level_traversal, Fib.min. wp_steps. rewrite Hmin. simpl.
  apply wp_bind.
  eapply wp_mono;
    [apply (wp_siblings_of fuel r w live HI Hr); lia|simpl|done..].
  intros sibs w' (-> & _ & Hs). rewrite Hrp in Hs. destruct w as [m s].
  apply wp_traverse; [apply (inv_forest _ _ HI)|by apply bfs_start|].
  simpl in *. lia.
Qed.

(** * Further properties of the code *)

Lemma five_extracted_Heap : Heap five_extracted [4; 3; 2; 0]%nat.
Proof.
  pose proof (wp_extract_min_heap 5 five_inserted _ five_inserted_Heap) as H.
  unfold wp in H. vm_compute Fib.extract_min in H.
  destruct H as (live' & roots & Hex & HH & _); [simpl; lia|].
  destruct Hex as (_ & Hperm & _).
  apply (Heap_perm _ live'); [done|].
  apply (Permutation_cons_inv (a := 1%nat)). rewrite <- Hperm.
  change ([4; 3; 2; 1; 0]%nat) with ([4; 3; 2]%nat ++ 1%nat :: [0%nat]).
  by rewrite <- Permutation_middle.
Qed.

(** X1: [insert] into a heap returns a fresh handle and keeps the heap
    well-formed: the new node carries the payload and the priority, the
    size grows by one, the minimum pointer is a least element again, and
    the nodes that were there keep their payloads and priorities. *)
Theorem insert_keeps_heap (x : string) (p : prio) (w : world) (live : list ref) :
  Heap w live →
  ∃ e w',
    Fib.insert x p w = Ok e w' ∧ e ∉ live ∧ Heap w' (e :: live) ∧
    _size (self w') = _size (self w) + 1 ∧
    obj (mem w' !!! e) = x ∧ priority (mem w' !!! e) = p ∧
    ∀ r, r ∈ live → obj (mem w' !!! r) = obj (mem w !!! r) ∧
                    priority (mem w' !!! r) = priority (mem w !!! r).
Proof.
  intros HH.
  destruct (wp_ok _ _ _ (wp_insert_heap x p w live HH))
    as (e & w' & Heq & -> & HH' & Hlen & Ho & Hp & Hold).
  exists (length (mem w)), w'. split_and!; try done.
  - by pose proof (forest_nodup _ _ (inv_forest _ _ (heap_inv _ _ HH')))
      as [? _]%NoDup_cons.
  - rewrite (inv_size _ _ (heap_inv _ _ HH')), (inv_size _ _ (heap_inv _ _ HH)).
    simpl. lia.
  - intros r Hr. apply Hold, (forest_alloc _ _ (inv_forest _ _ (heap_inv _ _ HH))), Hr.
Qed.

Lemma insert_keeps_heap_witness :
  ∃ e w',
    Fib.insert "f" (Fin 0) five_extracted = Ok e w' ∧ e ∉ [4; 3; 2; 0]%nat ∧
    Heap w' (e :: [4; 3; 2; 0]%nat) ∧
    _size (self w') = _size (self five_extracted) + 1 ∧
    obj (mem w' !!! e) = "f"%string ∧ priority (mem w' !!! e) = Fin 0 ∧
    ∀ r, r ∈ [4; 3; 2; 0]%nat →
      obj (mem w' !!! r) = obj (mem five_extracted !!! r) ∧
      priority (mem w' !!! r) = priority (mem five_extracted !!! r).
Proof.
  exact (insert_keeps_heap "f" (Fin 0) five_extracted _ five_extracted_Heap).
Defined.

(** X2: [decrease_key] of a live handle to a strictly smaller priority
    returns and keeps the heap well-formed over the same nodes: the handle
    has the new priority, every other priority and every payload is as
    before, the size is unchanged, and the minimum pointer is a least
    element, whatever cuts the call has made. *)
Theorem decrease_key_keeps_heap (fuel : nat) (h : ref) (p : prio) (w : world)
    (live : list ref) :
  Heap w live → h ∈ live → prio_lt p (priority (mem w !!! h)) →
  (length (mem w) < fuel)%nat →
  ∃ w',
    Fib.decrease_key fuel h p w = Ok tt w' ∧ Heap w' live ∧
    _size (self w') = _size (self w) ∧
    priority (mem w' !!! h) = p ∧
    (∀ r, r ≠ h → priority (mem w' !!! r) = priority (mem w !!! r)) ∧
    (∀ r, obj (mem w' !!! r) = obj (mem w !!! r)).
Proof.
  intros HH Hh Hlt Hfuel. pose proof (count_marked_le (mem w)) as Hcm.
  pose proof (wp_decrease_key_heap fuel h p w live HH Hh ltac:(lia)) as H.
  unfold wp in H. destruct (Fib.decrease_key fuel h p w) as [[] w'|e w'|]; [| |done].
  - destruct H as (_ & HH' & Hsz & _ & Hpr & Hob). exists w'.
    split_and!; try done.
    + by rewrite Hpr, decide_True.
    + intros r Hr. by rewrite Hpr, decide_False.
  - destruct H as (_ & _ & Hge). unfold prio_lt in Hlt. congruence.
Qed.

Lemma decrease_key_keeps_heap_witness :
  ∃ w',
    Fib.decrease_key 6 0%nat (Fin 1) five_extracted = Ok tt w' ∧
    Heap w' [4; 3; 2; 0]%nat ∧
    _size (self w') = _size (self five_extracted) ∧
    priority (mem w' !!! 0%nat) = Fin 1 ∧
    (∀ r, r ≠ 0%nat →
       priority (mem w' !!! r) = priority (mem five_extracted !!! r)) ∧
    (∀ r, obj (mem w' !!! r) = obj (mem five_extracted !!! r)).
Proof.
  apply (decrease_key_keeps_heap 6 0%nat (Fin 1) five_extracted [4; 3; 2; 0]%nat).
  - apply five_extracted_Heap.
  - do 3 apply list_elem_of_further. apply list_elem_of_here.
  - reflexivity.
  - simpl. lia.
Defined.

(** X3: on a well-formed heap [extract_min] returns [None] and changes
    nothing exactly when the heap has no element; otherwise it returns an
    element whose priority is least among all elements, the other elements
    form a well-formed heap again, with unchanged payloads and priorities,
    and the size is one less. *)
Theorem extract_min_returns_least (fuel : nat) (w : world) (live : list ref) :
  Heap w live → (length live ≤ fuel)%nat →
  match Fib.extract_min fuel w with
  | Ok None w' => live = [] ∧ w' = w
  | Ok (Some z) w' =>
      z ∈ live ∧
      (∀ x, x ∈ live → prio_le (priority (mem w !!! z)) (priority (mem w !!! x))) ∧
      ∃ live', live ≡ₚ z :: live' ∧ Heap w' live' ∧
               _size (self w') = _size (self w) - 1 ∧
               same_data (mem w) (mem w')
  | _ => False
  end.
Proof.
  intros HH Hfuel. pose proof (wp_extract_min_heap fuel w live HH Hfuel) as H.
  unfold wp in H. destruct (Fib.extract_min fuel w) as [[z|] w'|e w'|]; try done.
  destruct H as (live' & roots & Hex & HH' & Hsz & Hleast).
  destruct Hex as (_ & Hperm & _ & _ & Hdata & _).
  split_and!; [rewrite Hperm; apply list_elem_of_here|done|].
  by exists live'.
Qed.

Lemma extract_min_returns_least_witness :
  match Fib.extract_min 4 five_extracted with
  | Ok None w' => [4; 3; 2; 0]%nat = [] ∧ w' = five_extracted
  | Ok (Some z) w' =>
      z ∈ [4; 3; 2; 0]%nat ∧
      (∀ x, x ∈ [4; 3; 2; 0]%nat →
         prio_le (priority (mem five_extracted !!! z))
                 (priority (mem five_extracted !!! x))) ∧
      ∃ live', [4; 3; 2; 0]%nat ≡ₚ z :: live' ∧ Heap w' live' ∧
               _size (self w') = _size (self five_extracted) - 1 ∧
               same_data (mem five_extracted) (mem w')
  | _ => False
  end.
Proof.
  apply (extract_min_returns_least 4 five_extracted [4; 3; 2; 0]%nat).
  - apply five_extracted_Heap.
  - simpl. lia.
Defined.

Lemma heapA_ex_Fibo : Fibo (mem heapA_ex) [0%nat] None.
Proof. apply fibo_flat. by intros c ->%list_elem_of_singleton. Qed.

Lemma heapB_ex_Fibo : Fibo (mem heapA_ex) [1%nat] None.
Proof. apply fibo_flat. by intros c ->%list_elem_of_singleton. Qed.

(** X4: [merge] of two heaps over one arena that share no node, the
    argument non-empty or the receiver empty, returns; the receiver then
    holds the nodes of both in one well-formed structure (forest, heap
    order, root ring, size, degree discipline), no payload, priority, mark,
    parent, child or degree has changed, and the minimum pointer is the
    receiver's old one, or the argument's if the receiver was empty. *)
Theorem merge_keeps_structure (heap : FibonacciHeap) (w : world)
    (liveA liveB : list ref) :
  Inv w liveA → Inv (World (mem w) heap) liveB →
  (∀ x, x ∈ liveA → x ∉ liveB) →
  Fibo (mem w) liveA None → Fibo (mem w) liveB None →
  liveA = [] ∨ liveB ≠ [] →
  ∃ w',
    Fib.merge heap w = Ok (mkHeap 0 None) w' ∧
    Inv w' (liveA ++ liveB) ∧ Fibo (mem w') (liveA ++ liveB) None ∧
    _min (self w') = merged_min (_min (self w)) (_min heap) ∧
    same_data (mem w) (mem w') ∧
    ∀ r, mark (mem w' !!! r) = mark (mem w !!! r) ∧
         parent (mem w' !!! r) = parent (mem w !!! r) ∧
         degree (mem w' !!! r) = degree (mem w !!! r) ∧
         child (mem w' !!! r) = child (mem w !!! r).
Proof.
  intros HA HB Hdisj HLA HLB Hne.
  pose proof (wp_merge_heap heap w liveA liveB HA HB Hdisj HLA HLB) as H.
  unfold wp in H. destruct (Fib.merge heap w) as [h' w'|e w'|]; [| |done].
  - destruct H as (-> & _ & Hmin & HI & HL & Hdata & Hf). by exists w'.
  - destruct H as (_ & _ & [r Hr] & HminB). exfalso.
    pose proof (inv_empty _ _ HB HminB) as ->.
    pose proof (inv_nonempty _ _ _ HA Hr) as Hin.
    destruct Hne as [->|?]; [by apply elem_of_nil in Hin|done].
Qed.

Lemma merge_keeps_structure_witness :
  ∃ w',
    Fib.merge heapB_ex heapA_ex = Ok (mkHeap 0 None) w' ∧
    Inv w' ([0%nat] ++ [1%nat]) ∧ Fibo (mem w') ([0%nat] ++ [1%nat]) None ∧
    _min (self w') = merged_min (_min (self heapA_ex)) (_min heapB_ex) ∧
    same_data (mem heapA_ex) (mem w') ∧
    ∀ r, mark (mem w' !!! r) = mark (mem heapA_ex !!! r) ∧
         parent (mem w' !!! r) = parent (mem heapA_ex !!! r) ∧
         degree (mem w' !!! r) = degree (mem heapA_ex !!! r) ∧
         child (mem w' !!! r) = child (mem heapA_ex !!! r).
Proof.
  apply (merge_keeps_structure heapB_ex heapA_ex [0%nat] [1%nat]
           heapA_ex_Inv heapB_ex_Inv).
  - intros x ->%list_elem_of_singleton [=]%list_elem_of_singleton.
  - apply heapA_ex_Fibo.
  - apply heapB_ex_Fibo.
  - by right.
Defined.

(** X5: the first [extract_min] after a [merge] returns the minimum the
    receiver had before the merge (the argument's if the receiver was
    empty), be there a smaller element in the argument or not; after it
    the merged heap is well-formed and its minimum pointer is a least
    element again. *)
Theorem merge_then_extract_min (fuel : nat) (heap : FibonacciHeap) (w : world)
    (liveA liveB : list ref) :
  Inv w liveA → Inv (World (mem w) heap) liveB →
  (∀ x, x ∈ liveA → x ∉ liveB) →
  Fibo (mem w) liveA None → Fibo (mem w) liveB None →
  liveB ≠ [] → (length (liveA ++ liveB) ≤ fuel)%nat →
  ∃ z w' live',
    (Fib.merge heap;; Fib.extract_min fuel) w = Ok (Some z) w' ∧
    merged_min (_min (self w)) (_min heap) = Some z ∧
    liveA ++ liveB ≡ₚ z :: live' ∧ Heap w' live' ∧
    _size (self w') = _size (self w) + _size heap - 1.
Proof.
  intros HA HB Hdisj HLA HLB Hne Hfuel.
  destruct (merge_ok heap w liveA liveB HA HB Hdisj HLA HLB)
    as (w1 & Heq1 & HI1 & HL1 & Hmin1 & _); [by right|].
  assert (_size (self w1) = _size (self w) + _size heap) as Hsz1.
  { rewrite (inv_size _ _ HI1), (inv_size _ _ HA), length_app.
    pose proof (inv_size _ _ HB) as HsB. simpl in HsB. lia. }
  pose proof (wp_extract_min fuel w1 _ HI1 HL1 Hfuel) as H.
  unfold wp in H. cbv [mbind M_bind]. rewrite Heq1.
  destruct (Fib.extract_min fuel w1) as [[z|] w2|e w2|]; try done.
  2:{ destruct H as [H _]. apply app_eq_nil in H as [_ ?]. done. }
  destruct H as (live' & roots & Hex & Hsz).
  pose proof Hex as (Hmin & Hperm & HI2 & HL2 & _ & Hs & _ & Hmin2).
  exists z, w2, live'. split_and!; [done|congruence|done| |lia].
  split; [done| |done]. unfold min_is_least.
  destruct (_min (self w2)) as [r|].
  - by apply (least_root_least _ _ roots);
      [apply (inv_forest _ _ HI2)|apply (inv_order _ _ HI2)|..].
  - subst roots. destruct (decide (live' = [])) as [->|Hn]; [done|].
    destruct (forest_has_root _ _ (inv_forest _ _ HI2) Hn) as (r & Hr & Hp).
    assert (r ∈ []) as Hin by by apply Hs. by apply elem_of_nil in Hin.
Qed.

Lemma merge_then_extract_min_witness :
  ∃ z w' live',
    (Fib.merge heapB_ex;; Fib.extract_min 2) heapA_ex = Ok (Some z) w' ∧
    merged_min (_min (self heapA_ex)) (_min heapB_ex) = Some z ∧
    [0%nat] ++ [1%nat] ≡ₚ z :: live' ∧ Heap w' live' ∧
    _size (self w') = _size (self heapA_ex) + _size heapB_ex - 1.
Proof.
  apply (merge_then_extract_min 2 heapB_ex heapA_ex [0%nat] [1%nat]
           heapA_ex_Inv heapB_ex_Inv).
  - intros x ->%list_elem_of_singleton [=]%list_elem_of_singleton.
  - apply heapA_ex_Fibo.
  - apply heapB_ex_Fibo.
  - done.
  - simpl. lia.
Defined.

(** X6: [union] of two distinct heap objects over one arena that share no
    node, the second non-empty or the first empty, returns a new heap that
    holds the nodes of both in one well-formed structure, with the sum of
    the sizes and the minimum pointer of the first (of the second if the
    first was empty); both arguments are left empty, and no payload or
    priority has changed. *)
Theorem union_joins (heap1 heap2 : FibonacciHeap) (m : list Element)
    (live1 live2 : list ref) :
  Inv (World m heap1) live1 → Inv (World m heap2) live2 →
  (∀ x, x ∈ live1 → x ∉ live2) →
  live1 = [] ∨ live2 ≠ [] →
  ∃ heap m',
    union heap1 heap2 m = Returned heap (mkHeap 0 None) (mkHeap 0 None) m' ∧
    Inv (World m' heap) (live1 ++ live2) ∧
    _size heap = _size heap1 + _size heap2 ∧
    _min heap = merged_min (_min heap1) (_min heap2) ∧
    same_data m m'.
Proof.
  intros H1 H2 Hdisj Hne. unfold union.
  rewrite (merge_into_empty heap1 (World m Fib.__init__)) by done. simpl.
  assert (Inv (World m (mkHeap (_size heap1) (_min heap1))) live1) as H1'.
  { destruct H1 as [HF Ho Hr Hs]. by split. }
  pose proof (wp_merge heap2 _ live1 live2 H1' H2 Hdisj) as H.
  unfold wp in H. simpl in H.
  destruct (Fib.merge heap2 _) as [h' w'|e w'|]; [| |done].
  - destruct H as (-> & Hsz & Hmin & HI & Hlen & Hdata).
    destruct w' as [m' heap]. simpl in *.
    exists heap, m'. split_and!; try done.
    split; [done|]. intros r. by destruct (Hdata r) as (? & ? & _).
  - destruct H as (_ & _ & [r Hr] & HminB). exfalso.
    pose proof (inv_empty _ _ H2 HminB) as ->.
    pose proof (inv_nonempty _ _ _ H1 Hr) as Hin.
    destruct Hne as [->|?]; [by apply elem_of_nil in Hin|done].
Qed.

Lemma union_joins_witness :
  ∃ heap m',
    union (self heapA_ex) heapB_ex (mem heapA_ex) =
      Returned heap (mkHeap 0 None) (mkHeap 0 None) m' ∧
    Inv (World m' heap) ([0%nat] ++ [1%nat]) ∧
    _size heap = _size (self heapA_ex) + _size heapB_ex ∧
    _min heap = merged_min (_min (self heapA_ex)) (_min heapB_ex) ∧
    same_data (mem heapA_ex) m'.
Proof.
  apply (union_joins (self heapA_ex) heapB_ex (mem heapA_ex) [0%nat] [1%nat]
           heapA_ex_Inv heapB_ex_Inv).
  - intros x ->%list_elem_of_singleton [=]%list_elem_of_singleton.
  - by right.
Defined.

(** X7: [union] of a non-empty heap with an empty one fails: the second
    [merge] raises [AttributeError].  By then the first [merge] has moved
    the elements of the first heap to the new heap object and emptied the
    first heap; the arena is untouched.  The caller gets no heap back and
    is left with two empty ones. *)
Theorem union_with_empty_raises (heap1 heap2 : FibonacciHeap) (m : list Element)
    (live1 : list ref) :
  Inv (World m heap1) live1 → live1 ≠ [] → _min heap2 = None →
  union heap1 heap2 m =
    Raised AttributeError (mkHeap (_size heap1) (_min heap1)) (mkHeap 0 None) heap2 m.
Proof.
  intros H1 Hne Hmin2. unfold union.
  rewrite (merge_into_empty heap1 (World m Fib.__init__)) by done.
  destruct live1 as [|x live1]; [done|].
  destruct (inv_min_Some _ _ x H1 (list_elem_of_here _ _)) as (head & Hmin & Hhead).
  simpl in Hmin.
  pose proof (forest_alloc _ _ (inv_forest _ _ H1) head Hhead) as Hh. simpl in Hh.
  cbn [mem self Fib.__init__ _size _min].
  set (w1 := World m (mkHeap (0 + _size heap1) (_min heap1))).
  assert (Fib.merge heap2 w1 = Raise AttributeError w1) as ->.
  { unfold Fib.merge. cbv [mbind M_bind get_min rd load mret M_ret].
    subst w1. cbn [mem self _min]. rewrite Hmin, Hmin2. cbn [mem].
    rewrite (list_lookup_lookup_total_lt _ _ Hh). done. }
  subst w1. cbn [mem self]. by rewrite Z.add_0_l.
Qed.

Lemma union_with_empty_raises_witness :
  union (self heapA_ex) (mkHeap 0 None) (mem heapA_ex) =
    Raised AttributeError
      (mkHeap (_size (self heapA_ex)) (_min (self heapA_ex)))
      (mkHeap 0 None) (mkHeap 0 None) (mem heapA_ex).
Proof.
  exact (union_with_empty_raises (self heapA_ex) (mkHeap 0 None) (mem heapA_ex)
           [0%nat] heapA_ex_Inv ltac:(done) eq_refl).
Defined.

Lemma members_length (m : list Element) live o l l' :
  siblings m live o l → siblings m live o l' → length l = length l'.
Proof.
  intros [[Hnd _] Hm] [[Hnd' _] Hm']. apply Permutation_length.
  apply NoDup_Permutation; [done..|]. intros c. by rewrite (Hm c), (Hm' c).
Qed.

(** X8: in a well-formed heap [children] of a live node returns, without
    touching the heap, the list of exactly the nodes whose parent is that
    node, each once, beginning with the node's [child] pointer; its length
    is the node's [degree]. *)
Theorem children_are_the_children (fuel : nat) (p : ref) (w : world)
    (live : list ref) :
  Inv w live → p ∈ live → (Z.to_nat (degree (mem w !!! p)) ≤ fuel)%nat →
  ∃ l,
    Elem.children fuel p w = Ok l w ∧ NoDup l ∧
    (∀ c, c ∈ l ↔ c ∈ live ∧ parent (mem w !!! c) = Some p) ∧
    hd_error l = child (mem w !!! p) ∧
    Z.of_nat (length l) = degree (mem w !!! p).
Proof.
  intros HI Hp Hfuel. pose proof (inv_forest _ _ HI) as HF.
  destruct (wp_ok _ _ _ (wp_children fuel p w live HF Hp Hfuel))
    as (l & w' & Heq & -> & Hs & Hhd).
  exists l. split_and!; try done.
  - by destruct Hs as [[? _] _].
  - by destruct Hs as [_ ?].
  - destruct (forest_nodes _ _ HF p Hp) as (l' & Hs' & -> & _).
    by rewrite (members_length _ _ _ _ _ Hs Hs').
Qed.

Lemma children_are_the_children_witness :
  ∃ l,
    Elem.children 2 4 five_extracted = Ok l five_extracted ∧ NoDup l ∧
    (∀ c, c ∈ l ↔ c ∈ [4; 3; 2; 0]%nat ∧
                  parent (mem five_extracted !!! c) = Some 4%nat) ∧
    hd_error l = child (mem five_extracted !!! 4%nat) ∧
    Z.of_nat (length l) = degree (mem five_extracted !!! 4%nat).
Proof.
  apply (children_are_the_children 2 4 five_extracted [4; 3; 2; 0]%nat).
  - apply five_extracted_Heap.
  - set_solver.
  - vm_compute. lia.
Defined.

(** X9: in a well-formed heap [siblings] of a live node returns, without
    touching the heap, the list that begins with the node itself and holds
    exactly the live nodes with the same parent (the whole root list for a
    root), each once. *)
Theorem siblings_are_the_siblings (fuel : nat) (x : ref) (w : world)
    (live : list ref) :
  Inv w live → x ∈ live → (length live ≤ fuel)%nat →
  ∃ l,
    Elem.siblings fuel x w = Ok l w ∧ NoDup l ∧ hd_error l = Some x ∧
    ∀ c, c ∈ l ↔ c ∈ live ∧ parent (mem w !!! c) = parent (mem w !!! x).
Proof.
  intros HI Hx Hfuel.
  destruct (wp_ok _ _ _ (wp_siblings_of fuel x w live HI Hx Hfuel))
    as (l & w' & Heq & -> & Hhd & Hs).
  exists l. split_and!; try done.
  - by destruct Hs as [[? _] _].
  - by destruct Hs as [_ ?].
Qed.

Lemma siblings_are_the_siblings_witness :
  ∃ l,
    Elem.siblings 4 3 five_extracted = Ok l five_extracted ∧ NoDup l ∧
    hd_error l = Some 3%nat ∧
    ∀ c, c ∈ l ↔ c ∈ [4; 3; 2; 0]%nat ∧
         parent (mem five_extracted !!! c) = parent (mem five_extracted !!! 3%nat).
Proof.
  apply (siblings_are_the_siblings 4 3 five_extracted [4; 3; 2; 0]%nat).
  - apply five_extracted_Heap.
  - set_solver.
  - simpl. lia.
Defined.

(** X10: a handle that is no longer in the heap is not recognised.  Let
    [x] be an allocated element outside a non-empty well-formed heap,
    detached: no parent, no child, its own right neighbour (as node 1 of
    [five_extracted] is after its extraction).
    [decrease_key] of [x] to a priority below its own and below the
    minimum's is accepted and makes [x] the heap's minimum; the next
    [extract_min] returns [x] and leaves the heap with no minimum pointer,
    so that every element that was in the heap is lost, while the size has
    only dropped by one. *)
Theorem stale_handle_empties_heap (fuel fuel' : nat) (w : world)
    (live : list ref) (x r : ref) (p : prio) :
  Inv w live → _min (self w) = Some r →
  x ∉ live → (x < length (mem w))%nat →
  parent (mem w !!! x) = None → child (mem w !!! x) = None →
  right (mem w !!! x) = x →
  prio_lt p (priority (mem w !!! x)) → prio_lt p (priority (mem w !!! r)) →
  (Fib.decrease_key fuel x p;; Fib.extract_min fuel') w =
    Ok (Some x)
       (World (upd (mem w) x (set_priority p)) (mkHeap (_size (self w) - 1) None)).
Proof.
  intros HI Hmin Hx Hxa Hpar Hch Hri Hlt Hltr.
  assert (r ∈ live) as Hr.
  { destruct (inv_roots _ _ HI) as (l & Hs & Hl). rewrite Hmin in Hl.
    by apply (siblings_live _ _ _ _ r Hs). }
  assert (r ≠ x) as Hrx by (by intros ->).
  pose proof (forest_alloc _ _ (inv_forest _ _ HI) r Hr) as Hra.
  destruct w as [m s]. simpl in *.
  assert (wp (Fib.decrease_key fuel x p;; Fib.extract_min fuel') (World m s)
            (λ o w', o = Some x ∧
               w' = World (upd m x (set_priority p)) (mkHeap (_size s - 1) None))
            noexn False) as H.
  { unfold Fib.decrease_key, Fib.extract_min, Fib._remove_from_root_list.
    wp_steps. unfold prio_lt in Hlt. rewrite Hlt. simpl.
    wp_steps. rewrite Hpar. wp_steps. rewrite Hmin. wp_steps.
    mem_simpl. simpl. unfold prio_lt in Hltr. rewrite Hltr. wp_steps. rewrite Hch. wp_steps.
    rewrite Hri. rewrite (decide_True (P := x = x)) by done. wp_steps.
    rewrite Hpar. rewrite (decide_False (P := None ≠ None)) by (by intros ?).
    wp_steps. rewrite Hri. rewrite (decide_True (P := x = x)) by done.
    wp_steps. done. }
  unfold wp in H.
  destruct ((Fib.decrease_key fuel x p;; Fib.extract_min fuel') (World m s))
    as [o w'| |]; [|done..].
  by destruct H as [-> ->].
Qed.

Lemma stale_handle_empties_heap_witness :
  (Fib.decrease_key 0 1 (Fin 0);; Fib.extract_min 0) five_extracted =
    Ok (Some 1%nat)
       (World (upd (mem five_extracted) 1 (set_priority (Fin 0)))
              (mkHeap (_size (self five_extracted) - 1) None)).
Proof.
  apply (stale_handle_empties_heap 0 0 five_extracted [4; 3; 2; 0]%nat 1 4).
  - apply five_extracted_Heap.
  - reflexivity.
  - set_solver.
  - simpl. lia.
  - reflexivity.
  - reflexivity.
  - reflexivity.
  - reflexivity.
  - reflexivity.
Defined.

(** X11: [decrease_key] on a heap without elements, with the handle of an
    element taken out earlier and a smaller priority, raises
    [AttributeError] at the comparison with the minimum, after it has
    overwritten the element's priority. *)
Theorem decrease_key_on_empty_heap (fuel : nat) (w : world) (x : ref) (p : prio) :
  _min (self w) = None → (x < length (mem w))%nat →
  parent (mem w !!! x) = None → prio_lt p (priority (mem w !!! x)) →
  Fib.decrease_key fuel x p w =
    Raise AttributeError (World (upd (mem w) x (set_priority p)) (self w)).
Proof.
  intros Hmin Hxa Hpar Hlt. destruct w as [m s]. simpl in *.
  assert (wp (Fib.decrease_key fuel x p) (World m s)
            (λ _ _, False)
            (λ e w', e = AttributeError ∧
               w' = World (upd m x (set_priority p)) s)
            False) as H.
  { unfold Fib.decrease_key. wp_steps. unfold prio_lt in Hlt. rewrite Hlt.
    simpl. wp_steps. rewrite Hpar. wp_steps. by rewrite Hmin. }
  unfold wp in H.
  destruct (Fib.decrease_key fuel x p (World m s)) as [o w'|e w'|]; [done| |done].
  by destruct H as [-> ->].
Qed.

Lemma decrease_key_on_empty_heap_witness :
  Fib.decrease_key 0 0 (Fin 1)
    (World [mkElement "X" (Fin 10) 0%nat 0%nat None None 0 false] (mkHeap 0 None)) =
  Raise AttributeError
    (World (upd [mkElement "X" (Fin 10) 0%nat 0%nat None None 0 false] 0
              (set_priority (Fin 1)))
           (mkHeap 0 None)).
Proof.
  apply (decrease_key_on_empty_heap 0
           (World [mkElement "X" (Fin 10) 0%nat 0%nat None None 0 false] (mkHeap 0 None))
           0%nat (Fin 1)).
  - reflexivity.
  - simpl. lia.
  - reflexivity.
  - reflexivity.
Defined.

(** X12: [insert] of a priority strictly below every priority in the heap
    followed by [extract_min] is a round trip: [extract_min] returns the
    handle [insert] has just returned, and the heap is well-formed over
    the same nodes as before, with the same size, payloads and
    priorities. *)
Theorem insert_then_extract_min (fuel : nat) (x : string) (p : prio) (w : world)
    (live : list ref) :
  Heap w live →
  (∀ r, r ∈ live → prio_lt p (priority (mem w !!! r))) →
  (length live < fuel)%nat →
  ∃ e w',
    (e ← Fib.insert x p; z ← Fib.extract_min fuel; mret (e, z)) w
      = Ok (e, Some e) w' ∧
    e ∉ live ∧ Heap w' live ∧ _size (self w') = _size (self w) ∧
    ∀ r, r ∈ live → obj (mem w' !!! r) = obj (mem w !!! r) ∧
                    priority (mem w' !!! r) = priority (mem w !!! r).
Proof.
  intros HH Hlow Hfuel.
  destruct (wp_ok _ _ _ (wp_insert_heap x p w live HH))
    as (e & w1 & Heq1 & -> & HH1 & Hlen & Ho & Hp & Hold).
  assert (length (mem w) ∉ live) as He.
  { by pose proof (forest_nodup _ _ (inv_forest _ _ (heap_inv _ _ HH1)))
      as [? _]%NoDup_cons. }
  destruct (wp_ok _ _ _ (wp_extract_min_heap fuel w1 _ HH1 ltac:(simpl; lia)))
    as ([z|] & w2 & Heq2 & H2); [|by destruct H2].
  destruct H2 as (live' & roots & Hex & HH2 & Hsz & Hleast).
  destruct Hex as (_ & Hperm & _ & _ & [_ Hdata] & _).
  assert (z = length (mem w)) as ->.
  { assert (z ∈ length (mem w) :: live) as [->|Hz]%elem_of_cons; [|done|].
    { rewrite Hperm. apply list_elem_of_here. }
    exfalso. specialize (Hleast (length (mem w)) (list_elem_of_here _ _)).
    rewrite Hp in Hleast. specialize (Hlow z Hz).
    pose proof (forest_alloc _ _ (inv_forest _ _ (heap_inv _ _ HH)) z Hz) as Hza.
    destruct (Hold z Hza) as [_ Hpz]. rewrite Hpz in Hleast.
    unfold prio_lt in Hlow. unfold prio_le in Hleast. congruence. }
  apply Permutation_cons_inv in Hperm.
  exists (length (mem w)), w2. split_and!; try done.
  - cbv [mbind M_bind mret M_ret]. by rewrite Heq1, Heq2.
  - apply (Heap_perm _ live'); [done|by symmetry].
  - rewrite Hsz, (inv_size _ _ (heap_inv _ _ HH1)), (inv_size _ _ (heap_inv _ _ HH)).
    simpl. lia.
  - intros r Hr.
    pose proof (forest_alloc _ _ (inv_forest _ _ (heap_inv _ _ HH)) r Hr) as Hra.
    destruct (Hold r Hra) as [<- <-]. destruct (Hdata r) as [-> ->]. done.
Qed.

Lemma insert_then_extract_min_witness :
  ∃ e w',
    (e ← Fib.insert "f" (Fin 0); z ← Fib.extract_min 5; mret (e, z)) five_extracted
      = Ok (e, Some e) w' ∧
    e ∉ [4; 3; 2; 0]%nat ∧ Heap w' [4; 3; 2; 0]%nat ∧
    _size (self w') = _size (self five_extracted) ∧
    ∀ r, r ∈ [4; 3; 2; 0]%nat →
      obj (mem w' !!! r) = obj (mem five_extracted !!! r) ∧
      priority (mem w' !!! r) = priority (mem five_extracted !!! r).
Proof.
  apply (insert_then_extract_min 5 "f" (Fin 0) five_extracted [4; 3; 2; 0]%nat).
  - apply five_extracted_Heap.
  - intros r Hr. repeat (apply elem_of_cons in Hr as [->|Hr]; [reflexivity|]).
    by apply elem_of_nil in Hr.
  - simpl. lia.
Defined.

(** X13: [decrease_key] of a live handle to a priority strictly below
    every other priority in the heap, followed by [extract_min], takes
    exactly that element out: [extract_min] returns the handle, and the
    heap is well-formed over the other nodes, whose payloads and priorities
    are untouched. *)
Theorem decrease_key_then_extract_min (fuel : nat) (h : ref) (p : prio)
    (w : world) (live : list ref) :
  Heap w live → h ∈ live → prio_lt p (priority (mem w !!! h)) →
  (∀ r, r ∈ live → r ≠ h → prio_lt p (priority (mem w !!! r))) →
  (length (mem w) < fuel)%nat →
  ∃ w' live',
    (Fib.decrease_key fuel h p;; Fib.extract_min fuel) w = Ok (Some h) w' ∧
    live ≡ₚ h :: live' ∧ Heap w' live' ∧
    _size (self w') = _size (self w) - 1 ∧
    ∀ r, r ∈ live' → obj (mem w' !!! r) = obj (mem w !!! r) ∧
                     priority (mem w' !!! r) = priority (mem w !!! r).
Proof.
  intros HH Hh Hlt Hlow Hfuel.
  pose proof (heap_length w live HH) as Hll.
  pose proof (count_marked_le (mem w)) as Hcm.
  pose proof (wp_decrease_key_heap fuel h p w live HH Hh ltac:(lia)) as H1.
  unfold wp in H1.
  destruct (Fib.decrease_key fuel h p w) as [[] w1|e w1|] eqn:Heq1; [| |done].
  2:{ destruct H1 as (_ & _ & Hf). unfold prio_lt in Hlt. congruence. }
  destruct H1 as (_ & HH1 & Hsz1 & Hl1 & Hpr1 & Hob1).
  destruct (wp_ok _ _ _ (wp_extract_min_heap fuel w1 _ HH1 ltac:(lia)))
    as ([z|] & w2 & Heq2 & H2).
  2:{ destruct H2 as [-> _]. by apply elem_of_nil in Hh. }
  destruct H2 as (live' & roots & Hex & HH2 & Hsz & Hleast).
  destruct Hex as (_ & Hperm & _ & _ & [_ Hdata] & _).
  assert (z = h) as ->.
  { destruct (decide (z = h)) as [|Hzh]; [done|]. exfalso.
    assert (z ∈ live) as Hz by (rewrite Hperm; apply list_elem_of_here).
    specialize (Hleast h Hh). rewrite !Hpr1 in Hleast.
    rewrite (decide_True (P := h = h)) in Hleast by done.
    rewrite (decide_False (P := z = h)) in Hleast by done.
    specialize (Hlow z Hz Hzh). unfold prio_lt in Hlow. unfold prio_le in Hleast.
    congruence. }
  exists w2, live'. split_and!; try done.
  - cbv [mbind M_bind]. by rewrite Heq1, Heq2.
  - lia.
  - intros r Hr. destruct (Hdata r) as [-> ->]. rewrite Hob1, Hpr1.
    rewrite decide_False; [done|]. intros ->.
    pose proof (forest_nodup _ _ (inv_forest _ _ (heap_inv _ _ HH))) as Hnd.
    rewrite Hperm in Hnd. by apply NoDup_cons in Hnd as [? _].
Qed.

Lemma decrease_key_then_extract_min_witness :
  ∃ w' live',
    (Fib.decrease_key 6 0 (Fin 1);; Fib.extract_min 6) five_extracted
      = Ok (Some 0%nat) w' ∧
    [4; 3; 2; 0]%nat ≡ₚ 0%nat :: live' ∧ Heap w' live' ∧
    _size (self w') = _size (self five_extracted) - 1 ∧
    ∀ r, r ∈ live' → obj (mem w' !!! r) = obj (mem five_extracted !!! r) ∧
                     priority (mem w' !!! r) = priority (mem five_extracted !!! r).
Proof.
  apply (decrease_key_then_extract_min 6 0 (Fin 1) five_extracted [4; 3; 2; 0]%nat).
  - apply five_extracted_Heap.
  - set_solver.
  - reflexivity.
  - intros r Hr Hne.
    repeat (apply elem_of_cons in Hr as [->|Hr]; [done || reflexivity|]).
    by apply elem_of_nil in Hr.
  - simpl. lia.
Defined.

(** X14: [insert] followed by [delete] of the handle it returned is a
    round trip when no priority involved is -inf: the call returns, and the
    heap is well-formed over the same nodes as before the insertion, with
    the same size, payloads and priorities. *)
Theorem insert_then_delete (fuel : nat) (x : string) (p : prio) (w : world)
    (live : list ref) :
  Heap w live → p ≠ NegInf →
  (∀ r, r ∈ live → priority (mem w !!! r) ≠ NegInf) →
  (S (length (mem w)) < fuel)%nat →
  ∃ w',
    (e ← Fib.insert x p; Fib.delete fuel e) w = Ok tt w' ∧
    Heap w' live ∧ _size (self w') = _size (self w) ∧
    ∀ r, r ∈ live → obj (mem w' !!! r) = obj (mem w !!! r) ∧
                    priority (mem w' !!! r) = priority (mem w !!! r).
Proof.
  intros HH Hp Hfin Hfuel.
  pose proof (forest_alloc _ _ (inv_forest _ _ (heap_inv _ _ HH))) as Hal.
  destruct (wp_ok _ _ _ (wp_insert_heap x p w live HH))
    as (e & w1 & Heq1 & -> & HH1 & Hlen & Ho & Hpe & Hold).
  assert (length (mem w) ∉ live) as He.
  { by pose proof (forest_nodup _ _ (inv_forest _ _ (heap_inv _ _ HH1)))
      as [? _]%NoDup_cons. }
  assert (∀ r, r ∈ length (mem w) :: live → priority (mem w1 !!! r) ≠ NegInf)
    as Hfin1.
  { intros r [->|Hr]%elem_of_cons; [by rewrite Hpe|].
    destruct (Hold r (Hal r Hr)) as [_ ->]. by apply Hfin. }
  destruct (wp_ok _ _ _ (wp_delete_heap fuel (length (mem w)) w1 _ HH1
              (list_elem_of_here _ _) Hfin1 ltac:(lia)))
    as ([] & w2 & Heq2 & live' & Hperm & HH2 & Hsz & _ & Hpr & Hob).
  apply Permutation_cons_inv in Hperm.
  exists w2. split_and!.
  - cbv [mbind M_bind]. by rewrite Heq1, Heq2.
  - apply (Heap_perm _ live'); [done|by symmetry].
  - rewrite Hsz, (inv_size _ _ (heap_inv _ _ HH1)), (inv_size _ _ (heap_inv _ _ HH)).
    simpl. lia.
  - intros r Hr. rewrite Hob, Hpr. destruct (Hold r (Hal r Hr)) as [-> ->].
    rewrite decide_False; [done|]. by intros ->.
Qed.

Lemma insert_then_delete_witness :
  ∃ w',
    (e ← Fib.insert "f" (Fin 9); Fib.delete 7 e) five_extracted = Ok tt w' ∧
    Heap w' [4; 3; 2; 0]%nat ∧ _size (self w') = _size (self five_extracted) ∧
    ∀ r, r ∈ [4; 3; 2; 0]%nat →
      obj (mem w' !!! r) = obj (mem five_extracted !!! r) ∧
      priority (mem w' !!! r) = priority (mem five_extracted !!! r).
Proof.
  apply (insert_then_delete 7 "f" (Fin 9) five_extracted [4; 3; 2; 0]%nat).
  - apply five_extracted_Heap.
  - done.
  - intros r Hr. repeat (apply elem_of_cons in Hr as [->|Hr]; [done|]).
    by apply elem_of_nil in Hr.
  - simpl. lia.
Defined.

(** X15: in a heap as the operations keep it, a node of degree [d] has
    [d >= 0] and the heap holds at least [fib (d + 2)] elements: degrees
    are logarithmic in the size, which is what the length of the array of
    [_consolidate] relies on. *)
Theorem heap_degree_bound (w : world) (live : list ref) (p : ref) :
  Heap w live → p ∈ live →
  0 ≤ degree (mem w !!! p) ∧
  fib (Z.to_nat (degree (mem w !!! p)) + 2) ≤ _size (self w).
Proof.
  intros [HI _ HL] Hp. rewrite (inv_size _ _ HI).
  by apply degree_bound; [apply (inv_forest _ _ HI)|..].
Qed.

Lemma heap_degree_bound_witness :
  0 ≤ degree (mem five_extracted !!! 4%nat) ∧
  fib (Z.to_nat (degree (mem five_extracted !!! 4%nat)) + 2)
    ≤ _size (self five_extracted).
Proof.
  apply (heap_degree_bound five_extracted [4; 3; 2; 0]%nat 4).
  - apply five_extracted_Heap.
  - set_solver.
Defined.

(** X16: on a well-formed, non-empty heap [level_traversal] returns,
    without touching the heap and without an index out of range, the
    nodes of the heap by level: every node of the heap occurs exactly once
    in the rows, the row at index [k] holds nodes that lie [k] parent
    links below a root, and no row is empty. *)
Theorem level_traversal_levels (fuel : nat) (w : world) (live : list ref) :
  Inv w live → live ≠ [] → (length live < fuel)%nat →
  ∃ levels,
    Draw.level_traversal fuel w = Ok levels w ∧
    concat levels ≡ₚ live ∧
    (∀ k row x, levels !! k = Some row → x ∈ row → depth (mem w) x k) ∧
    (∀ row, row ∈ levels → row ≠ []).
Proof.
  intros HI Hne Hfuel.
  destruct live as [|x0 live0] eqn:Hlive; [done|]. rewrite <- Hlive in *.
  assert (x0 ∈ live) as Hx0 by (rewrite Hlive; apply list_elem_of_here).
  destruct (inv_min_Some _ _ x0 HI Hx0) as (r & Hmin & Hr).
  destruct (wp_ok _ _ _ (wp_level_traversal fuel w live r HI Hmin Hfuel))
    as (levels & w' & Heq & -> & HB).
  destruct (bfs_done _ _ _ (inv_forest _ _ HI) HB) as [Hperm Hdepth].
  exists levels. split_and!; try done.
  intros row [k Hk]%list_elem_of_lookup_1.
  destruct k as [|k]; [|by apply (bfs_rows _ _ _ _ HB (S k) row Hk); lia].
  assert (r ∈ concat levels) as Hin by by rewrite Hperm.
  apply elem_of_concat in Hin as (k' & row' & Hk' & Hin).
  assert (parent (mem w !!! r) = None) as Hrp.
  { destruct (inv_roots _ _ HI) as (l & Hs & Hl). rewrite Hmin in Hl.
    by apply (siblings_parent _ _ _ _ r Hs). }
  pose proof (depth_fun _ _ _ _ (Hdepth k' row' r Hk' Hin) (depth_root _ r Hrp)).
  subst k'. simplify_eq. intros ->. by apply elem_of_nil in Hin.
Qed.

Lemma level_traversal_levels_witness :
  ∃ levels,
    Draw.level_traversal 5 five_extracted = Ok levels five_extracted ∧
    concat levels ≡ₚ [4; 3; 2; 0]%nat ∧
    (∀ k row x, levels !! k = Some row → x ∈ row →
                depth (mem five_extracted) x k) ∧
    (∀ row, row ∈ levels → row ≠ []).
Proof.
  apply (level_traversal_levels 5 five_extracted [4; 3; 2; 0]%nat).
  - apply five_extracted_Heap.
  - done.
  - simpl. lia.
Defined.

(** X17: [level_traversal] of a heap without elements raises
    [AttributeError]: [min()] returns [None], which has no [siblings]. *)
Theorem level_traversal_of_empty_heap (fuel : nat) (w : world) :
  _min (self w) = None →
  Draw.level_traversal fuel w = Raise AttributeError w.
Proof.
  intros Hmin. unfold Draw.level_traversal, Fib.min.
  cbv [mbind M_bind get_min attr raise]. by rewrite Hmin.
Qed.

Lemma level_traversal_of_empty_heap_witness :
  Draw.level_traversal 1 empty_world = Raise AttributeError empty_world.
Proof. exact (level_traversal_of_empty_heap 1 empty_world eq_refl). Defined.

(** X18: the handle [insert] returns gives back what was inserted:
    [get_value] of it is the payload and [get_priority] the priority,
    whatever the heap held before. *)
Theorem insert_then_get (x : string) (p : prio) (w : world) (live : list ref) :
  Inv w live →
  ∃ w',
    (e ← Fib.insert x p; v ← Elem.get_value e; q ← Elem.get_priority e;
     mret (v, q)) w = Ok (x, p) w'.
Proof.
  intros HI.
  destruct (wp_ok _ _ _ (wp_insert x p w live HI))
    as (e & w' & Heq & -> & HI' & Hlen & Ho & Hp & _).
  exists w'. unfold Elem.get_value, Elem.get_priority.
  cbv [mbind M_bind mret M_ret rd load]. rewrite Heq.
  rewrite !(list_lookup_lookup_total_lt (mem w') (length (mem w))) by lia.
  by rewrite Ho, Hp.
Qed.

Lemma insert_then_get_witness :
  ∃ w',
    (e ← Fib.insert "f" (Fin 0); v ← Elem.get_value e; q ← Elem.get_priority e;
     mret (v, q)) five_extracted = Ok ("f"%string, Fin 0) w'.
Proof.
  apply (insert_then_get "f" (Fin 0) five_extracted [4; 3; 2; 0]%nat).
  apply five_extracted_Heap.
Defined.

(** X19: on a heap as the operations keep it, [min], [size] and [len]
    change nothing; [size] and [len] return the number of elements, and
    [min] returns [None] exactly when that number is 0, and otherwise the
    handle of an element of least priority. *)
Theorem min_and_len (w : world) (live : list ref) :
  Heap w live →
  ∃ o,
    Fib.min w = Ok o w ∧
    Fib.size w = Ok (Z.of_nat (length live)) w ∧
    Fib.__len__ w = Ok (Z.of_nat (length live)) w ∧
    (o = None ↔ length live = 0%nat) ∧
    ∀ z, o = Some z →
      z ∈ live ∧
      ∀ x, x ∈ live → prio_le (priority (mem w !!! z)) (priority (mem w !!! x)).
Proof.
  intros [HI Hleast _]. exists (_min (self w)).
  unfold Fib.__len__, Fib.size, Fib.min, get_min, get_size.
  rewrite (inv_size _ _ HI). split_and!; try done.
  - unfold min_is_least in Hleast. destruct (_min (self w)) as [r|].
    + destruct Hleast as [Hr _]. split; [done|]. intros Hl.
      apply nil_length_inv in Hl. subst live. by apply elem_of_nil in Hr.
    + by subst live.
  - intros z Hz. unfold min_is_least in Hleast. by rewrite Hz in Hleast.
Qed.

Lemma min_and_len_witness :
  ∃ o,
    Fib.min five_extracted = Ok o five_extracted ∧
    Fib.size five_extracted = Ok (Z.of_nat (length [4; 3; 2; 0]%nat)) five_extracted ∧
    Fib.__len__ five_extracted = Ok (Z.of_nat (length [4; 3; 2; 0]%nat)) five_extracted ∧
    (o = None ↔ length [4; 3; 2; 0]%nat = 0%nat) ∧
    ∀ z, o = Some z →
      z ∈ [4; 3; 2; 0]%nat ∧
      ∀ x, x ∈ [4; 3; 2; 0]%nat →
        prio_le (priority (mem five_extracted !!! z))
                (priority (mem five_extracted !!! x)).
Proof. exact (min_and_len five_extracted _ five_extracted_Heap). Defined.

(** X20: [decrease_key] restructures nothing when heap order still holds:
    if the handle is a root, or its parent's priority is not above the new
    one, the call only overwrites the priority of the handle, and makes the
    handle the minimum if the new priority is strictly below the
    minimum's.  No link, mark, degree or size changes. *)
Theorem decrease_key_without_cut (fuel : nat) (h : ref) (p : prio) (w : world)
    (live : list ref) :
  Inv w live → h ∈ live → prio_lt p (priority (mem w !!! h)) →
  match parent (mem w !!! h) with
  | Some y => prio_le (priority (mem w !!! y)) p
  | None => True
  end →
  ∃ r, _min (self w) = Some r ∧
    Fib.decrease_key fuel h p w =
      Ok tt (World (upd (mem w) h (set_priority p))
               (mkHeap (_size (self w))
                  (if prio_ltb p (priority (mem w !!! r)) then Some h else Some r))).
Proof.
  intros HI Hh Hlt Hpar.
  destruct (inv_min_Some _ _ h HI Hh) as (r & Hmin & Hr).
  exists r. split; [done|].
  pose proof (inv_forest _ _ HI) as HF.
  pose proof (forest_alloc _ _ HF) as Hal.
  pose proof (Hal h Hh) as Hha. pose proof (Hal r Hr) as Hra.
  destruct w as [m s]. simpl in *.
  set (mn := if prio_ltb p (priority (m !!! r)) then Some h else Some r).
  assert (wp (Fib.decrease_key fuel h p) (World m s)
            (λ _ w', w' = World (upd m h (set_priority p)) (mkHeap (_size s) mn))
            noexn False) as H.
  { unfold Fib.decrease_key. wp_steps. unfold prio_lt in Hlt. rewrite Hlt.
    simpl. wp_steps.
    assert (wp (px ← rd priority h; m0 ← get_min; m0 ← attr m0;
                pm ← rd priority m0;
                if prio_ltb px pm then set_min (Some h) else mret tt)
              (World (upd m h (set_priority p)) s)
              (λ _ w', w' = World (upd m h (set_priority p)) (mkHeap (_size s) mn))
              noexn False) as Hrest.
    { wp_steps. rewrite Hmin. wp_steps. mem_simpl. simpl. subst mn.
      destruct (decide (r = h)) as [->|Hrh].
      - mem_simpl. simpl. rewrite prio_ltb_irrefl, Hlt. wp_steps.
        destruct s; simpl in *. by rewrite Hmin.
      - mem_simpl. destruct (prio_ltb p (priority (m !!! r))); wp_steps; [done|].
        destruct s; simpl in *. by rewrite Hmin. }
    destruct (parent (m !!! h)) as [y|] eqn:Hp; [|apply wp_ret; exact Hrest].
    pose proof (Hal y (forest_parent _ _ HF h y Hh Hp)) as Hya.
    assert (y ≠ h) as Hyh.
    { intros ->. destruct (forest_rank _ _ HF) as [rk Hrk].
      specialize (Hrk h h Hh Hp). lia. }
    wp_steps. mem_simpl. simpl. unfold prio_le in Hpar.
    rewrite Hpar.
    apply wp_ret. exact Hrest. }
  unfold wp in H.
  destruct (Fib.decrease_key fuel h p (World m s)) as [[] w'| |]; [|done..].
  by rewrite H.
Qed.

Lemma decrease_key_without_cut_witness :
  ∃ r, _min (self five_extracted) = Some r ∧
    Fib.decrease_key 0 3 (Fin 3) five_extracted =
      Ok tt (World (upd (mem five_extracted) 3 (set_priority (Fin 3)))
               (mkHeap (_size (self five_extracted))
                  (if prio_ltb (Fin 3) (priority (mem five_extracted !!! r))
                   then Some 3%nat else Some r))).
Proof.
  apply (decrease_key_without_cut 0 3 (Fin 3) five_extracted [4; 3; 2; 0]%nat).
  - apply five_extracted_Heap.
  - set_solver.
  - reflexivity.
  - reflexivity.
Defined.

(** X21: when the minimum of the heap already has priority -inf, [delete]
    of another element, of a priority other than -inf, takes out the wrong
    one: the call returns, the minimum has left the heap, and the element
    to be deleted is still in it, with its priority overwritten by -inf. *)
Theorem delete_beside_neginf_minimum (fuel : nat) (x r : ref) (w : world)
    (live : list ref) :
  Heap w live → x ∈ live → _min (self w) = Some r → r ≠ x →
  priority (mem w !!! r) = NegInf → priority (mem w !!! x) ≠ NegInf →
  (length (mem w) < fuel)%nat →
  ∃ w' live',
    Fib.delete fuel x w = Ok tt w' ∧
    live ≡ₚ r :: live' ∧ x ∈ live' ∧ Heap w' live' ∧
    priority (mem w' !!! x) = NegInf ∧
    _size (self w') = _size (self w) - 1.
Proof.
  intros HH Hx Hmin Hrx Hpr Hpx Hfuel.
  pose proof (heap_length w live HH) as Hll.
  pose proof (count_marked_le (mem w)) as Hcm.
  pose proof (wp_conj2 _ _ _ _ _ _ _ _
    (wp_decrease_key_heap fuel x NegInf w live HH Hx ltac:(lia))
    (decrease_key_min fuel x NegInf w r Hmin Hrx)) as H1.
  unfold wp in H1.
  destruct (Fib.decrease_key fuel x NegInf w) as [[] w1|e w1|] eqn:Heq1;
    [| |by destruct H1].
  2:{ destruct H1 as [(_ & _ & Hf) _]. by destruct (priority (mem w !!! x)). }
  destruct H1 as [(_ & HH1 & Hsz1 & Hl1 & Hpr1 & _) Hmin1].
  rewrite Hpr in Hmin1. simpl in Hmin1.
  destruct (wp_ok _ _ _ (wp_extract_min_heap fuel w1 _ HH1 ltac:(lia)))
    as ([z|] & w2 & Heq2 & H2).
  2:{ destruct H2 as [-> _]. by apply elem_of_nil in Hx. }
  destruct H2 as (live' & roots & Hex & HH2 & Hsz & _).
  destruct Hex as (Hz & Hperm & _ & _ & [_ Hdata] & _).
  assert (z = r) as -> by congruence.
  exists w2, live'. split_and!; try done.
  - unfold Fib.delete. cbv [mbind M_bind mret M_ret]. by rewrite Heq1, Heq2.
  - assert (x ∈ r :: live') as [?|?]%elem_of_cons by (by rewrite <- Hperm);
      [congruence|done].
  - destruct (Hdata x) as [-> _]. rewrite Hpr1. by rewrite decide_True.
  - lia.
Qed.

Lemma delete_beside_neginf_minimum_witness :
  ∃ w' live',
    Fib.delete 4 1 beside_neginf = Ok tt w' ∧
    [2; 1; 0]%nat ≡ₚ 0%nat :: live' ∧ 1%nat ∈ live' ∧ Heap w' live' ∧
    priority (mem w' !!! 1%nat) = NegInf ∧
    _size (self w') = _size (self beside_neginf) - 1.
Proof.
  apply (delete_beside_neginf_minimum 4 1 0 beside_neginf [2; 1; 0]%nat).
  - apply beside_neginf_Heap.
  - set_solver.
  - reflexivity.
  - done.
  - reflexivity.
  - done.
  - simpl. lia.
Defined.

(** X22: [extract_min] leaves few roots.  After the call on a heap as the
    operations keep it, the roots of the heap (the remaining nodes without
    parent) number [k] with [fib (k + 1)] at most the new size, unless
    there is none: the root list is logarithmic in the size. *)
Theorem extract_min_leaves_few_roots (fuel : nat) (w : world) (live : list ref) :
  Heap w live → live ≠ [] → (length live ≤ fuel)%nat →
  ∃ z w' roots,
    Fib.extract_min fuel w = Ok (Some z) w' ∧ NoDup roots ∧
    (∀ r, r ∈ roots ↔ (r ∈ live ∧ r ≠ z) ∧ parent (mem w' !!! r) = None) ∧
    (roots ≠ [] → fib (length roots + 1) ≤ _size (self w')).
Proof.
  intros HH Hne Hfuel.
  destruct (wp_ok _ _ _ (wp_extract_min_heap fuel w live HH Hfuel))
    as ([z|] & w' & Heq & H); [|by destruct H].
  destruct H as (live' & roots & Hex & HH' & Hsz & _).
  destruct Hex as (_ & Hperm & _ & _ & _ & Hs & Hdist & _).
  pose proof (forest_nodup _ _ (inv_forest _ _ (heap_inv _ _ HH))) as Hnd.
  rewrite Hperm in Hnd. apply NoDup_cons in Hnd as [Hz Hnd'].
  exists z, w', roots. split_and!; [done|by destruct Hs as [[? _] _]| |].
  - intros r. destruct Hs as [_ Hm]. rewrite (Hm r), Hperm, elem_of_cons.
    split; [|tauto]. intros [Hr Hp]. split_and!; [by right| |done].
    by intros ->.
  - intros Hr. rewrite (inv_size _ _ (heap_inv _ _ HH')).
    apply (distinct_degrees_count (mem w') roots);
      [by destruct Hs as [[? _] _]|done..|].
    intros r Hin. apply degree_bound;
      [apply (inv_forest _ _ (heap_inv _ _ HH'))|apply (heap_fibo _ _ HH')|].
    by apply (siblings_live _ _ _ _ r Hs).
Qed.

Lemma extract_min_leaves_few_roots_witness :
  ∃ z w' roots,
    Fib.extract_min 5 five_inserted = Ok (Some z) w' ∧ NoDup roots ∧
    (∀ r, r ∈ roots ↔ (r ∈ [4; 3; 2; 1; 0]%nat ∧ r ≠ z) ∧
                      parent (mem w' !!! r) = None) ∧
    (roots ≠ [] → fib (length roots + 1) ≤ _size (self w')).
Proof.
  apply (extract_min_leaves_few_roots 5 five_inserted [4; 3; 2; 1; 0]%nat).
  - apply five_inserted_Heap.
  - done.
  - simpl. lia.
Defined.


